(** * pacman-python: movement, collision and decision core

    A shallow embedding of [game/vector.py], [game/constants.py],
    [game/maze.py], [game/actors.py] and the simulation part of
    [game/game.py], followed by the properties proved about them.

    Number model.  Python [int]s are [Z].  In the modules named after the
    source files Python [float]s are idealised as exact rationals [Q]: every
    comparison, floor division and modulo there is the exact one.
    [math.hypot] is the real square root of the sum of squares
    ([Vector.distance_to], in [R]).

    Rounding.  [Float] gives the arithmetic of binary64 floats as the
    interpreter performs it, and [Rounded] embeds again, with that
    arithmetic, the conversions between tiles and pixels, the alignment
    test, the stop at a wall and the animation phase.  The properties on
    these say on which range the idealised functions and the rounded ones
    agree, and what happens outside of it.

    The Tk window, the texts drawn and the wall clock are outside the model;
    a canvas is the list of the items created on it; the global [random]
    generator is an explicit stream of draws. *)

From Stdlib Require Import ZArith QArith Qround Qabs Qpower Qreals Reals Lqa Lra Lia.
From Stdlib Require Import String Ascii List Bool.
From stdpp Require Import gmap strings list.

Local Open Scope Z_scope.

(** Linear arithmetic over the rationals and over the reals. *)
Ltac qlra := Lqa.lra.
Ltac rlra := Lra.lra.

(** ** Python helpers *)

(** Outcome of a call that may raise. *)
Inductive result (E A : Type) : Type :=
| Ok (a : A)
| Raise (e : E).
Arguments Ok {E A} a.
Arguments Raise {E A} e.

(** [a < b] on floats. *)
Definition Qltb (a b : Q) : bool := negb (Qle_bool b a).

(** [int(q)]: truncation towards zero. *)
Definition py_int (q : Q) : Z := Z.quot (Qnum q) (Zpos (Qden q)).

(** [a // b] for a positive integer divisor [b], as an integer: the exact
    floor ([Float.floordiv] has the rounding). *)
Definition py_floordiv (a : Q) (b : Z) : Z := Qfloor (a / inject_Z b).

(** [a % b] for a positive divisor: the exact [a - b * floor(a / b)]
    ([Float.rem] has the rounding). *)
Definition py_mod (a b : Q) : Q := (a - b * inject_Z (Qfloor (a / b)))%Q.

(** [enumerate(seq)] with Python [int] indices. *)
Fixpoint enumerate_from {A : Type} (i : Z) (l : list A) : list (Z * A) :=
  match l with
  | [] => []
  | a :: l' => (i, a) :: enumerate_from (i + 1) l'
  end.
Definition enumerate {A : Type} (l : list A) : list (Z * A) := enumerate_from 0 l.

(** [len(s)] of a [str]. *)
Definition len (s : string) : Z := Z.of_nat (String.length s).

(** ** game/constants.py *)
Module constants.

Definition TILE_SIZE : Z := 20.
Definition GRID_WIDTH : Z := 28.
Definition GRID_HEIGHT : Z := 31.
Definition SCREEN_WIDTH : Z := GRID_WIDTH * TILE_SIZE.
Definition SCREEN_HEIGHT : Z := GRID_HEIGHT * TILE_SIZE.

Definition Color : Type := string.
Definition YELLOW : Color := "#FFCD00"%string.
Definition RED : Color := "#FF0000"%string.
Definition CYAN : Color := "#00FFFF"%string.
Definition PINK : Color := "#FF69B4"%string.
Definition ORANGE : Color := "#FFA500"%string.

Definition MAZE_LAYOUT : list string := [
  "############################";
  "#............##............#";
  "#.####.#####.##.#####.####.#";
  "#o####.#####.##.#####.####o#";
  "#.####.#####.##.#####.####.#";
  "#..........................#";
  "#.####.##.########.##.####.#";
  "#.####.##.########.##.####.#";
  "#......##....##....##......#";
  "######.##### ## #####.######";
  "     #.##### ## #####.#     ";
  "     #.##          ##.#     ";
  "     #.## ###--### ##.#     ";
  "######.## #      # ##.######";
  "      .   # GGGG #   .      ";
  "######.## #      # ##.######";
  "     #.## ######## ##.#     ";
  "     #.##          ##.#     ";
  "     #.## ######## ##.#     ";
  "######.## ######## ##.######";
  "#............##............#";
  "#.####.#####.##.#####.####.#";
  "#o..##.......P.......##..o.#";
  "###.##.##.########.##.##.###";
  "#......##....##....##......#";
  "#.##########.##.##########.#";
  "#..........................#";
  "############################"
]%string.

Definition GHOST_COLORS : list Color := [RED; CYAN; PINK; ORANGE].

(** [TILE_SIZE / 2], a float. *)
Definition HALF_TILE : Q := (inject_Z TILE_SIZE / 2)%Q.

End constants.

(** ** game/vector.py *)
Module Vector.

Record t : Type := mk { x : Q; y : Q }.

Definition __add__ (a b : t) : t := mk (x a + x b) (y a + y b).
Definition __sub__ (a b : t) : t := mk (x a - x b) (y a - y b).
Definition __mul__ (a : t) (scalar : Q) : t := mk (x a * scalar) (y a * scalar).

Definition copy (a : t) : t := mk (x a) (y a).

(** Sum of the squared coordinate differences, the argument of the square
    root in [distance_to]. *)
Definition distance_sq (a b : t) : Q :=
  let dx := (x a - x b)%Q in
  let dy := (y a - y b)%Q in
  (dx * dx + dy * dy)%Q.

(** [math.hypot(dx, dy)]. *)
Definition distance_to (a b : t) : R := sqrt (Q2R (distance_sq a b)).

Definition is_zero (a : t) : bool := Qeq_bool (x a) 0 && Qeq_bool (y a) 0.

(** [a.x == b.x and a.y == b.y]. *)
Definition same (a b : t) : bool := Qeq_bool (x a) (x b) && Qeq_bool (y a) (y b).

(** [Vector(float(c[0]), float(c[1]))] for an integer pair. *)
Definition of_ints (c : Z * Z) : t := mk (inject_Z (fst c)) (inject_Z (snd c)).

End Vector.

(** [TilePos = Tuple[int, int]]: (column, row). *)
Definition TilePos : Type := (Z * Z)%type.

(** ** game/maze.py *)
Module PelletSet.

Record t : Type := mk { pellets : gset TilePos; power_pellets : gset TilePos }.

Definition scan_char (row : Z) (acc : t) (cc : Z * ascii) : t :=
  let '(col, char) := cc in
  if Ascii.eqb char "." then mk ({[ (col, row) ]} ∪ pellets acc) (power_pellets acc)
  else if Ascii.eqb char "o" then mk (pellets acc) ({[ (col, row) ]} ∪ power_pellets acc)
  else acc.

Definition scan_line (acc : t) (rl : Z * string) : t :=
  let '(row, line) := rl in
  fold_left (scan_char row) (enumerate (list_ascii_of_string line)) acc.

Definition from_layout (layout : list string) : t :=
  fold_left scan_line (enumerate layout) (mk ∅ ∅).

(** [copy] builds fresh sets with the same elements; sets are values here. *)
Definition copy (s : t) : t := mk (pellets s) (power_pellets s).

End PelletSet.

Module Maze.

(** The three [ValueError]s raised by the constructor. *)
Inductive ValueError : Type :=
| EmptyLayout          (* Layout must contain at least one row *)
| InconsistentWidth (row got expected : Z)
                       (* Layout row .. has inconsistent width *)
| MissingPlayerStart.  (* Layout must contain a player start position 'P' *)

Record t : Type := mk {
  layout : list string;
  width : Z;
  height : Z;
  pellet_template : PelletSet.t;
  pellets : PelletSet.t;
  player_start : TilePos;
  ghost_starts : list TilePos
}.

Definition set_pellets (ps : PelletSet.t) (m : t) : t :=
  mk (layout m) (width m) (height m) (pellet_template m) ps
     (player_start m) (ghost_starts m).

Fixpoint _validate_rows (w : Z) (rows : list (Z * string)) : result ValueError unit :=
  match rows with
  | [] => Ok tt
  | (row, line) :: rest =>
      if negb (len line =? w) then Raise (InconsistentWidth row (len line) w)
      else _validate_rows w rest
  end.

Definition _validate_layout (layout : list string) (w : Z) : result ValueError unit :=
  _validate_rows w (enumerate layout).

Fixpoint _find_in_line (char : ascii) (row : Z) (cells : list (Z * ascii)) : option TilePos :=
  match cells with
  | [] => None
  | (col, cell) :: rest =>
      if Ascii.eqb cell char then Some (col, row) else _find_in_line char row rest
  end.

Fixpoint _find_in_rows (char : ascii) (rows : list (Z * string)) : option TilePos :=
  match rows with
  | [] => None
  | (row, line) :: rest =>
      match _find_in_line char row (enumerate (list_ascii_of_string line)) with
      | Some pos => Some pos
      | None => _find_in_rows char rest
      end
  end.

Definition _find_character (layout : list string) (char : ascii) : option TilePos :=
  _find_in_rows char (enumerate layout).

Definition _find_characters (layout : list string) (char : ascii) : list TilePos :=
  flat_map (fun rl : Z * string =>
    flat_map (fun cc : Z * ascii =>
      if Ascii.eqb (snd cc) char then [(fst cc, fst rl)] else [])
      (enumerate (list_ascii_of_string (snd rl))))
    (enumerate layout).

Definition __init__ (layout : list string) : result ValueError t :=
  match layout with
  | [] => Raise EmptyLayout
  | first :: _ =>
      let width := len first in
      let height := Z.of_nat (length layout) in
      match _validate_layout layout width with
      | Raise e => Raise e
      | Ok _ =>
          let pellet_template := PelletSet.from_layout layout in
          let pellets := PelletSet.copy pellet_template in
          match _find_character layout "P" with
          | None => Raise MissingPlayerStart
          | Some player_start =>
              let ghost_starts :=
                match _find_characters layout "G" with
                | [] => [player_start]
                | found => found
                end in
              Ok (mk layout width height pellet_template pellets
                     player_start ghost_starts)
          end
      end
  end.

Definition reset_pellets (m : t) : t :=
  set_pellets (PelletSet.copy (pellet_template m)) m.

(** The two conversions, idealised ([Rounded] has them with rounding). *)
Definition tile_to_pixel_center (tile_pos : TilePos) : Z * Z :=
  let '(x, y) := tile_pos in
  (py_int (inject_Z (x * constants.TILE_SIZE) + constants.HALF_TILE),
   py_int (inject_Z (y * constants.TILE_SIZE) + constants.HALF_TILE)).

Definition pixel_to_tile (position : Vector.t) : TilePos :=
  (py_floordiv (Vector.x position) constants.TILE_SIZE,
   py_floordiv (Vector.y position) constants.TILE_SIZE).

(** [self.layout[y][x]] for indices already checked to be in range.  The
    lookup cannot fail on a constructed maze ([cell_in_bounds] below). *)
Definition cell (m : t) (x y : Z) : option ascii :=
  match layout m !! Z.to_nat y with
  | Some line => String.get (Z.to_nat x) line
  | None => None
  end.

Definition is_wall (m : t) (tile_pos : TilePos) : bool :=
  let '(x, y) := tile_pos in
  if (x <? 0) || (y <? 0) || (x >=? width m) || (y >=? height m) then true
  else match cell m x y with
       | Some c => Ascii.eqb c "#"
       | None => false
       end.

Definition is_valid_tile (m : t) (tile_pos : TilePos) : bool :=
  let '(x, y) := tile_pos in
  (0 <=? x) && (x <? width m) && (0 <=? y) && (y <? height m).

(** Returns the maze after the call and the score gained. *)
Definition collect_pellet (tile_pos : TilePos) (m : t) : t * Z :=
  if decide (tile_pos ∈ PelletSet.pellets (pellets m)) then
    (set_pellets (PelletSet.mk (PelletSet.pellets (pellets m) ∖ {[ tile_pos ]})
                               (PelletSet.power_pellets (pellets m))) m, 10)
  else if decide (tile_pos ∈ PelletSet.power_pellets (pellets m)) then
    (set_pellets (PelletSet.mk (PelletSet.pellets (pellets m))
                               (PelletSet.power_pellets (pellets m) ∖ {[ tile_pos ]})) m, 50)
  else (m, 0).

Definition remaining_pellets (m : t) : Z :=
  Z.of_nat (size (PelletSet.pellets (pellets m)))
  + Z.of_nat (size (PelletSet.power_pellets (pellets m))).

Definition wrap_position (position : Vector.t) : Vector.t :=
  let x := Vector.x position in
  let x :=
    if Qltb x 0 then (inject_Z constants.SCREEN_WIDTH - constants.HALF_TILE)%Q
    else if Qle_bool (inject_Z constants.SCREEN_WIDTH) x then constants.HALF_TILE
    else x in
  Vector.mk x (Vector.y position).

Definition UNIT_DIRECTIONS : list Vector.t :=
  [Vector.mk 1 0; Vector.mk (-1) 0; Vector.mk 0 1; Vector.mk 0 (-1)].

Definition available_directions (m : t) (tile_pos : TilePos) : list Vector.t :=
  List.filter (fun direction =>
    let next_tile := (fst tile_pos + py_int (Vector.x direction),
                      snd tile_pos + py_int (Vector.y direction)) in
    negb (is_wall m next_tile))
    UNIT_DIRECTIONS.

Definition collides_with_wall (m : t) (position : Vector.t) (radius : Q) : bool :=
  let offsets := [Vector.mk (- radius) (- radius); Vector.mk radius (- radius);
                  Vector.mk (- radius) radius; Vector.mk radius radius] in
  existsb (fun offset => is_wall m (pixel_to_tile (Vector.__add__ position offset))) offsets.

Definition ghost_spawn_points (m : t) : list TilePos := ghost_starts m.

End Maze.

(** ** The [random] module: an arbitrary stream of raw draws with a cursor *)
Module random.

Record t : Type := mk { draws : nat -> nat; cursor : nat }.

(** [random.choice(seq)] on a non-empty sequence [first :: rest]: the element
    at an index below [len(seq)], and the generator after one draw. *)
Definition choice {A : Type} (first : A) (rest : list A) (r : t) : A * t :=
  (nth (draws r (cursor r) mod length (first :: rest))%nat (first :: rest) first,
   mk (draws r) (S (cursor r))).

End random.

(** ** game/actors.py *)
Module Actor.

Record t : Type := mk {
  position : Vector.t;
  color : constants.Color;
  speed : Q;
  radius : Z;
  direction : Vector.t;
  next_direction : option Vector.t
}.

Definition __init__ (position : Vector.t) (color : constants.Color) (speed : Q) : t :=
  mk position color speed 8 (Vector.mk 0 0) None.

Definition set_position (p : Vector.t) (a : t) : t :=
  mk p (color a) (speed a) (radius a) (direction a) (next_direction a).
Definition set_direction (d : Vector.t) (a : t) : t :=
  mk (position a) (color a) (speed a) (radius a) d (next_direction a).
Definition set_next_direction (n : option Vector.t) (a : t) : t :=
  mk (position a) (color a) (speed a) (radius a) (direction a) n.

Definition _aligned_with_grid (a : t) : bool :=
  let grid_x := py_mod (Vector.x (position a) - constants.HALF_TILE)
                       (inject_Z constants.TILE_SIZE) in
  let grid_y := py_mod (Vector.y (position a) - constants.HALF_TILE)
                       (inject_Z constants.TILE_SIZE) in
  Qltb grid_x 1 && Qltb grid_y 1.

(** The body of [_try_change_direction]; [nd] is the buffered direction that
    the leading [assert self.next_direction is not None] unwraps. *)
Definition _try_change_direction (maze : Maze.t) (a : t) (nd : Vector.t) : t :=
  if Qeq_bool (Vector.x nd) (Vector.x (direction a))
     && Qeq_bool (Vector.y nd) (Vector.y (direction a))
  then set_next_direction None a
  else if negb (_aligned_with_grid a) then a
  else
    let tile_pos := Maze.pixel_to_tile (position a) in
    let target_tile := (fst tile_pos + py_int (Vector.x nd),
                        snd tile_pos + py_int (Vector.y nd)) in
    if Maze.is_wall maze target_tile then a
    else set_next_direction None (set_direction nd a).

Definition _stop_at_wall (maze : Maze.t) (a : t) : t :=
  let tile_pos := Maze.pixel_to_tile (position a) in
  let center := Maze.tile_to_pixel_center tile_pos in
  set_direction (Vector.mk 0 0) (set_position (Vector.of_ints center) a).

Definition update (dt : Q) (maze : Maze.t) (a : t) : t :=
  let a := match next_direction a with
           | Some nd => _try_change_direction maze a nd
           | None => a
           end in
  let displacement := Vector.__mul__ (direction a) (speed a * dt) in
  let new_position := Vector.__add__ (position a) displacement in
  let a := if negb (Maze.collides_with_wall maze new_position (inject_Z (radius a)))
           then set_position new_position a
           else _stop_at_wall maze a in
  set_position (Maze.wrap_position (position a)) a.

End Actor.

Module Player.

Record t : Type := mk {
  actor : Actor.t;
  _orientation : Vector.t;
  _mouth_time : Q
}.

Definition __init__ (position : Vector.t) : t :=
  let a := Actor.set_direction (Vector.mk (-1) 0)
             (Actor.__init__ position constants.YELLOW 120) in
  mk a (Actor.direction a) 0.

Definition direction_map : list (string * Vector.t) :=
  [("Left"%string, Vector.mk (-1) 0); ("Right"%string, Vector.mk 1 0);
   ("Up"%string, Vector.mk 0 (-1)); ("Down"%string, Vector.mk 0 1)].

Fixpoint first_pressed (pressed : list string) (entries : list (string * Vector.t))
  : option Vector.t :=
  match entries with
  | [] => None
  | (key, direction) :: rest =>
      if bool_decide (key ∈ pressed) then Some direction
      else first_pressed pressed rest
  end.

Definition handle_input (pressed : list string) (p : t) : t :=
  match first_pressed pressed direction_map with
  | Some direction =>
      mk (Actor.set_next_direction (Some direction) (actor p))
         (_orientation p) (_mouth_time p)
  | None => p
  end.

Definition update (dt : Q) (maze : Maze.t) (p : t) : t :=
  let a := Actor.update dt maze (actor p) in
  let orientation := if negb (Vector.is_zero (Actor.direction a))
                     then Actor.direction a else _orientation p in
  let cycle_duration := (4 # 10)%Q in
  mk a orientation (py_mod (_mouth_time p + dt) cycle_duration).

End Player.

Module Ghost.

(** [Ghost] adds no field to [Actor]. *)
Definition t : Type := Actor.t.

Definition __init__ (position : Vector.t) (color : constants.Color) (speed : Q)
    (r : random.t) : t * random.t :=
  let '(d, r') := random.choice (Vector.mk 1 0)
                    [Vector.mk (-1) 0; Vector.mk 0 1; Vector.mk 0 (-1)] r in
  (Actor.set_direction d (Actor.__init__ position color speed), r').

Definition opposite_of (g : t) : Vector.t :=
  Vector.mk (- Vector.x (Actor.direction g)) (- Vector.y (Actor.direction g)).

(** The list comprehension of [_choose_direction]. *)
Definition non_reversing (opposite : Vector.t) (available : list Vector.t) : list Vector.t :=
  List.filter (fun direction => negb (Vector.same direction opposite)) available.

Definition _choose_direction (maze : Maze.t) (tile_pos : TilePos) (g : t)
    (r : random.t) : Vector.t * random.t :=
  let available := Maze.available_directions maze tile_pos in
  let opposite := opposite_of g in
  let candidates := non_reversing opposite available in
  let candidates := match candidates with [] => available | _ => candidates end in
  match candidates with
  | [] => (opposite, r)
  | first :: rest => random.choice first rest r
  end.

Definition update (dt : Q) (maze : Maze.t) (g : t) (r : random.t) : t * random.t :=
  let tile_pos := Maze.pixel_to_tile (Actor.position g) in
  let '(g, r) :=
    if Actor._aligned_with_grid g then
      let '(d, r') := _choose_direction maze tile_pos g r in
      (Actor.set_direction d g, r')
    else (g, r) in
  (Actor.update dt maze g, r).

End Ghost.

(** ** game/game.py *)
Module Game.

Inductive GameState : Type := MENU | PLAYING | GAME_OVER.

Record t : Type := mk {
  maze : Maze.t;
  level : Z;
  score : Z;
  lives : Z;
  state : GameState;
  running : bool;
  pressed_keys : gset string;
  player : option Player.t;
  ghosts : list Ghost.t;
  walls_drawn : bool;
  rng : random.t
}.

Definition set_maze (m : Maze.t) (g : t) : t :=
  mk m (level g) (score g) (lives g) (state g) (running g) (pressed_keys g)
     (player g) (ghosts g) (walls_drawn g) (rng g).
Definition set_level (n : Z) (g : t) : t :=
  mk (maze g) n (score g) (lives g) (state g) (running g) (pressed_keys g)
     (player g) (ghosts g) (walls_drawn g) (rng g).
Definition set_score (n : Z) (g : t) : t :=
  mk (maze g) (level g) n (lives g) (state g) (running g) (pressed_keys g)
     (player g) (ghosts g) (walls_drawn g) (rng g).
Definition set_lives (n : Z) (g : t) : t :=
  mk (maze g) (level g) (score g) n (state g) (running g) (pressed_keys g)
     (player g) (ghosts g) (walls_drawn g) (rng g).
Definition set_state (s : GameState) (g : t) : t :=
  mk (maze g) (level g) (score g) (lives g) s (running g) (pressed_keys g)
     (player g) (ghosts g) (walls_drawn g) (rng g).
Definition set_running (b : bool) (g : t) : t :=
  mk (maze g) (level g) (score g) (lives g) (state g) b (pressed_keys g)
     (player g) (ghosts g) (walls_drawn g) (rng g).
Definition set_pressed_keys (k : gset string) (g : t) : t :=
  mk (maze g) (level g) (score g) (lives g) (state g) (running g) k
     (player g) (ghosts g) (walls_drawn g) (rng g).
Definition set_player (p : option Player.t) (g : t) : t :=
  mk (maze g) (level g) (score g) (lives g) (state g) (running g) (pressed_keys g)
     p (ghosts g) (walls_drawn g) (rng g).
Definition set_ghosts (gs : list Ghost.t) (g : t) : t :=
  mk (maze g) (level g) (score g) (lives g) (state g) (running g) (pressed_keys g)
     (player g) gs (walls_drawn g) (rng g).
Definition set_walls_drawn (b : bool) (g : t) : t :=
  mk (maze g) (level g) (score g) (lives g) (state g) (running g) (pressed_keys g)
     (player g) (ghosts g) b (rng g).
Definition set_rng (r : random.t) (g : t) : t :=
  mk (maze g) (level g) (score g) (lives g) (state g) (running g) (pressed_keys g)
     (player g) (ghosts g) (walls_drawn g) r.

(** The pixel centre of a tile as a float vector, as every caller builds it. *)
Definition center_of (tile : TilePos) : Vector.t :=
  Vector.of_ints (Maze.tile_to_pixel_center tile).

(** The ghost loop of [_create_entities]; [i] counts the colours taken from
    [itertools.cycle(GHOST_COLORS)]. *)
Fixpoint spawn_ghosts (starts : list TilePos) (i : nat) (base_speed : Z)
    (r : random.t) : list Ghost.t * random.t :=
  match starts with
  | [] => ([], r)
  | start :: rest =>
      let color := nth (i mod length constants.GHOST_COLORS)%nat
                       constants.GHOST_COLORS constants.RED in
      let '(ghost, r1) := Ghost.__init__ (center_of start) color (inject_Z base_speed) r in
      let '(more, r2) := spawn_ghosts rest (S i) base_speed r1 in
      (ghost :: more, r2)
  end.

Definition _create_entities (g : t) : t :=
  let p := Player.__init__ (center_of (Maze.player_start (maze g))) in
  let p := Player.mk (Actor.set_direction (Vector.mk (-1) 0) (Player.actor p))
                     (Player._orientation p) (Player._mouth_time p) in
  let base_speed := 90 + (level g - 1) * 10 in
  let '(gs, r) := spawn_ghosts (Maze.ghost_spawn_points (maze g)) 0 base_speed (rng g) in
  set_rng r (set_ghosts gs (set_player (Some p) g)).

(** [Game()], without the window; [r] is the state of [random] at start-up. *)
Definition __init__ (r : random.t) : result Maze.ValueError t :=
  match Maze.__init__ constants.MAZE_LAYOUT with
  | Raise e => Raise e
  | Ok m => Ok (_create_entities (mk m 1 0 3 MENU true ∅ None [] false r))
  end.

Definition _on_close (g : t) : t := set_running false g.

Definition reset_ghost (ghost : Ghost.t) (start : TilePos) : Ghost.t :=
  Actor.set_next_direction None
    (Actor.set_direction (Vector.mk 1 0)
       (Actor.set_position (center_of start) ghost)).

(** The loop over [zip(self.ghosts, spawn_points)]: ghosts beyond the
    shorter list are left as they are. *)
Fixpoint reset_ghosts (ghosts : list Ghost.t) (starts : list TilePos) : list Ghost.t :=
  match ghosts, starts with
  | ghost :: gs, start :: ss => reset_ghost ghost start :: reset_ghosts gs ss
  | gs, _ => gs
  end.

Definition reset_positions (g : t) : t :=
  match player g with
  | None => g
  | Some p =>
      let a := Actor.set_next_direction None
                 (Actor.set_direction (Vector.mk (-1) 0)
                    (Actor.set_position (center_of (Maze.player_start (maze g)))
                       (Player.actor p))) in
      let p := Player.mk a (Player._orientation p) (Player._mouth_time p) in
      set_ghosts (reset_ghosts (ghosts g) (Maze.ghost_spawn_points (maze g)))
                 (set_player (Some p) g)
  end.

Definition start_new_game (g : t) : t :=
  let g := set_lives 3 (set_score 0 (set_level 1 g)) in
  let g := set_maze (Maze.reset_pellets (maze g)) g in
  let g := _create_entities g in
  set_walls_drawn false (set_pressed_keys ∅ (set_state PLAYING g)).

(** [distance_to(...) < radius_a + radius_b - 2], decided on the squares:
    [_collides_hypot] below shows it is the comparison of the source. *)
Definition _collides (actor_a : Player.t) (actor_b : Ghost.t) : bool :=
  let limit := Actor.radius (Player.actor actor_a) + Actor.radius actor_b - 2 in
  (0 <? limit)
  && Qltb (Vector.distance_sq (Actor.position (Player.actor actor_a))
                              (Actor.position actor_b))
          (inject_Z (limit * limit)).

(** [for ghost in self.ghosts: ghost.update(dt, self.maze)]. *)
Fixpoint update_ghosts (dt : Q) (m : Maze.t) (gs : list Ghost.t) (r : random.t)
  : list Ghost.t * random.t :=
  match gs with
  | [] => ([], r)
  | ghost :: rest =>
      let '(ghost', r1) := Ghost.update dt m ghost r in
      let '(rest', r2) := update_ghosts dt m rest r1 in
      (ghost' :: rest', r2)
  end.

(** [handle_input] then [update] on the player. *)
Definition move_player (dt : Q) (p : Player.t) (g : t) : Player.t :=
  Player.update dt (maze g) (Player.handle_input (elements (pressed_keys g)) p).

(** The first half of [update]: the player and the ghosts move and the pellet
    under the player is collected. *)
Definition advance (dt : Q) (p : Player.t) (g : t) : t :=
  let p := move_player dt p g in
  let '(gs, r) := update_ghosts dt (maze g) (ghosts g) (rng g) in
  let tile_pos := Maze.pixel_to_tile (Actor.position (Player.actor p)) in
  let '(m, gained) := Maze.collect_pellet tile_pos (maze g) in
  set_score (score g + gained)
    (set_maze m (set_rng r (set_ghosts gs (set_player (Some p) g)))).

(** The closing loop of [update]: the first colliding ghost costs a life and
    ends the loop ([break]). *)
Fixpoint check_ghosts (p : Player.t) (remaining : list Ghost.t) (g : t) : t :=
  match remaining with
  | [] => g
  | ghost :: rest =>
      if _collides p ghost then
        let g := set_lives (lives g - 1) g in
        if lives g <=? 0 then set_state GAME_OVER g
        else reset_positions g
      else check_ghosts p rest g
  end.

Definition update (dt : Q) (g : t) : t :=
  match player g with
  | None => g
  | Some p0 =>
      let p := move_player dt p0 g in
      let g := advance dt p0 g in
      if Maze.remaining_pellets (maze g) =? 0 then
        let g := set_level (level g + 1) g in
        let g := set_maze (Maze.reset_pellets (maze g)) g in
        set_walls_drawn false (_create_entities g)
      else check_ghosts p (ghosts g) g
  end.

(** [_frame] with the elapsed time [dt] read from the clock; drawing only
    sets [walls_drawn]. *)
Definition _frame (dt : Q) (g : t) : t :=
  if negb (running g) then g
  else
    let g := match state g with PLAYING => update dt g | _ => g end in
    set_walls_drawn true g.

Definition _on_key_press (key : string) (g : t) : t :=
  if String.eqb key "Escape" then _on_close g
  else match state g with
       | MENU =>
           if String.eqb key "Return" || String.eqb key "space"
           then start_new_game g
           else set_pressed_keys ({[ key ]} ∪ pressed_keys g) g
       | GAME_OVER => start_new_game g
       | PLAYING => set_pressed_keys ({[ key ]} ∪ pressed_keys g) g
       end.

Definition _on_key_release (key : string) (g : t) : t :=
  set_pressed_keys (pressed_keys g ∖ {[ key ]}) g.

End Game.

(** ** Drawing: the canvas calls of game/maze.py and game/actors.py

    The Tk canvas is its display list: an item per [create_*] call, oldest
    first.  Item ids, which the code never keeps, are left out. *)
Module Canvas.

Inductive arc_style : Type := PIESLICE | CHORD.

Inductive item : Type :=
| Rectangle (x0 y0 x1 y1 : Q) (fill outline tag : string)
| Oval (x0 y0 x1 y1 : Q) (fill outline tag : string)
| Arc (x0 y0 x1 y1 start extent : Q) (fill outline : string) (style : arc_style)
      (tag : string).

Definition t : Type := list item.

Definition create (i : item) (canvas : t) : t := canvas ++ [i].

(** The bounding box given to the [create_*] call. *)
Definition box (i : item) : Q * Q * Q * Q :=
  match i with
  | Rectangle x0 y0 x1 y1 _ _ _ => (x0, y0, x1, y1)
  | Oval x0 y0 x1 y1 _ _ _ => (x0, y0, x1, y1)
  | Arc x0 y0 x1 y1 _ _ _ _ _ _ => (x0, y0, x1, y1)
  end.

Definition tag_of (i : item) : string :=
  match i with
  | Rectangle _ _ _ _ _ _ tag => tag
  | Oval _ _ _ _ _ _ tag => tag
  | Arc _ _ _ _ _ _ _ _ _ tag => tag
  end.

End Canvas.

Module Draw.

Definition WHITE : constants.Color := "#FFFFFF"%string.
Definition NAVY : constants.Color := "#000040"%string.
Definition BLUE_GRAY : constants.Color := "#1F1F3A"%string.
Definition PELLET_YELLOW : constants.Color := "#FFE07D"%string.

(** The rectangle of [Maze.draw_walls] for the cell (col, row). *)
Definition wall_rectangle (col row : Z) : Canvas.item :=
  let x0 := col * constants.TILE_SIZE in
  let y0 := row * constants.TILE_SIZE in
  let x1 := x0 + constants.TILE_SIZE in
  let y1 := y0 + constants.TILE_SIZE in
  Canvas.Rectangle (inject_Z x0) (inject_Z y0) (inject_Z x1) (inject_Z y1)
                   BLUE_GRAY NAVY "wall".

(** [Maze.draw_walls]: the items created by the two nested loops. *)
Definition wall_items (m : Maze.t) : list Canvas.item :=
  flat_map (fun rl : Z * string =>
    flat_map (fun cc : Z * ascii =>
      if Ascii.eqb (snd cc) "#" then [wall_rectangle (fst cc) (fst rl)] else [])
      (enumerate (list_ascii_of_string (snd rl))))
    (enumerate (Maze.layout m)).

Definition draw_walls (m : Maze.t) (canvas : Canvas.t) : Canvas.t :=
  canvas ++ wall_items m.

(** [Maze._draw_pellet]. *)
Definition _draw_pellet (canvas : Canvas.t) (tile_pos : TilePos) (radius : Z) : Canvas.t :=
  let center := Maze.tile_to_pixel_center tile_pos in
  let '(x, y) := center in
  Canvas.create
    (Canvas.Oval (inject_Z (x - radius)) (inject_Z (y - radius))
                 (inject_Z (x + radius)) (inject_Z (y + radius))
                 PELLET_YELLOW "" "pellet")
    canvas.

(** [Maze.draw_pellets]; a Python set is iterated in an order of its own,
    here the order of [elements]. *)
Definition draw_pellets (m : Maze.t) (canvas : Canvas.t) : Canvas.t :=
  let canvas := fold_left (fun c pellet => _draw_pellet c pellet 3)
                          (elements (PelletSet.pellets (Maze.pellets m))) canvas in
  fold_left (fun c pellet => _draw_pellet c pellet 6)
            (elements (PelletSet.power_pellets (Maze.pellets m))) canvas.

(** [Actor.draw]. *)
Definition Actor_draw (a : Actor.t) (canvas : Canvas.t) (tag : string) : Canvas.t :=
  let x := Vector.x (Actor.position a) in
  let y := Vector.y (Actor.position a) in
  let radius := inject_Z (Actor.radius a) in
  Canvas.create
    (Canvas.Oval (x - radius) (y - radius) (x + radius) (y + radius)
                 (Actor.color a) "" tag)
    canvas.

(** The loop over the four feet of [Ghost.draw], for [i] in [indices]. *)
Definition draw_feet (color tag : string) (left y bottom foot_width : Q)
    (indices : list Z) (canvas : Canvas.t) : Canvas.t :=
  fold_left (fun c i =>
    let f_left := (left + inject_Z i * foot_width)%Q in
    Canvas.create
      (Canvas.Arc f_left y (f_left + foot_width) bottom 180 180 color ""
                  Canvas.CHORD tag) c)
    indices canvas.

(** The loop over the two eyes of [Ghost.draw], for [sign] in [signs]. *)
Definition draw_eyes (tag : string) (x y eye_radius eye_offset_x eye_offset_y : Q)
    (pupil_offset : Vector.t) (signs : list Z) (canvas : Canvas.t) : Canvas.t :=
  fold_left (fun c sign =>
    let cx := (x + eye_offset_x * inject_Z sign)%Q in
    let cy := (y - eye_offset_y)%Q in
    let c := Canvas.create
               (Canvas.Oval (cx - eye_radius) (cy - eye_radius)
                            (cx + eye_radius) (cy + eye_radius) WHITE "" tag) c in
    Canvas.create
      (Canvas.Oval (cx - eye_radius / 2 + Vector.x pupil_offset)
                   (cy - eye_radius / 2 + Vector.y pupil_offset)
                   (cx + eye_radius / 2 + Vector.x pupil_offset)
                   (cy + eye_radius / 2 + Vector.y pupil_offset)
                   "#0000AA" "" tag) c)
    signs canvas.

(** [Ghost.draw]. *)
Definition Ghost_draw (g : Ghost.t) (canvas : Canvas.t) (tag : string) : Canvas.t :=
  let x := Vector.x (Actor.position g) in
  let y := Vector.y (Actor.position g) in
  let r := inject_Z (Actor.radius g) in
  let left := (x - r)%Q in
  let right := (x + r)%Q in
  let top := (y - r)%Q in
  let bottom := (y + r)%Q in
  let canvas := Canvas.create
                  (Canvas.Arc left top right bottom 0 180 (Actor.color g) ""
                              Canvas.CHORD tag) canvas in
  let canvas := Canvas.create
                  (Canvas.Rectangle left y right bottom (Actor.color g) "" tag) canvas in
  let foot_width := ((right - left) / 4)%Q in
  let canvas := draw_feet (Actor.color g) tag left y bottom foot_width [0; 1; 2; 3]
                          canvas in
  let eye_radius := (r * (3 # 10))%Q in
  let eye_offset_x := (r * (4 # 10))%Q in
  let eye_offset_y := (r * (1 # 10))%Q in
  let pupil_offset :=
    Vector.mk (Vector.x (Actor.direction g) * eye_radius * (4 # 10))
              (Vector.y (Actor.direction g) * eye_radius * (4 # 10)) in
  draw_eyes tag x y eye_radius eye_offset_x eye_offset_y pupil_offset [-1; 1] canvas.

(** The mouth of [Player.draw]: [mouth_phase], [mouth_angle] and [extent]
    (the orientation angle, an arctangent, is not part of the model). *)
Definition mouth_phase (p : Player.t) : Q :=
  Qabs (Player._mouth_time p / (2 # 10) - 1).
Definition mouth_angle (p : Player.t) : Q := (30 + mouth_phase p * 20)%Q.
Definition extent (p : Player.t) : Q := (360 - 2 * mouth_angle p)%Q.

End Draw.

(** ** Python floats with binary64 rounding

    A finite float is the rational it denotes.  [round] is rounding to
    nearest, ties to even, to a 53-bit significand over the binary64 exponent
    range, subnormals included; a result of magnitude 2^1024 or more is an
    overflow.  The two zeros are not told apart: they compare equal and
    convert to the same [int]. *)
Module Float.

Inductive OverflowError : Type := overflow_error.

(** 2^k for an integer k of either sign. *)
Definition pow2 (k : Z) : Q :=
  if 0 <=? k then inject_Z (2 ^ k) else 1 # Z.to_pos (2 ^ (- k)).

(** floor(log2 |q|) for q <> 0. *)
Definition exponent (q : Q) : Z :=
  let e := Z.log2 (Z.abs (Qnum q)) - Z.log2 (Zpos (Qden q)) in
  if Qle_bool (pow2 e) (Qabs q) then e else e - 1.

(** The nearest integer, the even one at a tie. *)
Definition nearest_even (q : Q) : Z :=
  let f := Qfloor q in
  match (q - inject_Z f ?= 1 # 2)%Q with
  | Lt => f
  | Gt => f + 1
  | Eq => if Z.even f then f else f + 1
  end.

(** The float nearest to [q]; the spacing of floats around [q] is 2^k. *)
Definition round (q : Q) : Q :=
  let q := Qred q in
  if Qnum q =? 0 then 0%Q
  else
    let k := Z.max (exponent q - 52) (-1074) in
    Qred (inject_Z (nearest_even (q * pow2 (- k))) * pow2 k).

Definition is_finite (q : Q) : bool := Qltb (Qabs q) (pow2 1024).

(** [float(n)], also the conversion of an [int] operand of a float
    operation: it raises when [n] is too large. *)
Definition of_int (n : Z) : result OverflowError Q :=
  let f := round (inject_Z n) in
  if is_finite f then Ok f else Raise overflow_error.

(** [int(f)]: truncation towards zero; it raises on an infinity. *)
Definition to_int (f : Q) : result OverflowError Z :=
  if is_finite f then Ok (py_int f) else Raise overflow_error.

(** [a + b], [a - b] and [a / b] on floats. *)
Definition add (a b : Q) : Q := round (a + b).
Definition sub (a b : Q) : Q := round (a - b).
Definition div (a b : Q) : Q := round (a / b).

Definition nonzero (q : Q) : bool := negb (Qeq_bool q 0).

(** C's [fmod] for a divisor that is not zero: the remainder of the quotient
    truncated towards zero; it is exact. *)
Definition fmod (vx wx : Q) : Q := Qred (vx - wx * inject_Z (py_int (vx / wx))).

(** [vx // wx] for [wx] not zero, as the interpreter computes it: from
    [fmod], the quotient of the difference, a correction when the remainder
    and the divisor differ in sign, and a snap to the nearest integral
    value. *)
Definition floordiv (vx wx : Q) : Q :=
  let md := fmod vx wx in
  let quotient := div (sub vx md) wx in
  let quotient := if nonzero md && negb (Bool.eqb (Qltb wx 0) (Qltb md 0))
                  then sub quotient 1 else quotient in
  if nonzero quotient then
    let floor_quotient := inject_Z (Qfloor quotient) in
    if Qltb (1 # 2) (sub quotient floor_quotient) then add floor_quotient 1
    else floor_quotient
  else 0%Q.

(** [vx % wx] for [wx] not zero, as the interpreter computes it: [fmod],
    plus the divisor (a rounded sum) when the remainder and the divisor
    differ in sign. *)
Definition rem (vx wx : Q) : Q :=
  let md := fmod vx wx in
  if nonzero md && negb (Bool.eqb (Qltb wx 0) (Qltb md 0)) then add md wx else md.

End Float.

(** ** The conversions and tests of the game with rounding written out

    The functions of [game/maze.py] and [game/actors.py] whose result depends
    on the rounding of floats for large or negative arguments, embedded a
    second time with [Float]'s operations.  An [int] constant used as a
    float operand (TILE_SIZE) converts exactly. *)
Module Rounded.

(** One component of [tile_to_pixel_center]:
    [int(x * TILE_SIZE + TILE_SIZE / 2)], an [int] product plus a float. *)
Definition center_axis (x : Z) : result Float.OverflowError Z :=
  match Float.of_int (x * constants.TILE_SIZE) with
  | Raise e => Raise e
  | Ok product => Float.to_int (Float.add product (Float.round constants.HALF_TILE))
  end.

Definition tile_to_pixel_center (tile_pos : TilePos)
    : result Float.OverflowError (Z * Z) :=
  let '(x, y) := tile_pos in
  match center_axis x with
  | Raise e => Raise e
  | Ok cx => match center_axis y with
             | Raise e => Raise e
             | Ok cy => Ok (cx, cy)
             end
  end.

(** [Vector(float(c[0]), float(c[1]))] for an integer pair. *)
Definition vector_of_ints (c : Z * Z) : result Float.OverflowError Vector.t :=
  match Float.of_int (fst c) with
  | Raise e => Raise e
  | Ok x => match Float.of_int (snd c) with
            | Raise e => Raise e
            | Ok y => Ok (Vector.mk x y)
            end
  end.

Definition pixel_to_tile (position : Vector.t) : TilePos :=
  (py_int (Float.floordiv (Vector.x position) (inject_Z constants.TILE_SIZE)),
   py_int (Float.floordiv (Vector.y position) (inject_Z constants.TILE_SIZE))).

Definition _aligned_with_grid (a : Actor.t) : bool :=
  let half := Float.round constants.HALF_TILE in
  let grid_x := Float.rem (Float.sub (Vector.x (Actor.position a)) half)
                          (inject_Z constants.TILE_SIZE) in
  let grid_y := Float.rem (Float.sub (Vector.y (Actor.position a)) half)
                          (inject_Z constants.TILE_SIZE) in
  Qltb grid_x 1 && Qltb grid_y 1.

Definition _stop_at_wall (maze : Maze.t) (a : Actor.t)
    : result Float.OverflowError Actor.t :=
  let tile_pos := pixel_to_tile (Actor.position a) in
  match tile_to_pixel_center tile_pos with
  | Raise e => Raise e
  | Ok center =>
      match vector_of_ints center with
      | Raise e => Raise e
      | Ok position =>
          Ok (Actor.set_direction (Vector.mk 0 0) (Actor.set_position position a))
      end
  end.

(** The animation phase of [Player.update]:
    [(self._mouth_time + dt) % cycle_duration]. *)
Definition mouth_time (_mouth_time dt : Q) : Q :=
  let cycle_duration := Float.round (4 # 10) in
  Float.rem (Float.add _mouth_time dt) cycle_duration.

End Rounded.

(** * States, runs and sample inputs used in the statements *)

(** ** Mazes *)

(** The three reasons for which the constructor rejects a layout. *)
Definition layout_rejected (layout : list string) : Prop :=
  layout = []
  \/ (exists line, In line layout /\ len line <> len (hd ""%string layout))
  \/ (forall line, In line layout -> ~ In "P"%char (list_ascii_of_string line)).

(** The character of the layout at a tile, when the tile is listed. *)
Definition marks (rows : list (Z * string)) (t : TilePos) (char : ascii) : Prop :=
  exists line, In (snd t, line) rows
               /\ In (fst t, char) (enumerate (list_ascii_of_string line)).

(** The states a maze goes through: built by the constructor, then changed
    only by [collect_pellet] and [reset_pellets]. *)
Inductive maze_reachable : Maze.t -> Prop :=
| reach_init (layout : list string) (m : Maze.t) :
    Maze.__init__ layout = Ok m -> maze_reachable m
| reach_collect (tile_pos : TilePos) (m : Maze.t) :
    maze_reachable m -> maze_reachable (fst (Maze.collect_pellet tile_pos m))
| reach_reset (m : Maze.t) :
    maze_reachable m -> maze_reachable (Maze.reset_pellets m).

Definition pellets_within_template (m : Maze.t) : Prop :=
  PelletSet.pellets (Maze.pellets m) ⊆ PelletSet.pellets (Maze.pellet_template m)
  /\ PelletSet.power_pellets (Maze.pellets m)
     ⊆ PelletSet.power_pellets (Maze.pellet_template m).

Definition template_disjoint (m : Maze.t) : Prop :=
  PelletSet.pellets (Maze.pellet_template m)
  ## PelletSet.power_pellets (Maze.pellet_template m).

(** The maze built from a layout, for layouts the constructor accepts. *)
Definition maze_of (layout : list string) : Maze.t :=
  match Maze.__init__ layout with
  | Ok m => m
  | Raise _ => Maze.mk [] 0 0 (PelletSet.mk ∅ ∅) (PelletSet.mk ∅ ∅) (0, 0) []
  end.

(** The maze of the game, [Maze(constants.MAZE_LAYOUT)]. *)
Definition game_maze : Maze.t := maze_of constants.MAZE_LAYOUT.

(** The small maze of the pellet scenario: one player start, one pellet. *)
Definition tiny_layout : list string := ["####"; "#P.#"; "####"]%string.

(** A layout wider than the screen: 30 columns, the only free tile in
    column 28. *)
Definition wide_layout : list string := [
  "##############################";
  "############################P#";
  "##############################"
]%string.

(** ** Actors *)

(** The tile column of an x coordinate (and the tile row of a y one). *)
Definition tile_x (q : Q) : Z := py_floordiv q constants.TILE_SIZE.

(** The position of an actor is clear of the walls. *)
Definition clear_of_walls (m : Maze.t) (a : Actor.t) : Prop :=
  Maze.collides_with_wall m (Actor.position a) (inject_Z (Actor.radius a)) = false.

(** One tick of an actor in the maze: a bare [Actor.update], a player tick
    (input, then update), or a ghost tick. *)
Inductive tick (m : Maze.t) : Actor.t -> Actor.t -> Prop :=
| tick_actor (dt : Q) (a : Actor.t) :
    tick m a (Actor.update dt m a)
| tick_player (dt : Q) (pressed : list string) (p : Player.t) :
    tick m (Player.actor p)
         (Player.actor (Player.update dt m (Player.handle_input pressed p)))
| tick_ghost (dt : Q) (g : Ghost.t) (r : random.t) :
    tick m g (fst (Ghost.update dt m g r)).

(** A coordinate is at a tile centre or less than one pixel past it. *)
Definition just_past_center (q : Q) : Prop :=
  exists k : Z, (inject_Z (20 * k + 10) <= q /\ q < inject_Z (20 * k + 11))%Q.

(** "Grid-aligned" in the words of the specification: on both axes the
    position is less than one pixel away from the nearest tile centre, on
    either side of it. *)
Definition distance_to_nearest_center (q : Q) : Q :=
  let past := py_mod (q - constants.HALF_TILE) (inject_Z constants.TILE_SIZE) in
  if Qle_bool past (inject_Z constants.TILE_SIZE - past) then past
  else (inject_Z constants.TILE_SIZE - past)%Q.

Definition within_one_pixel_of_center (p : Vector.t) : bool :=
  Qltb (distance_to_nearest_center (Vector.x p)) 1
  && Qltb (distance_to_nearest_center (Vector.y p)) 1.

(** A player at its start tile and a ghost 14 pixels to its right. *)
Definition player_at_start : Player.t := Player.__init__ (Vector.mk 270 450).
Definition ghost_14_right : Ghost.t :=
  Actor.__init__ (Vector.mk 284 450) constants.RED 90.

(** A ghost heading right at the centre of tile (2, 1) of the game maze, a
    corridor with walls above and below. *)
Definition corridor_ghost : Ghost.t :=
  Actor.set_direction (Vector.mk 1 0)
    (Actor.__init__ (Vector.mk 50 30) constants.RED 90).

(** A generator whose n-th draw is n. *)
Definition counting_rng : random.t := random.mk (fun n => n) 0.

(** An actor half a pixel before the centre of tile (1, 20) of the game maze,
    heading right, with a downward turn buffered; tile (1, 21) is free. *)
Definition actor_before_center : Actor.t :=
  Actor.mk (Vector.mk (59 # 2) 410) constants.YELLOW 120 8
           (Vector.mk 1 0) (Some (Vector.mk 0 1)).

(** The same actor exactly at the centre of the tile. *)
Definition actor_at_center : Actor.t :=
  Actor.set_position (Vector.mk 30 410) actor_before_center.

(** ** The controller *)

(** What every state of the controller satisfies: there is a player and one
    ghost per spawn point. *)
Definition game_inv (g : Game.t) : Prop :=
  (exists p, Game.player g = Some p)
  /\ length (Game.ghosts g) = length (Maze.ghost_starts (Game.maze g)).

(** The states the controller goes through: start-up, then frames and key
    events in any order. *)
Inductive game_reachable : Game.t -> Prop :=
| game_start (r : random.t) (g : Game.t) :
    Game.__init__ r = Ok g -> game_reachable g
| game_frame (dt : Q) (g : Game.t) :
    game_reachable g -> game_reachable (Game._frame dt g)
| game_key_press (key : string) (g : Game.t) :
    game_reachable g -> game_reachable (Game._on_key_press key g)
| game_key_release (key : string) (g : Game.t) :
    game_reachable g -> game_reachable (Game._on_key_release key g).

(** A generator whose draws are all 2. *)
Definition steady_rng : random.t := random.mk (fun _ => 2%nat) 0.

(** The controller after start-up. *)
Definition game_of (r : random.t) : Game.t :=
  match Game.__init__ r with
  | Ok g => g
  | Raise _ => Game.mk (maze_of []) 1 0 3 Game.MENU true ∅ None [] false r
  end.

(** A run that is about to end in a collision: every random draw is 2; the
    game is started with Return; a first frame of 1.5 s stops the player at
    its start tile and sends the second ghost back to its own.  In a next
    frame of 16/9 s that ghost moves 160 pixels down, onto the player. *)
Definition game_before_hit : Game.t :=
  Game._frame (3 # 2) (Game._on_key_press "Return" (game_of steady_rng)).

Definition player_before_hit : Player.t :=
  match Game.player game_before_hit with
  | Some p => p
  | None => player_at_start
  end.

(** ** Layout cells *)

(** The layout holds [char] at tile [t]. *)
Definition cell_is (m : Maze.t) (t : TilePos) (char : ascii) : Prop :=
  0 <= fst t /\ 0 <= snd t /\ Maze.cell m (fst t) (snd t) = Some char.

(** Row-major order on tiles: [a] comes no later than [b]. *)
Definition row_major_le (a b : TilePos) : Prop :=
  snd a < snd b \/ (snd a = snd b /\ fst a <= fst b).

(** The grid is rectangular: [height] rows, each of [width] characters. *)
Definition maze_shape (m : Maze.t) : Prop :=
  Maze.height m = Z.of_nat (length (Maze.layout m))
  /\ forall line, In line (Maze.layout m) -> len line = Maze.width m.

(** What the constructor establishes and the pellet operations keep: the
    template, the player start and the ghost starts are those read off the
    layout. *)
Definition maze_consistent (m : Maze.t) : Prop :=
  Maze.pellet_template m = PelletSet.from_layout (Maze.layout m)
  /\ Maze._find_character (Maze.layout m) "P" = Some (Maze.player_start m)
  /\ Maze.ghost_starts m
     = match Maze._find_characters (Maze.layout m) "G" with
       | [] => [Maze.player_start m]
       | found => found
       end.

(** ** Entities of the controller *)

(** A ghost as [_create_entities] makes it at a spawn point for a level. *)
Definition fresh_ghost (level : Z) (ghost : Ghost.t) (start : TilePos) : Prop :=
  Actor.position ghost = Game.center_of start
  /\ Actor.speed ghost = inject_Z (90 + (level - 1) * 10)
  /\ Actor.radius ghost = 8
  /\ In (Actor.direction ghost) Maze.UNIT_DIRECTIONS
  /\ Actor.next_direction ghost = None.

(** An actor of radius 8 that is clear of the walls of the maze. *)
Definition actor_ok (m : Maze.t) (a : Actor.t) : Prop :=
  Actor.radius a = 8 /\ clear_of_walls m a.

(** The maze of the controller went through the constructor and fits the
    screen, and the player and the ghosts are clear of its walls. *)
Definition game_safe (g : Game.t) : Prop :=
  maze_reachable (Game.maze g)
  /\ Maze.width (Game.maze g) <= constants.GRID_WIDTH
  /\ (forall p, Game.player g = Some p -> actor_ok (Game.maze g) (Player.actor p))
  /\ Forall (actor_ok (Game.maze g)) (Game.ghosts g).

(** The counters of the controller: between 1 and 3 lives while not over, no
    life left exactly when the game is over, level at least 1, and a score
    that is a non-negative multiple of 10. *)
Definition game_counters (g : Game.t) : Prop :=
  0 <= Game.lives g <= 3
  /\ (Game.state g = Game.GAME_OVER <-> Game.lives g = 0)
  /\ 1 <= Game.level g
  /\ 0 <= Game.score g
  /\ (10 | Game.score g).

(** The player of a controller state. *)
Definition player_of (g : Game.t) : Player.t :=
  match Game.player g with
  | Some p => p
  | None => player_at_start
  end.

(** A game just started in which the only pellet left is the one on the tile
    left of the player start. *)
Definition last_pellet_game : Game.t :=
  Game.set_maze (Maze.set_pellets (PelletSet.mk {[ (12, 22) ]} ∅) game_maze)
                (Game._on_key_press "Return" (game_of steady_rng)).

(** ** Drawing *)

(** The box (x0, y0, x1, y1) lies within the box (X0, Y0, X1, Y1). *)
Definition box_within (inner outer : Q * Q * Q * Q) : Prop :=
  let '(x0, y0, x1, y1) := inner in
  let '(X0, Y0, X1, Y1) := outer in
  (X0 <= x0 /\ x0 <= x1 /\ x1 <= X1 /\ Y0 <= y0 /\ y0 <= y1 /\ y1 <= Y1)%Q.

(** The square of a tile in pixels. *)
Definition tile_square (t : TilePos) : Q * Q * Q * Q :=
  (inject_Z (20 * fst t), inject_Z (20 * snd t),
   inject_Z (20 * fst t + 20), inject_Z (20 * snd t + 20)).

(** The oval of [_draw_pellet] for a tile and a radius. *)
Definition pellet_oval (t : TilePos) (radius : Z) : Canvas.item :=
  Canvas.Oval (inject_Z (20 * fst t + 10 - radius)) (inject_Z (20 * snd t + 10 - radius))
              (inject_Z (20 * fst t + 10 + radius)) (inject_Z (20 * snd t + 10 + radius))
              Draw.PELLET_YELLOW "" "pellet".

(** The collision square of an actor: its position plus and minus its
    radius on both axes. *)
Definition actor_square (a : Actor.t) : Q * Q * Q * Q :=
  (Vector.x (Actor.position a) - inject_Z (Actor.radius a),
   Vector.y (Actor.position a) - inject_Z (Actor.radius a),
   Vector.x (Actor.position a) + inject_Z (Actor.radius a),
   Vector.y (Actor.position a) + inject_Z (Actor.radius a))%Q.

(** ** Round trips and edge states *)

(** A tile turned into its pixel centre, the centre into a position the way
    the callers do, and the position back into a tile, with rounding. *)
Definition tile_round_trip (tile : TilePos) : result Float.OverflowError TilePos :=
  match Rounded.tile_to_pixel_center tile with
  | Raise e => Raise e
  | Ok center =>
      match Rounded.vector_of_ints center with
      | Raise e => Raise e
      | Ok position => Ok (Rounded.pixel_to_tile position)
      end
  end.

(** [last_pellet_game] with its first ghost in the corridor of the player,
    at (245, 450) and heading right: in a frame of 1/8 s the player moves
    onto the last pellet, at (255, 450), and that ghost to (256.25, 450). *)
Definition last_pellet_hit_game : Game.t :=
  Game.set_ghosts
    (match Game.ghosts last_pellet_game with
     | ghost :: rest =>
         Actor.set_direction (Vector.mk 1 0)
           (Actor.set_position (Vector.mk 245 450) ghost) :: rest
     | [] => []
     end)
    last_pellet_game.


(** * Properties *)

(** ** Arithmetic of the Python helpers *)

Lemma Qltb_lt (a b : Q) : Qltb a b = true <-> (a < b)%Q.
Proof.
  unfold Qltb. rewrite negb_true_iff, <- not_true_iff_false, Qle_bool_iff.
  split; [apply Qnot_le_lt | apply Qlt_not_le].
Qed.

Lemma Qltb_ge (a b : Q) : Qltb a b = false <-> (b <= a)%Q.
Proof. unfold Qltb. rewrite negb_false_iff. apply Qle_bool_iff. Qed.

Lemma Qfloor_iff (q : Q) (k : Z) :
  Qfloor q = k <-> (inject_Z k <= q /\ q < inject_Z (k + 1))%Q.
Proof.
  split.
  - intros <-. split; [apply Qfloor_le | apply Qlt_floor].
  - intros [Hlo Hhi].
    pose proof (Qfloor_le q) as Hf. pose proof (Qlt_floor q) as Hc.
    assert (H1 : (inject_Z (Qfloor q) < inject_Z (k + 1))%Q)
      by (eapply Qle_lt_trans; eassumption).
    assert (H2 : (inject_Z k < inject_Z (Qfloor q + 1))%Q)
      by (eapply Qle_lt_trans; eassumption).
    rewrite <- Zlt_Qlt in H1, H2. lia.
Qed.

(** The tile index of a coordinate: [q // 20 = k] exactly on [20k, 20k+20). *)
Lemma py_floordiv_tile (q : Q) (k : Z) :
  py_floordiv q constants.TILE_SIZE = k
  <-> (inject_Z (20 * k) <= q /\ q < inject_Z (20 * k + 20))%Q.
Proof.
  unfold py_floordiv. rewrite Qfloor_iff.
  change (inject_Z constants.TILE_SIZE) with 20%Q.
  rewrite !inject_Z_plus, !inject_Z_mult.
  change (inject_Z 20) with 20%Q. change (inject_Z 1) with 1%Q.
  assert (Hq : (q == 20 * (q / 20))%Q) by (field; discriminate).
  set (t := (q / 20)%Q) in *. clearbody t.
  split; intros [H1 H2]; split; qlra.
Qed.

Lemma py_int_inject (z : Z) : py_int (inject_Z z) = z.
Proof. unfold py_int. simpl. apply Z.quot_1_r. Qed.

Lemma tile_to_pixel_center_eq (col row : Z) :
  Maze.tile_to_pixel_center (col, row) = (20 * col + 10, 20 * row + 10).
Proof.
  unfold Maze.tile_to_pixel_center, py_int, constants.HALF_TILE, constants.TILE_SIZE.
  cbn -[Z.quot Z.mul Z.add].
  change (Z.pos (1 * 2)) with 2. change (Z.pos (1 * (1 * 2))) with 2.
  f_equal.
  - replace (col * 20 * 2 + 20 * 1 * 1) with ((20 * col + 10) * 2) by lia.
    now apply Z.quot_mul.
  - replace (row * 20 * 2 + 20 * 1 * 1) with ((20 * row + 10) * 2) by lia.
    now apply Z.quot_mul.
Qed.

Lemma pixel_to_tile_center (col row : Z) :
  Maze.pixel_to_tile (Game.center_of (col, row)) = (col, row).
Proof.
  unfold Game.center_of. rewrite tile_to_pixel_center_eq.
  unfold Maze.pixel_to_tile, Vector.of_ints. cbn [fst snd Vector.x Vector.y].
  f_equal; apply py_floordiv_tile; rewrite <- !Zle_Qle, <- !Zlt_Qlt; lia.
Qed.

(** ** Binary64 rounding *)

Lemma inject_Z_minus (a b : Z) : (inject_Z (a - b) == inject_Z a - inject_Z b)%Q.
Proof. unfold Z.sub. rewrite inject_Z_plus, inject_Z_opp. reflexivity. Qed.

Lemma pow2_pos (k : Z) : (0 < Float.pow2 k)%Q.
Proof.
  unfold Float.pow2. destruct (Z.leb_spec 0 k).
  - change 0%Q with (inject_Z 0). rewrite <- Zlt_Qlt. apply Z.pow_pos_nonneg; lia.
  - reflexivity.
Qed.

Lemma pow2_cancel (j : Z) : 0 <= j -> (Float.pow2 j * Float.pow2 (- j) == 1)%Q.
Proof.
  intros Hj. unfold Float.pow2.
  destruct (Z.leb_spec 0 j); [| lia].
  destruct (Z.leb_spec 0 (- j)).
  - replace j with 0 by lia. reflexivity.
  - rewrite Z.opp_involutive. unfold Qeq, Qmult, inject_Z. cbn [Qnum Qden].
    assert (0 < 2 ^ j) by (apply Z.pow_pos_nonneg; lia).
    rewrite Pos.mul_1_l, Z2Pos.id by assumption. lia.
Qed.

(** An integer is its own reduced fraction. *)
Lemma Qred_inject_Z (n : Z) : Qred (inject_Z n) = inject_Z n.
Proof.
  pose proof (Qred_correct (inject_Z n)) as E.
  pose proof (gcd_Qred (inject_Z n)) as G.
  destruct (Qred (inject_Z n)) as [a b].
  unfold Qeq in E. cbn [Qnum Qden inject_Z] in *.
  assert (Hb : Z.pos b = 1).
  { assert (Hd : (Z.pos b | a)) by (exists n; lia).
    assert (H1 : (Z.pos b | 1)).
    { rewrite <- G. apply Z.gcd_greatest; [exact Hd | reflexivity]. }
    apply Z.divide_1_r_nonneg in H1; lia. }
  assert (b = 1%positive) by lia. subst b. unfold inject_Z. f_equal. lia.
Qed.

Lemma nearest_even_int (q : Q) (n : Z) : (q == inject_Z n)%Q -> Float.nearest_even q = n.
Proof.
  intros E. unfold Float.nearest_even.
  rewrite (Qfloor_comp _ _ E), Qfloor_Z.
  assert (Hc : (q - inject_Z n ?= 1 # 2)%Q = Lt).
  { rewrite <- Qlt_alt. qlra. }
  now rewrite Hc.
Qed.

(** Rounding only depends on the number, not on the fraction that denotes
    it. *)
Lemma round_Qeq (p q : Q) : (p == q)%Q -> Float.round p = Float.round q.
Proof. intros E. unfold Float.round. now rewrite (Qred_complete _ _ E). Qed.

Lemma round_zero (q : Q) : (q == 0)%Q -> Float.round q = 0%Q.
Proof. intros E. now rewrite (round_Qeq _ _ E). Qed.

Lemma exponent_int (n : Z) : Float.exponent (inject_Z n) <= Z.log2 (Z.abs n).
Proof.
  unfold Float.exponent. cbn [Qnum Qden inject_Z].
  change (Z.log2 1) with 0. rewrite Z.sub_0_r.
  destruct (Qle_bool _ _); lia.
Qed.

(** Every integer below 2^53 in absolute value is a float. *)
Lemma round_int (n : Z) : Z.abs n < 2 ^ 53 -> Float.round (inject_Z n) = inject_Z n.
Proof.
  intros Hn. unfold Float.round. rewrite Qred_inject_Z. cbn [Qnum inject_Z].
  destruct (Z.eqb_spec n 0) as [-> | Hnz]; [reflexivity |].
  fold (inject_Z n).
  set (k := Z.max (Float.exponent (inject_Z n) - 52) (-1074)).
  assert (Hk : k <= 0).
  { pose proof (exponent_int n) as He.
    assert (Z.log2 (Z.abs n) < 53) by (apply Z.log2_lt_pow2; lia).
    unfold k. lia. }
  rewrite <- (Qred_inject_Z n) at 2. apply Qred_complete.
  assert (Hscale : (inject_Z n * Float.pow2 (- k) == inject_Z (n * 2 ^ (- k)))%Q).
  { unfold Float.pow2. destruct (Z.leb_spec 0 (- k)); [| lia].
    now rewrite inject_Z_mult. }
  rewrite (nearest_even_int _ _ Hscale), inject_Z_mult.
  pose proof (pow2_cancel (- k) ltac:(lia)) as Hc. rewrite Z.opp_involutive in Hc.
  assert (Hp : (inject_Z (2 ^ (- k)) == Float.pow2 (- k))%Q).
  { unfold Float.pow2. destruct (Z.leb_spec 0 (- k)); [reflexivity | lia]. }
  rewrite Hp, <- Qmult_assoc, Hc. ring.
Qed.

Lemma is_finite_int (n : Z) : Z.abs n < 2 ^ 53 -> Float.is_finite (inject_Z n) = true.
Proof.
  intros Hn. unfold Float.is_finite. apply Qltb_lt.
  apply Qabs_Qlt_condition. unfold Float.pow2.
  change (0 <=? 1024) with true. cbv iota.
  rewrite <- inject_Z_opp, <- !Zlt_Qlt.
  assert (2 ^ 53 <= 2 ^ 1024) by (apply Z.pow_le_mono_r; lia).
  lia.
Qed.

Lemma of_int_exact (n : Z) : Z.abs n < 2 ^ 53 -> Float.of_int n = Ok (inject_Z n).
Proof.
  intros Hn. unfold Float.of_int. now rewrite round_int, is_finite_int.
Qed.

Lemma py_int_floor (q : Q) : (0 <= q)%Q -> py_int q = Qfloor q.
Proof.
  destruct q as [a b]. unfold Qle, py_int. cbn [Qnum Qden Qfloor]. intros H.
  apply Z.quot_div_nonneg; lia.
Qed.

Lemma py_int_ceiling (q : Q) : (q <= 0)%Q -> py_int q = Qceiling q.
Proof.
  destruct q as [a b]. unfold Qle, py_int, Qceiling. cbn [Qnum Qden Qfloor Qopp]. intros H.
  rewrite <- (Z.opp_involutive a) at 1. rewrite Z.quot_opp_l by lia.
  f_equal. apply Z.quot_div_nonneg; lia.
Qed.

Lemma py_int_Qeq (p q : Q) : (p == q)%Q -> py_int p = py_int q.
Proof.
  intros E. destruct (Qlt_le_dec p 0) as [H | H].
  - rewrite !py_int_ceiling by (rewrite <- ?E; qlra). now apply Qceiling_comp.
  - rewrite !py_int_floor by (rewrite <- ?E; qlra). now apply Qfloor_comp.
Qed.

Lemma nonzero_true (q : Q) : Float.nonzero q = true <-> ~ (q == 0)%Q.
Proof.
  unfold Float.nonzero. rewrite negb_true_iff, <- not_true_iff_false, Qeq_bool_iff.
  reflexivity.
Qed.

Lemma nonzero_false (q : Q) : Float.nonzero q = false <-> (q == 0)%Q.
Proof. unfold Float.nonzero. now rewrite negb_false_iff, Qeq_bool_iff. Qed.

(** The end of [floordiv] once the quotient is an integer. *)
Lemma floordiv_snap (d : Z) :
  ((if Float.nonzero (inject_Z d)
    then let floor_quotient := inject_Z (Qfloor (inject_Z d)) in
         if Qltb (1 # 2) (Float.round (inject_Z d - floor_quotient))
         then Float.round (floor_quotient + 1) else floor_quotient
    else 0) == inject_Z d)%Q.
Proof.
  destruct (Float.nonzero (inject_Z d)) eqn:E.
  - cbv zeta. rewrite Qfloor_Z, round_zero by ring. reflexivity.
  - apply nonzero_false in E. now rewrite E.
Qed.

(** Below 2^53 the float floor division by TILE_SIZE is the exact one. *)
Lemma floordiv_exact (x : Q) :
  (Qabs x < inject_Z (2 ^ 53))%Q ->
  (Float.floordiv x 20 == inject_Z (Qfloor (x / 20)))%Q.
Proof.
  intros Hx. apply Qabs_Qlt_condition in Hx. destruct Hx as [Hlo Hhi].
  set (B := inject_Z (2 ^ 53)) in *.
  assert (HB : (B == 9007199254740992)%Q) by reflexivity.
  clearbody B.
  assert (Hy : (x == 20 * (x / 20))%Q) by (field; discriminate).
  pose proof (Qfloor_le (x / 20)) as Fl. pose proof (Qlt_floor (x / 20)) as Fh.
  rewrite inject_Z_plus in Fh. change (inject_Z 1) with 1%Q in Fh.
  unfold Float.floordiv, Float.fmod, Float.div, Float.sub, Float.add.
  destruct (Qlt_le_dec x 0) as [Hneg | Hpos].
  - (* x < 0: fmod truncates the quotient upwards *)
    assert (Ht : py_int (x / 20) = Qceiling (x / 20)).
    { apply py_int_ceiling. set (y := (x / 20)%Q) in *. clearbody y. qlra. }
    rewrite Ht.
    pose proof (Qle_ceiling (x / 20)) as Cl. pose proof (Qceiling_lt (x / 20)) as Ch.
    rewrite inject_Z_minus in Ch. change (inject_Z 1) with 1%Q in Ch.
    set (y := (x / 20)%Q) in *. clearbody y.
    set (c := Qceiling y) in *.
    assert (Hc : (-450359962737050 < c <= 0)%Z).
    { assert (-450359962737050 < c /\ c < 1)%Z; [| lia].
      rewrite !Zlt_Qlt.
      change (inject_Z (-450359962737050)) with (-450359962737050)%Q.
      change (inject_Z 1) with 1%Q. split; qlra. }
    set (md := Qred (x - 20 * inject_Z c)).
    assert (Hmd : (md == x - 20 * inject_Z c)%Q) by apply Qred_correct.
    assert (E1 : Float.round (x - md) = inject_Z (20 * c)).
    { rewrite <- (round_int (20 * c)) by lia. apply round_Qeq.
      rewrite Hmd, inject_Z_mult. change (inject_Z 20) with 20%Q. ring. }
    rewrite E1.
    assert (E2 : Float.round (inject_Z (20 * c) / 20) = inject_Z c).
    { rewrite <- (round_int c) by lia. apply round_Qeq.
      rewrite inject_Z_mult. change (inject_Z 20) with 20%Q. field. }
    rewrite E2. change (Qltb 20 0) with false.
    destruct (Qlt_le_dec md 0) as [Hm | Hm].
    + assert (N : Float.nonzero md = true) by (apply nonzero_true; qlra).
      assert (L : Qltb md 0 = true) by (now apply Qltb_lt).
      rewrite N, L. cbn [andb negb Bool.eqb].
      assert (E3 : Float.round (inject_Z c - 1) = inject_Z (c - 1)).
      { rewrite <- (round_int (c - 1)) by lia. apply round_Qeq.
        rewrite inject_Z_minus. reflexivity. }
      rewrite E3, floordiv_snap.
      assert (Hf : Qfloor y = (c - 1)%Z).
      { assert (c - 1 < Qfloor y + 1 /\ Qfloor y < c)%Z; [| lia].
        rewrite !Zlt_Qlt, inject_Z_minus, inject_Z_plus.
        change (inject_Z 1) with 1%Q. split; qlra. }
      now rewrite Hf.
    + assert (L : Qltb md 0 = false) by (now apply Qltb_ge).
      rewrite L. cbn [negb Bool.eqb]. rewrite andb_false_r, floordiv_snap.
      assert (Hf : (y == inject_Z c)%Q) by qlra.
      now rewrite (Qfloor_comp _ _ Hf), Qfloor_Z.
  - (* 0 <= x: fmod truncates the quotient downwards *)
    assert (Ht : py_int (x / 20) = Qfloor (x / 20)).
    { apply py_int_floor. set (y := (x / 20)%Q) in *. clearbody y. qlra. }
    rewrite Ht.
    set (y := (x / 20)%Q) in *. clearbody y.
    set (f := Qfloor y) in *.
    assert (Hc : (0 <= f < 450359962737050)%Z).
    { assert (0 < f + 1 /\ f < 450359962737050)%Z; [| lia].
      rewrite !Zlt_Qlt, inject_Z_plus.
      change (inject_Z 450359962737050) with 450359962737050%Q.
      change (inject_Z 1) with 1%Q. change (inject_Z 0) with 0%Q. split; qlra. }
    set (md := Qred (x - 20 * inject_Z f)).
    assert (Hmd : (md == x - 20 * inject_Z f)%Q) by apply Qred_correct.
    assert (E1 : Float.round (x - md) = inject_Z (20 * f)).
    { rewrite <- (round_int (20 * f)) by lia. apply round_Qeq.
      rewrite Hmd, inject_Z_mult. change (inject_Z 20) with 20%Q. ring. }
    rewrite E1.
    assert (E2 : Float.round (inject_Z (20 * f) / 20) = inject_Z f).
    { rewrite <- (round_int f) by lia. apply round_Qeq.
      rewrite inject_Z_mult. change (inject_Z 20) with 20%Q. field. }
    rewrite E2. change (Qltb 20 0) with false.
    assert (L : Qltb md 0 = false) by (apply Qltb_ge; qlra).
    rewrite L. cbn [negb Bool.eqb]. rewrite andb_false_r, floordiv_snap.
    reflexivity.
Qed.

(** Below 2^53 [pixel_to_tile] with rounding is the idealised one. *)
Lemma pixel_to_tile_exact (p : Vector.t) :
  (Qabs (Vector.x p) < inject_Z (2 ^ 53))%Q ->
  (Qabs (Vector.y p) < inject_Z (2 ^ 53))%Q ->
  Rounded.pixel_to_tile p = Maze.pixel_to_tile p.
Proof.
  intros Hx Hy. unfold Rounded.pixel_to_tile, Maze.pixel_to_tile, py_floordiv.
  change (inject_Z constants.TILE_SIZE) with 20%Q.
  rewrite (py_int_Qeq _ _ (floordiv_exact _ Hx)), (py_int_Qeq _ _ (floordiv_exact _ Hy)).
  now rewrite !py_int_inject.
Qed.

Lemma half_tile_float : Float.round constants.HALF_TILE = inject_Z 10.
Proof.
  rewrite <- (round_int 10) by (cbn; lia). apply round_Qeq. reflexivity.
Qed.

(** Below 2^53 the pixel centre of a tile is computed without rounding. *)
Lemma center_axis_exact (x : Z) :
  Z.abs (20 * x) + 10 < 2 ^ 53 -> Rounded.center_axis x = Ok (20 * x + 10).
Proof.
  intros Hx. unfold Rounded.center_axis, constants.TILE_SIZE.
  rewrite of_int_exact by lia. rewrite half_tile_float.
  assert (E : Float.add (inject_Z (x * 20)) (inject_Z 10) = inject_Z (20 * x + 10)).
  { assert (Hs : Z.abs (20 * x + 10) < 2 ^ 53) by lia.
    unfold Float.add. rewrite <- (round_int _ Hs).
    apply round_Qeq. rewrite inject_Z_plus, !inject_Z_mult. ring. }
  rewrite E. unfold Float.to_int. rewrite is_finite_int by lia.
  now rewrite py_int_inject.
Qed.

Lemma tile_to_pixel_center_exact (col row : Z) :
  Z.abs (20 * col) + 10 < 2 ^ 53 -> Z.abs (20 * row) + 10 < 2 ^ 53 ->
  Rounded.tile_to_pixel_center (col, row) = Ok (Maze.tile_to_pixel_center (col, row)).
Proof.
  intros Hc Hr. unfold Rounded.tile_to_pixel_center.
  rewrite !center_axis_exact by assumption. now rewrite tile_to_pixel_center_eq.
Qed.

Lemma vector_of_ints_exact (c : Z * Z) :
  Z.abs (fst c) < 2 ^ 53 -> Z.abs (snd c) < 2 ^ 53 ->
  Rounded.vector_of_ints c = Ok (Vector.of_ints c).
Proof.
  intros Hx Hy. unfold Rounded.vector_of_ints. now rewrite !of_int_exact.
Qed.

Lemma Qabs_inject_Z_lt (n b : Z) : Z.abs n < b -> (Qabs (inject_Z n) < inject_Z b)%Q.
Proof.
  intros H. apply Qabs_Qlt_condition. rewrite <- inject_Z_opp, <- !Zlt_Qlt. lia.
Qed.

(** ** Rounding errors *)

Lemma pow2_Qpower (k : Z) : (Float.pow2 k == 2 ^ k)%Q.
Proof.
  unfold Float.pow2. destruct (Z.leb_spec 0 k) as [Hk | Hk].
  - now rewrite Zpower_Qpower.
  - rewrite <- (Z.opp_involutive k) at 2. rewrite Qpower_opp.
    rewrite <- (Zpower_Qpower 2 (- k)) by lia.
    assert (Hp : 0 < 2 ^ (- k)) by (apply Z.pow_pos_nonneg; lia).
    destruct (2 ^ (- k)) as [| p | p]; try lia. reflexivity.
Qed.

Lemma pow2_mono (j k : Z) : j <= k -> (Float.pow2 j <= Float.pow2 k)%Q.
Proof.
  intros H. rewrite !pow2_Qpower. apply Qpower_le_compat_l; [exact H | discriminate].
Qed.

Lemma pow2_lt_inv (j k : Z) : (Float.pow2 j < Float.pow2 k)%Q -> j < k.
Proof.
  rewrite !pow2_Qpower. intros H. apply (Qpower_lt_compat_l_inv 2); [exact H | reflexivity].
Qed.

Lemma pow2_plus (j k : Z) : (Float.pow2 (j + k) == Float.pow2 j * Float.pow2 k)%Q.
Proof. rewrite !pow2_Qpower. apply Qpower_plus. discriminate. Qed.

Lemma pow2_pred (k : Z) : (Float.pow2 (k - 1) == (1 # 2) * Float.pow2 k)%Q.
Proof.
  replace (k - 1) with (-1 + k) by lia. rewrite pow2_plus. reflexivity.
Qed.

(** [exponent] is the floor of the binary logarithm. *)
Lemma exponent_spec (q : Q) :
  ~ (q == 0)%Q ->
  (Float.pow2 (Float.exponent q) <= Qabs q
   /\ Qabs q < Float.pow2 (Float.exponent q + 1))%Q.
Proof.
  intros Hq. unfold Float.exponent.
  destruct q as [a b]. cbn [Qnum Qden].
  assert (Ha : 0 < Z.abs a).
  { assert (a <> 0); [| lia]. intros ->. apply Hq. reflexivity. }
  pose proof (Z.log2_spec (Z.abs a) Ha) as [La Ua].
  pose proof (Z.log2_spec (Z.pos b) ltac:(lia)) as [Lb Ub].
  pose proof (Z.log2_nonneg (Z.abs a)) as Na.
  pose proof (Z.log2_nonneg (Z.pos b)) as Nb.
  set (u := Z.log2 (Z.abs a)) in *. set (v := Z.log2 (Z.pos b)) in *.
  assert (Eabs : (Qabs (a # b) == inject_Z (Z.abs a) / inject_Z (Z.pos b))%Q).
  { unfold Qabs. rewrite (Qmake_Qdiv (Z.abs a) b). reflexivity. }
  assert (Pu : (Float.pow2 u == inject_Z (2 ^ u))%Q)
    by (unfold Float.pow2; destruct (Z.leb_spec 0 u); [reflexivity | lia]).
  assert (Pu1 : (Float.pow2 (u + 1) == inject_Z (2 ^ Z.succ u))%Q)
    by (unfold Float.pow2, Z.succ; destruct (Z.leb_spec 0 (u + 1)); [reflexivity | lia]).
  assert (Pv : (Float.pow2 v == inject_Z (2 ^ v))%Q)
    by (unfold Float.pow2; destruct (Z.leb_spec 0 v); [reflexivity | lia]).
  assert (Pv1 : (Float.pow2 (v + 1) == inject_Z (2 ^ Z.succ v))%Q)
    by (unfold Float.pow2, Z.succ; destruct (Z.leb_spec 0 (v + 1)); [reflexivity | lia]).
  assert (Bpos : (0 < inject_Z (Z.pos b))%Q) by reflexivity.
  (* |q| lies strictly between 2^(u-v-1) and 2^(u-v+1) *)
  assert (Hlow : (Float.pow2 (u - v - 1) < Qabs (a # b))%Q).
  { rewrite Eabs. apply Qlt_shift_div_l; [exact Bpos |].
    apply Qlt_le_trans with (Float.pow2 (u - v - 1) * Float.pow2 (v + 1))%Q.
    - apply Qmult_lt_l; [apply pow2_pos |]. rewrite Pv1, <- Zlt_Qlt. lia.
    - rewrite <- pow2_plus. replace (u - v - 1 + (v + 1)) with u by lia.
      rewrite Pu, <- Zle_Qle. lia. }
  assert (Hhigh : (Qabs (a # b) < Float.pow2 (u - v + 1))%Q).
  { rewrite Eabs. apply Qlt_shift_div_r; [exact Bpos |].
    apply Qlt_le_trans with (Float.pow2 (u + 1)).
    - rewrite Pu1, <- Zlt_Qlt. lia.
    - replace (u + 1) with (u - v + 1 + v) by lia. rewrite pow2_plus.
      apply Qmult_le_l; [apply pow2_pos |]. rewrite Pv, <- Zle_Qle. lia. }
  destruct (Qle_bool (Float.pow2 (u - v)) (Qabs (a # b))) eqn:T.
  - apply Qle_bool_iff in T. split; assumption.
  - replace (u - v - 1 + 1) with (u - v) by lia. split.
    + now apply Qlt_le_weak.
    + apply Qnot_le_lt. intros H. apply Qle_bool_iff in H. congruence.
Qed.

Lemma nearest_even_error (q : Q) :
  (Qabs (inject_Z (Float.nearest_even q) - q) <= 1 # 2)%Q.
Proof.
  unfold Float.nearest_even.
  pose proof (Qfloor_le q) as Fl. pose proof (Qlt_floor q) as Fh.
  rewrite inject_Z_plus in Fh. change (inject_Z 1) with 1%Q in Fh.
  apply Qabs_Qle_condition.
  destruct (q - inject_Z (Qfloor q) ?= 1 # 2)%Q eqn:C.
  - apply Qeq_alt in C.
    destruct (Z.even (Qfloor q)); rewrite ?inject_Z_plus;
      change (inject_Z 1) with 1%Q; set (f := inject_Z (Qfloor q)) in *; clearbody f;
      split; qlra.
  - apply Qlt_alt in C. set (f := inject_Z (Qfloor q)) in *. clearbody f. split; qlra.
  - apply Qgt_alt in C. rewrite inject_Z_plus. change (inject_Z 1) with 1%Q.
    set (f := inject_Z (Qfloor q)) in *. clearbody f. split; qlra.
Qed.

Lemma nearest_even_bound (q : Q) (b : Z) :
  (Qabs q <= inject_Z b)%Q -> Z.abs (Float.nearest_even q) <= b.
Proof.
  intros H. apply Qabs_Qle_condition in H. destruct H as [L U].
  rewrite <- inject_Z_opp in L.
  assert (Hf : - b <= Qfloor q <= b).
  { split.
    - rewrite <- (Qfloor_Z (- b)). now apply Qfloor_resp_le.
    - rewrite <- (Qfloor_Z b). now apply Qfloor_resp_le. }
  unfold Float.nearest_even.
  pose proof (Qfloor_le q) as Fl.
  destruct (q - inject_Z (Qfloor q) ?= 1 # 2)%Q eqn:C.
  - destruct (Z.even (Qfloor q)); [lia |].
    assert (Qfloor q < b); [| lia].
    apply Qeq_alt in C. rewrite Zlt_Qlt.
    set (f := inject_Z (Qfloor q)) in *. clearbody f. qlra.
  - lia.
  - assert (Qfloor q < b); [| lia].
    apply Qgt_alt in C. rewrite Zlt_Qlt.
    set (f := inject_Z (Qfloor q)) in *. clearbody f. qlra.
Qed.

(** The shape of a rounded number: an integer times the spacing 2^k. *)
Lemma round_shape (q : Q) :
  ~ (q == 0)%Q ->
  let k := Z.max (Float.exponent (Qred q) - 52) (-1074) in
  let n := Float.nearest_even (Qred q * Float.pow2 (- k)) in
  (Float.round q == inject_Z n * Float.pow2 k)%Q
  /\ (Qabs (Float.round q - q) <= Float.pow2 (k - 1))%Q
  /\ Z.abs n <= 2 ^ 53.
Proof.
  intros Hq k n. unfold Float.round. fold k. fold n.
  assert (Hq' : ~ (Qred q == 0)%Q) by (now rewrite Qred_correct).
  assert (Hnum : (Qnum (Qred q) =? 0) = false).
  { apply Z.eqb_neq. intros E. apply Hq'. unfold Qeq. rewrite E. reflexivity. }
  rewrite Hnum.
  assert (Hc : (Float.pow2 (- k) * Float.pow2 k == 1)%Q).
  { rewrite <- pow2_plus. replace (- k + k) with 0 by lia. reflexivity. }
  pose proof (pow2_pos k) as Pk. pose proof (pow2_pos (- k)) as Pk'.
  refine (conj (Qred_correct _) (conj _ _)).
  - rewrite Qred_correct.
    assert (E : (inject_Z n * Float.pow2 k - q
                 == (inject_Z n - Qred q * Float.pow2 (- k)) * Float.pow2 k)%Q).
    { rewrite <- (Qred_correct q) at 1.
      transitivity (inject_Z n * Float.pow2 k
                    - Qred q * (Float.pow2 (- k) * Float.pow2 k))%Q;
        [rewrite Hc | ]; ring. }
    rewrite E, Qabs_Qmult, (Qabs_pos (Float.pow2 k)) by now apply Qlt_le_weak.
    rewrite pow2_pred. apply Qmult_le_compat_r; [| now apply Qlt_le_weak].
    apply nearest_even_error.
  - apply nearest_even_bound.
    destruct (exponent_spec _ Hq') as [_ Hup].
    rewrite Qabs_Qmult, (Qabs_pos (Float.pow2 (- k))) by now apply Qlt_le_weak.
    assert (Hle : (Float.pow2 (Float.exponent (Qred q) + 1) <= Float.pow2 (k + 53))%Q)
      by (apply pow2_mono; unfold k; lia).
    assert (Hs : (Float.pow2 (k + 53) * Float.pow2 (- k) == inject_Z (2 ^ 53))%Q).
    { rewrite <- pow2_plus. replace (k + 53 + - k) with 53 by lia. reflexivity. }
    rewrite <- Hs. apply Qmult_le_compat_r; [| now apply Qlt_le_weak].
    apply Qlt_le_weak. eapply Qlt_le_trans; eassumption.
Qed.

(** The rounding error is at most half the spacing of the binade. *)
Lemma round_error (q : Q) (e : Z) :
  -1021 <= e -> (Qabs q < Float.pow2 e)%Q ->
  (Qabs (Float.round q - q) <= Float.pow2 (e - 54))%Q.
Proof.
  intros He Hq. destruct (Qeq_dec q 0) as [E | N].
  - rewrite (round_zero _ E), E. cbn. apply Qlt_le_weak, pow2_pos.
  - destruct (round_shape q N) as (_ & Herr & _). cbv zeta in Herr.
    eapply Qle_trans; [exact Herr |]. apply pow2_mono.
    assert (Hq' : ~ (Qred q == 0)%Q) by (now rewrite Qred_correct).
    destruct (exponent_spec _ Hq') as [Hlo _].
    rewrite (Qabs_wd _ _ (Qred_correct q)) in Hlo.
    assert (Float.exponent (Qred q) < e); [| lia].
    apply pow2_lt_inv. eapply Qle_lt_trans; eassumption.
Qed.

Lemma pow2_nonneg_Z (j : Z) : 0 <= j -> (Float.pow2 j == inject_Z (2 ^ j))%Q.
Proof. intros H. unfold Float.pow2. destruct (Z.leb_spec 0 j); [reflexivity | lia]. Qed.

(** A multiple of 2^j below 2^(53+j) is a float. *)
Lemma round_multiple (n j : Z) :
  0 <= j -> (2 ^ j | n) -> Z.abs n < 2 ^ (53 + j) ->
  Float.round (inject_Z n) = inject_Z n.
Proof.
  intros Hj [m ->] Hn. unfold Float.round. rewrite Qred_inject_Z. cbn [Qnum inject_Z].
  destruct (Z.eqb_spec (m * 2 ^ j) 0) as [-> | Hnz]; [reflexivity |].
  fold (inject_Z (m * 2 ^ j)).
  set (k := Z.max (Float.exponent (inject_Z (m * 2 ^ j)) - 52) (-1074)).
  assert (Hk : k <= j).
  { pose proof (exponent_int (m * 2 ^ j)) as He.
    assert (Z.log2 (Z.abs (m * 2 ^ j)) < 53 + j) by (apply Z.log2_lt_pow2; lia).
    unfold k. lia. }
  rewrite <- (Qred_inject_Z (m * 2 ^ j)) at 2. apply Qred_complete.
  assert (Hscale : (inject_Z (m * 2 ^ j) * Float.pow2 (- k)
                    == inject_Z (m * 2 ^ (j - k)))%Q).
  { rewrite !inject_Z_mult, <- !pow2_nonneg_Z by lia.
    replace (j - k) with (j + - k) by lia. rewrite pow2_plus. ring. }
  rewrite (nearest_even_int _ _ Hscale), !inject_Z_mult, <- !pow2_nonneg_Z by lia.
  rewrite <- Qmult_assoc, <- pow2_plus. now replace (j - k + k) with j by lia.
Qed.

(** An integer below 2^56 is rounded to an integer at most 4 away, which is
    a float. *)
Lemma round_int_near (n : Z) :
  Z.abs n < 2 ^ 56 ->
  exists z : Z,
    Float.round (inject_Z n) = inject_Z z /\ Z.abs (z - n) <= 4
    /\ Float.round (inject_Z z) = inject_Z z.
Proof.
  intros Hn. destruct (Z.eq_dec n 0) as [-> | Hnz].
  { exists 0. repeat split; reflexivity || lia. }
  assert (Hq : ~ (inject_Z n == 0)%Q).
  { intros E. apply Hnz. unfold Qeq in E. cbn in E. lia. }
  destruct (round_shape _ Hq) as (Hshape & Herr & Hnear). cbv zeta in *.
  rewrite Qred_inject_Z in *.
  set (k := Z.max (Float.exponent (inject_Z n) - 52) (-1074)) in *.
  set (N := Float.nearest_even (inject_Z n * Float.pow2 (- k))) in *.
  assert (Hk : k <= 3).
  { destruct (exponent_spec _ Hq) as [Hlo _].
    assert (Float.exponent (inject_Z n) < 56); [| unfold k; lia].
    apply pow2_lt_inv. eapply Qle_lt_trans; [exact Hlo |].
    rewrite (pow2_nonneg_Z 56) by lia. now apply Qabs_inject_Z_lt. }
  destruct (Z_le_gt_dec k 0) as [Hk0 | Hk0].
  - (* below 2^53: no rounding *)
    assert (Hsmall : Z.abs n < 2 ^ 53).
    { destruct (exponent_spec _ Hq) as [_ Hhi].
      assert (Hle : (Float.pow2 (Float.exponent (inject_Z n) + 1) <= Float.pow2 53)%Q)
        by (apply pow2_mono; unfold k in Hk0; lia).
      rewrite (pow2_nonneg_Z 53) in Hle by lia.
      assert (H : (Qabs (inject_Z n) < inject_Z (2 ^ 53))%Q)
        by (eapply Qlt_le_trans; eassumption).
      apply Qabs_Qlt_condition in H. rewrite <- inject_Z_opp, <- !Zlt_Qlt in H. lia. }
    exists n. rewrite round_int by exact Hsmall.
    refine (conj eq_refl (conj _ eq_refl)). lia.
  - (* spacing 2, 4 or 8 *)
    assert (Hz : Float.round (inject_Z n) = inject_Z (N * 2 ^ k)).
    { rewrite <- (Qred_inject_Z (N * 2 ^ k)).
      unfold Float.round. rewrite Qred_inject_Z. cbn [Qnum inject_Z].
      destruct (Z.eqb_spec n 0); [contradiction |]. fold (inject_Z n). fold k. fold N.
      apply Qred_complete. now rewrite inject_Z_mult, pow2_nonneg_Z by lia. }
    exists (N * 2 ^ k). refine (conj Hz (conj _ _)).
    + rewrite Hz in Herr.
      assert (Hle : (Float.pow2 (k - 1) <= inject_Z 4)%Q).
      { rewrite <- (pow2_nonneg_Z 2) by lia. apply pow2_mono. lia. }
      assert (H : (Qabs (inject_Z (N * 2 ^ k - n)) <= inject_Z 4)%Q).
      { rewrite inject_Z_minus. eapply Qle_trans; eassumption. }
      apply Qabs_Qle_condition in H. rewrite <- inject_Z_opp, <- !Zle_Qle in H. lia.
    + assert (Hp : 0 < 2 ^ k) by (apply Z.pow_pos_nonneg; lia).
      destruct (Z.eq_dec (Z.abs N) (2 ^ 53)) as [Htop | Hlow].
      * apply (round_multiple _ (k + 1)); [lia | |].
        -- rewrite Z.pow_add_r by lia. change (2 ^ 1) with 2.
           destruct (Z.abs_eq_or_opp N) as [E | E]; rewrite E in Htop.
           ++ exists (2 ^ 52). rewrite Htop. change (2 ^ 53) with (2 ^ 52 * 2). ring.
           ++ exists (- 2 ^ 52). replace N with (- 2 ^ 53) by lia.
              change (2 ^ 53) with (2 ^ 52 * 2). ring.
        -- rewrite Z.abs_mul, Htop, (Z.abs_eq (2 ^ k)) by lia.
           rewrite <- Z.pow_add_r by lia. apply Z.pow_lt_mono_r; lia.
      * apply (round_multiple _ k); [lia | now exists N |].
        rewrite Z.abs_mul, (Z.abs_eq (2 ^ k)) by lia.
        rewrite Z.pow_add_r by lia. apply Z.mul_lt_mono_pos_r; lia.
Qed.

Lemma is_finite_below (z : Z) : Z.abs z < 2 ^ 57 -> Float.is_finite (inject_Z z) = true.
Proof.
  intros Hz. unfold Float.is_finite. apply Qltb_lt.
  rewrite (pow2_nonneg_Z 1024) by lia. apply Qabs_inject_Z_lt.
  assert (2 ^ 57 <= 2 ^ 1024) by (apply Z.pow_le_mono_r; lia). lia.
Qed.

(** Up to 2^56 the pixel centre of a tile is rounded to a point of the
    tile, at least 2 pixels inside. *)
Lemma center_axis_near (x : Z) :
  0 <= x -> 20 * x <= 2 ^ 56 - 16 ->
  exists s : Z,
    Rounded.center_axis x = Ok s /\ 20 * x + 2 <= s <= 20 * x + 18
    /\ Float.of_int s = Ok (inject_Z s).
Proof.
  intros Hx Hmax. change (2 ^ 56) with 72057594037927936 in Hmax.
  unfold Rounded.center_axis, constants.TILE_SIZE.
  destruct (round_int_near (x * 20)) as (z1 & E1 & D1 & _);
    [change (2 ^ 56) with 72057594037927936; lia |].
  unfold Float.of_int at 1. rewrite E1, is_finite_below
    by (change (2 ^ 57) with 144115188075855872; lia).
  rewrite half_tile_float. unfold Float.add.
  rewrite (round_Qeq _ (inject_Z (z1 + 10))) by (now rewrite inject_Z_plus).
  destruct (round_int_near (z1 + 10)) as (z2 & E2 & D2 & R2);
    [change (2 ^ 56) with 72057594037927936; lia |].
  rewrite E2. unfold Float.to_int. rewrite is_finite_below, py_int_inject
    by (change (2 ^ 57) with 144115188075855872; lia).
  exists z2. refine (conj eq_refl (conj _ _)); [lia |].
  unfold Float.of_int. rewrite R2, is_finite_below
    by (change (2 ^ 57) with 144115188075855872; lia).
  reflexivity.
Qed.

(** Any point of the tile reached that way is divided back to the tile. *)
Lemma floordiv_near (s x : Z) :
  0 <= x -> 20 * x <= 2 ^ 56 - 16 -> 20 * x + 2 <= s <= 20 * x + 18 ->
  py_int (Float.floordiv (inject_Z s) 20) = x.
Proof.
  intros Hx Hmax Hs. change (2 ^ 56) with 72057594037927936 in Hmax.
  unfold Float.floordiv, Float.fmod, Float.div, Float.sub, Float.add.
  assert (Hquot : py_int (inject_Z s / 20) = x).
  { rewrite py_int_floor.
    - apply (py_floordiv_tile (inject_Z s) x).
      rewrite <- Zle_Qle, <- Zlt_Qlt. lia.
    - apply Qle_shift_div_l; [reflexivity |]. rewrite Qmult_0_l.
      change 0%Q with (inject_Z 0). rewrite <- Zle_Qle. lia. }
  rewrite Hquot.
  set (md := Qred (inject_Z s - 20 * inject_Z x)).
  assert (Hmd : (md == inject_Z (s - 20 * x))%Q).
  { unfold md. rewrite Qred_correct, inject_Z_minus, inject_Z_mult. reflexivity. }
  assert (Hmd_pos : (2 <= md)%Q).
  { rewrite Hmd. change 2%Q with (inject_Z 2). rewrite <- Zle_Qle. lia. }
  assert (N : Float.nonzero md = true) by (apply nonzero_true; qlra).
  assert (L : Qltb md 0 = false) by (apply Qltb_ge; qlra).
  rewrite N, L. change (Qltb 20 0) with false. cbn [Bool.eqb negb andb].
  rewrite (round_Qeq (inject_Z s - md) (inject_Z (x * 20)))
    by (rewrite Hmd, inject_Z_minus, !inject_Z_mult; ring).
  destruct (round_int_near (x * 20)) as (z1 & E1 & D1 & _);
    [change (2 ^ 56) with 72057594037927936; lia |].
  rewrite E1.
  (* the quotient is within 0.45 of x *)
  set (d := Float.round (inject_Z z1 / 20)).
  assert (Hz1 : (inject_Z z1 == 20 * (inject_Z z1 / 20))%Q) by (field; discriminate).
  assert (Bz : (inject_Z (20 * x - 4) <= inject_Z z1 /\ inject_Z z1 <= inject_Z (20 * x + 4))%Q)
    by (rewrite <- !Zle_Qle; lia).
  rewrite inject_Z_minus, inject_Z_plus, inject_Z_mult in Bz.
  change (inject_Z 20) with 20%Q in Bz. change (inject_Z 4) with 4%Q in Bz.
  assert (Bx : (0 <= inject_Z x /\ 20 * inject_Z x <= 72057594037927920)%Q).
  { change 0%Q with (inject_Z 0). change 20%Q with (inject_Z 20).
    change 72057594037927920%Q with (inject_Z 72057594037927920).
    rewrite <- inject_Z_mult, <- !Zle_Qle. lia. }
  assert (Hd : (Qabs (d - inject_Z z1 / 20) <= 1 # 4)%Q).
  { apply (round_error _ 52); [lia |].
    rewrite (pow2_nonneg_Z 52) by lia. change (inject_Z (2 ^ 52)) with 4503599627370496%Q.
    apply Qabs_Qlt_condition.
    set (y := (inject_Z z1 / 20)%Q) in *. clearbody y.
    set (X := inject_Z x) in *. clearbody X.
    set (Z1 := inject_Z z1) in *. clearbody Z1. split; qlra. }
  apply Qabs_Qle_condition in Hd. destruct Hd as [Dl Du].
  assert (Hnear : (inject_Z x - (45 # 100) <= d /\ d <= inject_Z x + (45 # 100))%Q).
  { set (y := (inject_Z z1 / 20)%Q) in *. clearbody y.
    set (X := inject_Z x) in *. clearbody X.
    set (Z1 := inject_Z z1) in *. clearbody Z1. clearbody d. split; qlra. }
  clearbody d. clear Dl Du Hz1 Bz E1 D1 z1.
  destruct (Float.nonzero d) eqn:Nd.
  - cbv zeta. destruct (Qlt_le_dec d (inject_Z x)) as [Hlt | Hge].
    + (* the quotient fell below x: the snap brings it back *)
      assert (Hf : Qfloor d = x - 1).
      { apply Qfloor_iff. rewrite inject_Z_minus. replace (x - 1 + 1) with x by lia.
        change (inject_Z 1) with 1%Q. split; qlra. }
      rewrite Hf.
      set (r := Float.round (d - inject_Z (x - 1))).
      assert (He : (Qabs (r - (d - inject_Z (x - 1))) <= 1 # 18014398509481984)%Q).
      { apply (round_error _ 0); [lia |]. change (Float.pow2 0) with 1%Q.
        rewrite inject_Z_minus. change (inject_Z 1) with 1%Q.
        apply Qabs_Qlt_condition. split; qlra. }
      clearbody r. rewrite inject_Z_minus in He. change (inject_Z 1) with 1%Q in He.
      apply Qabs_Qle_condition in He. destruct He as [El Eu].
      assert (T : Qltb (1 # 2) r = true) by (apply Qltb_lt; qlra).
      rewrite T.
      rewrite (round_Qeq _ (inject_Z x))
        by (rewrite inject_Z_minus; change (inject_Z 1) with 1%Q; ring).
      rewrite round_int by (change (2 ^ 53) with 9007199254740992; lia).
      apply py_int_inject.
    + (* the quotient is x or just above: its floor is x *)
      assert (Hf : Qfloor d = x).
      { apply Qfloor_iff. rewrite inject_Z_plus. change (inject_Z 1) with 1%Q.
        split; qlra. }
      rewrite Hf.
      set (r := Float.round (d - inject_Z x)).
      assert (He : (Qabs (r - (d - inject_Z x)) <= 1 # 36028797018963968)%Q).
      { apply (round_error _ (-1)); [lia |]. change (Float.pow2 (-1)) with (1 # 2)%Q.
        apply Qabs_Qlt_condition. split; qlra. }
      clearbody r. apply Qabs_Qle_condition in He. destruct He as [El Eu].
      assert (T : Qltb (1 # 2) r = false) by (apply Qltb_ge; qlra).
      rewrite T. apply py_int_inject.
  - apply nonzero_false in Nd.
    assert (H0 : x = 0).
    { assert (x < 1); [| lia]. rewrite Zlt_Qlt. change (inject_Z 1) with 1%Q. qlra. }
    rewrite H0. reflexivity.
Qed.

(** One coordinate of the round trip. *)
Lemma axis_round_trip (x : Z) :
  0 <= x <= 3602879701896397 ->
  exists s : Z,
    Rounded.center_axis x = Ok s /\ Float.of_int s = Ok (inject_Z s)
    /\ py_int (Float.floordiv (inject_Z s) 20) = x
    /\ py_floordiv (inject_Z s) 20 = x.
Proof.
  intros Hx. destruct (Z.eq_dec x 3602879701896397) as [-> | Hne].
  - exists 72057594037927952. repeat split; vm_compute; reflexivity.
  - assert (Hmax : 20 * x <= 2 ^ 56 - 16)
      by (change (2 ^ 56) with 72057594037927936; lia).
    destruct (center_axis_near x ltac:(lia) Hmax) as (s & Hc & Hs & Hf).
    exists s. refine (conj Hc (conj Hf (conj _ _))).
    + now apply floordiv_near.
    + apply py_floordiv_tile. rewrite <- Zle_Qle, <- Zlt_Qlt. lia.
Qed.

(** ** Tile and pixel coordinates *)

(** C10 (as the code has it): for every tile (col, row) with
    0 <= col <= 3602879701896397 and 0 <= row <= 3602879701896397, with the
    rounding of floats written out:
    [tile_to_pixel_center] does not raise, and the centre it returns, turned
    into a position the way the callers do, is mapped back to (col, row) by
    [pixel_to_tile]; the exact floor division of that centre by TILE_SIZE
    gives (col, row) too.  While 20 col + 10 and 20 row + 10 are below 2^53
    the centre is the one of the idealised function. *)
Theorem tile_center_round_trip (col row : Z) (Hcol : 0 <= col) (Hrow : 0 <= row)
    (Hcol_max : col <= 3602879701896397) (Hrow_max : row <= 3602879701896397) :
  tile_round_trip (col, row) = Ok (col, row)
  /\ (exists center, Rounded.tile_to_pixel_center (col, row) = Ok center
                     /\ Maze.pixel_to_tile (Vector.of_ints center) = (col, row))
  /\ (20 * col + 10 < 2 ^ 53 -> 20 * row + 10 < 2 ^ 53 ->
      Rounded.tile_to_pixel_center (col, row) = Ok (Maze.tile_to_pixel_center (col, row))).
Proof.
  destruct (axis_round_trip col ltac:(lia)) as (sx & Cx & Fx & Rx & Ex).
  destruct (axis_round_trip row ltac:(lia)) as (sy & Cy & Fy & Ry & Ey).
  assert (Hc : Rounded.tile_to_pixel_center (col, row) = Ok (sx, sy)).
  { unfold Rounded.tile_to_pixel_center. now rewrite Cx, Cy. }
  refine (conj _ (conj _ _)).
  - unfold tile_round_trip. rewrite Hc. unfold Rounded.vector_of_ints.
    cbn [fst snd]. rewrite Fx, Fy. unfold Rounded.pixel_to_tile.
    cbn [Vector.x Vector.y]. change (inject_Z constants.TILE_SIZE) with 20%Q.
    now rewrite Rx, Ry.
  - exists (sx, sy). split; [exact Hc |].
    unfold Maze.pixel_to_tile, Vector.of_ints. cbn [fst snd Vector.x Vector.y].
    change constants.TILE_SIZE with 20. now rewrite Ex, Ey.
  - intros Hx Hy. apply tile_to_pixel_center_exact; lia.
Qed.

Lemma tile_center_round_trip_player_start :
  0 <= 13 /\ 0 <= 22 /\ 13 <= 3602879701896397 /\ 22 <= 3602879701896397
  /\ tile_round_trip (13, 22) = Ok (13, 22).
Proof.
  refine (conj _ (conj _ (conj _ (conj _ _)))); [lia | lia | lia | lia |].
  exact (proj1 (tile_center_round_trip 13 22 ltac:(lia) ltac:(lia)
                  ltac:(lia) ltac:(lia))).
Defined.

(** One column further the round trip fails: for column 3602879701896398
    the product 20 col and then the sum with 10.0 are both rounded up, the
    centre returned is 72057594037927984 instead of 72057594037927970, and
    that point lies in column 3602879701896399, whether it is divided as a
    float or exactly. *)
Theorem tile_center_round_trip_fails_at_2_56 :
  0 <= 3602879701896398
  /\ Rounded.tile_to_pixel_center (3602879701896398, 0) = Ok (72057594037927984, 10)
  /\ tile_round_trip (3602879701896398, 0) = Ok (3602879701896399, 0)
  /\ Maze.pixel_to_tile (Vector.of_ints (72057594037927984, 10))
     = (3602879701896399, 0).
Proof.
  refine (conj _ (conj _ (conj _ _))); [lia | | |]; vm_compute; reflexivity.
Qed.

(** ** Horizontal wrap *)

Lemma wrap_position_inside (p : Vector.t) :
  (0 <= Vector.x p)%Q -> (Vector.x p < inject_Z constants.SCREEN_WIDTH)%Q ->
  Maze.wrap_position p = p.
Proof.
  intros Hlo Hhi. unfold Maze.wrap_position.
  apply Qltb_ge in Hlo. rewrite Hlo.
  destruct (Qle_bool (inject_Z constants.SCREEN_WIDTH) (Vector.x p)) eqn:E.
  - apply Qle_bool_iff in E. exfalso. revert E. now apply Qlt_not_le.
  - now destruct p.
Qed.

Lemma right_edge_inside :
  (0 <= inject_Z constants.SCREEN_WIDTH - constants.HALF_TILE
   /\ inject_Z constants.SCREEN_WIDTH - constants.HALF_TILE
      < inject_Z constants.SCREEN_WIDTH)%Q.
Proof. split; [discriminate | reflexivity]. Qed.

Lemma left_edge_inside :
  (0 <= constants.HALF_TILE /\ constants.HALF_TILE < inject_Z constants.SCREEN_WIDTH)%Q.
Proof. split; [discriminate | reflexivity]. Qed.

Lemma wrap_position_range (p : Vector.t) :
  (0 <= Vector.x (Maze.wrap_position p)
   /\ Vector.x (Maze.wrap_position p) < inject_Z constants.SCREEN_WIDTH)%Q.
Proof.
  unfold Maze.wrap_position.
  destruct (Qltb (Vector.x p) 0) eqn:Hneg;
    [| destruct (Qle_bool (inject_Z constants.SCREEN_WIDTH) (Vector.x p)) eqn:Hbig];
    cbn [Vector.x].
  - apply right_edge_inside.
  - apply left_edge_inside.
  - split.
    + now apply Qltb_ge.
    + apply Qnot_le_lt. intros H. apply Qle_bool_iff in H. congruence.
Qed.

(** C4: [wrap_position] is idempotent; a position with 0 <= x < SCREEN_WIDTH is
    returned as it is; x < 0 is sent to SCREEN_WIDTH - TILE_SIZE/2 (550);
    x >= SCREEN_WIDTH is sent to TILE_SIZE/2 (10); y never changes. *)
Theorem wrap_position_spec (p : Vector.t) :
  Maze.wrap_position (Maze.wrap_position p) = Maze.wrap_position p
  /\ ((0 <= Vector.x p)%Q -> (Vector.x p < inject_Z constants.SCREEN_WIDTH)%Q ->
      Maze.wrap_position p = p)
  /\ ((Vector.x p < 0)%Q ->
      Vector.x (Maze.wrap_position p)
      = (inject_Z constants.SCREEN_WIDTH - constants.HALF_TILE)%Q
      /\ (Vector.x (Maze.wrap_position p) == 550)%Q)
  /\ ((inject_Z constants.SCREEN_WIDTH <= Vector.x p)%Q ->
      Vector.x (Maze.wrap_position p) = constants.HALF_TILE
      /\ (Vector.x (Maze.wrap_position p) == 10)%Q)
  /\ Vector.y (Maze.wrap_position p) = Vector.y p.
Proof.
  split; [| split; [| split; [| split]]].
  - apply wrap_position_inside; apply wrap_position_range.
  - apply wrap_position_inside.
  - intros H. apply Qltb_lt in H. unfold Maze.wrap_position. rewrite H.
    split; reflexivity.
  - intros H. unfold Maze.wrap_position.
    assert (Hneg : Qltb (Vector.x p) 0 = false).
    { apply Qltb_ge. eapply Qle_trans; [| exact H]. discriminate. }
    apply Qle_bool_iff in H. rewrite Hneg, H. split; reflexivity.
  - reflexivity.
Qed.

(** ** Player and ghost collision *)

Lemma Q2R_inject_Z (z : Z) : Q2R (inject_Z z) = IZR z.
Proof. unfold Q2R, inject_Z. simpl. rlra. Qed.

Lemma distance_sq_real (a b : Vector.t) :
  Q2R (Vector.distance_sq a b)
  = (Rsqr (Q2R (Vector.x a) - Q2R (Vector.x b))
     + Rsqr (Q2R (Vector.y a) - Q2R (Vector.y b)))%R.
Proof.
  unfold Vector.distance_sq, Rsqr.
  now rewrite Q2R_plus, !Q2R_mult, !Q2R_minus.
Qed.

Lemma distance_sq_nonneg (a b : Vector.t) : (0 <= Q2R (Vector.distance_sq a b))%R.
Proof.
  rewrite distance_sq_real.
  apply Rplus_le_le_0_compat; apply Rle_0_sqr.
Qed.

(** The boolean of [_collides] is the comparison written in the source:
    the Euclidean distance is below the sum of the radii minus 2. *)
Lemma _collides_hypot (actor_a : Player.t) (actor_b : Ghost.t) :
  Game._collides actor_a actor_b = true
  <-> (Vector.distance_to (Actor.position (Player.actor actor_a))
                          (Actor.position actor_b)
       < IZR (Actor.radius (Player.actor actor_a) + Actor.radius actor_b - 2))%R.
Proof.
  unfold Game._collides, Vector.distance_to.
  set (limit := Actor.radius (Player.actor actor_a) + Actor.radius actor_b - 2).
  set (D := Vector.distance_sq _ _).
  pose proof (distance_sq_nonneg (Actor.position (Player.actor actor_a))
                                 (Actor.position actor_b)) as HD.
  fold D in HD.
  rewrite andb_true_iff, Z.ltb_lt, Qltb_lt. split.
  - intros [Hpos Hlt].
    apply Qlt_Rlt in Hlt. rewrite Q2R_inject_Z, mult_IZR in Hlt.
    apply IZR_lt in Hpos.
    rewrite <- (sqrt_square (IZR limit)) by rlra.
    apply sqrt_lt_1; [exact HD | nra | exact Hlt].
  - intros Hlt.
    pose proof (sqrt_pos (Q2R D)) as Hs.
    pose proof (sqrt_sqrt (Q2R D) HD) as Hsq.
    assert (Hpos : (0 < IZR limit)%R) by rlra.
    split; [now apply lt_IZR |].
    apply Rlt_Qlt. rewrite Q2R_inject_Z, mult_IZR, <- Hsq. nra.
Qed.

(** C1 (as the code has it): for a player and a ghost of radius 8,
    [_collides] is true at distance 0, false at distance exactly 14 and false
    at distance 14.01; it is true exactly when the distance is below 14. *)
Theorem collides_threshold (player : Player.t) (ghost : Ghost.t)
    (Hplayer : Actor.radius (Player.actor player) = 8)
    (Hghost : Actor.radius ghost = 8) :
  let d := Vector.distance_to (Actor.position (Player.actor player))
                              (Actor.position ghost) in
  (d = 0%R -> Game._collides player ghost = true)
  /\ (d = 14%R -> Game._collides player ghost = false)
  /\ (d = (1401 / 100)%R -> Game._collides player ghost = false)
  /\ (Game._collides player ghost = true <-> (d < 14)%R).
Proof.
  intros d.
  assert (Hiff : Game._collides player ghost = true <-> (d < 14)%R).
  { unfold d. rewrite _collides_hypot, Hplayer, Hghost. reflexivity. }
  repeat split.
  - intros H. apply Hiff. rlra.
  - intros H. apply not_true_iff_false. rewrite Hiff. rlra.
  - intros H. apply not_true_iff_false. rewrite Hiff. rlra.
  - apply Hiff.
  - apply Hiff.
Qed.

Lemma distance_14 :
  Vector.distance_to (Actor.position (Player.actor player_at_start))
                     (Actor.position ghost_14_right) = 14%R.
Proof.
  unfold Vector.distance_to.
  assert (E : Vector.distance_sq (Actor.position (Player.actor player_at_start))
                                 (Actor.position ghost_14_right)
              = inject_Z (14 * 14)) by (vm_compute; reflexivity).
  rewrite E, Q2R_inject_Z, mult_IZR.
  apply sqrt_square. rlra.
Qed.

Lemma collides_threshold_at_14 :
  Actor.radius (Player.actor player_at_start) = 8
  /\ Actor.radius ghost_14_right = 8
  /\ Game._collides player_at_start ghost_14_right = false.
Proof.
  split; [reflexivity | split; [reflexivity |]].
  destruct (collides_threshold player_at_start ghost_14_right eq_refl eq_refl)
    as (_ & H14 & _).
  exact (H14 distance_14).
Defined.

(** The scenario of the specification at distance exactly 14: both radii are
    8, the distance is 14, and [_collides] answers false. *)
Lemma collides_false_at_distance_14 :
  Actor.radius (Player.actor player_at_start) = 8
  /\ Actor.radius ghost_14_right = 8
  /\ Vector.distance_to (Actor.position (Player.actor player_at_start))
                        (Actor.position ghost_14_right) = 14%R
  /\ Game._collides player_at_start ghost_14_right <> true.
Proof.
  split; [reflexivity | split; [reflexivity | split; [exact distance_14 |]]].
  now vm_compute.
Qed.

(** ** Scanning a layout *)

Lemma enumerate_from_In {A : Type} (l : list A) (i k : Z) (a : A) :
  In (k, a) (enumerate_from i l)
  <-> exists n : nat, k = i + Z.of_nat n /\ nth_error l n = Some a.
Proof.
  revert i. induction l as [| b l IH]; intros i; cbn [enumerate_from In].
  - split; [tauto | intros (n & _ & H); destruct n; discriminate].
  - rewrite IH. split.
    + intros [E | (n & -> & Hn)].
      * inversion E; subst. exists 0%nat. split; [lia | reflexivity].
      * exists (S n). split; [lia | exact Hn].
    + intros ([| n] & -> & Hn); cbn in Hn.
      * left. inversion Hn. f_equal. lia.
      * right. exists n. split; [lia | exact Hn].
Qed.

Lemma enumerate_from_functional {A : Type} (l : list A) (i k : Z) (a b : A) :
  In (k, a) (enumerate_from i l) -> In (k, b) (enumerate_from i l) -> a = b.
Proof.
  rewrite !enumerate_from_In. intros (n & -> & Hn) (n' & E & Hn').
  assert (n = n') by lia. subst. congruence.
Qed.

Lemma enumerate_from_values {A : Type} (l : list A) (i : Z) (a : A) :
  In a l <-> exists k, In (k, a) (enumerate_from i l).
Proof.
  revert i. induction l as [| b l IH]; intros i; cbn [enumerate_from In].
  - split; [tauto | intros [_ []]].
  - rewrite (IH (i + 1)). split.
    + intros [-> | [k Hk]]; [exists i; now left | exists k; now right].
    + intros [k [E | Hk]]; [left; congruence | right; now exists k].
Qed.

Section Scan.

Variable row : Z.

Lemma scan_char_pellets (cells : list (Z * ascii)) (acc : PelletSet.t) (t : TilePos) :
  t ∈ PelletSet.pellets (fold_left (PelletSet.scan_char row) cells acc)
  <-> t ∈ PelletSet.pellets acc \/ (snd t = row /\ In (fst t, "."%char) cells).
Proof.
  revert acc. induction cells as [| [col char] cells IH]; intros acc; cbn [fold_left In].
  - tauto.
  - rewrite IH. unfold PelletSet.scan_char.
    destruct (Ascii.eqb_spec char "."); [| destruct (Ascii.eqb_spec char "o")];
      cbn [PelletSet.pellets]; destruct t as [c r]; cbn [fst snd].
    + subst char. rewrite elem_of_union, elem_of_singleton. split.
      * intros [[E | H] | H]; [inversion E; subst; right; split; [| left] | |]; tauto.
      * intros [H | [Hr [E | H]]]; [tauto | inversion E; subst; left; left | tauto].
        reflexivity.
    + split; [tauto |]. intros [H | [Hr [E | H]]]; [tauto | | tauto].
      inversion E; subst. discriminate.
    + split; [tauto |]. intros [H | [Hr [E | H]]]; [tauto | | tauto].
      inversion E; subst. contradiction.
Qed.

Lemma scan_char_power (cells : list (Z * ascii)) (acc : PelletSet.t) (t : TilePos) :
  t ∈ PelletSet.power_pellets (fold_left (PelletSet.scan_char row) cells acc)
  <-> t ∈ PelletSet.power_pellets acc \/ (snd t = row /\ In (fst t, "o"%char) cells).
Proof.
  revert acc. induction cells as [| [col char] cells IH]; intros acc; cbn [fold_left In].
  - tauto.
  - rewrite IH. unfold PelletSet.scan_char.
    destruct (Ascii.eqb_spec char "."); [| destruct (Ascii.eqb_spec char "o")];
      cbn [PelletSet.power_pellets]; destruct t as [c r]; cbn [fst snd].
    + split; [tauto |]. intros [H | [Hr [E | H]]]; [tauto | | tauto].
      inversion E; subst. discriminate.
    + subst char. rewrite elem_of_union, elem_of_singleton. split.
      * intros [[E | H] | H]; [inversion E; subst; right; split; [| left] | |]; tauto.
      * intros [H | [Hr [E | H]]]; [tauto | inversion E; subst; left; left | tauto].
        reflexivity.
    + split; [tauto |]. intros [H | [Hr [E | H]]]; [tauto | | tauto].
      inversion E; subst. contradiction.
Qed.

End Scan.

Lemma scan_line_pellets (rows : list (Z * string)) (acc : PelletSet.t) (t : TilePos) :
  t ∈ PelletSet.pellets (fold_left PelletSet.scan_line rows acc)
  <-> t ∈ PelletSet.pellets acc \/ marks rows t ".".
Proof.
  revert acc. induction rows as [| [row line] rows IH]; intros acc; cbn [fold_left].
  - split; [tauto | intros [H | (l & [] & _)]; exact H].
  - rewrite IH. unfold PelletSet.scan_line. cbv beta iota. rewrite scan_char_pellets.
    unfold marks. cbn [In]. split.
    + intros [[H | [Hr H]] | (l & Hl & H)]; [tauto | |].
      * right. exists line. split; [left; now rewrite Hr | exact H].
      * right. exists l. split; [now right | exact H].
    + intros [H | (l & [E | Hl] & H)]; [tauto | |].
      * inversion E; subst. left. right. split; [reflexivity | exact H].
      * right. exists l. split; assumption.
Qed.

Lemma scan_line_power (rows : list (Z * string)) (acc : PelletSet.t) (t : TilePos) :
  t ∈ PelletSet.power_pellets (fold_left PelletSet.scan_line rows acc)
  <-> t ∈ PelletSet.power_pellets acc \/ marks rows t "o".
Proof.
  revert acc. induction rows as [| [row line] rows IH]; intros acc; cbn [fold_left].
  - split; [tauto | intros [H | (l & [] & _)]; exact H].
  - rewrite IH. unfold PelletSet.scan_line. cbv beta iota. rewrite scan_char_power.
    unfold marks. cbn [In]. split.
    + intros [[H | [Hr H]] | (l & Hl & H)]; [tauto | |].
      * right. exists line. split; [left; now rewrite Hr | exact H].
      * right. exists l. split; [now right | exact H].
    + intros [H | (l & [E | Hl] & H)]; [tauto | |].
      * inversion E; subst. left. right. split; [reflexivity | exact H].
      * right. exists l. split; assumption.
Qed.

(** A layout cell is either a pellet or a power pellet, never both. *)
Lemma from_layout_disjoint (layout : list string) :
  PelletSet.pellets (PelletSet.from_layout layout)
  ## PelletSet.power_pellets (PelletSet.from_layout layout).
Proof.
  intros t Hp Ho. unfold PelletSet.from_layout in Hp, Ho.
  apply scan_line_pellets in Hp. apply scan_line_power in Ho.
  cbn [PelletSet.pellets PelletSet.power_pellets] in Hp, Ho.
  destruct Hp as [Hp | (l1 & Hl1 & H1)]; [set_solver |].
  destruct Ho as [Ho | (l2 & Hl2 & H2)]; [set_solver |].
  assert (l1 = l2) by (eapply enumerate_from_functional; eassumption). subst l2.
  assert (E : "."%char = "o"%char) by (eapply enumerate_from_functional; eassumption).
  discriminate E.
Qed.

(** ** Maze construction *)

Lemma _validate_rows_ok (w : Z) (rows : list (Z * string)) :
  Maze._validate_rows w rows = Ok tt
  <-> forall row line, In (row, line) rows -> len line = w.
Proof.
  induction rows as [| [row line] rows IH]; cbn [Maze._validate_rows In].
  - split; [intros _ ? ? [] | reflexivity].
  - destruct (Z.eqb_spec (len line) w) as [E | N]; cbn [negb].
    + rewrite IH. split.
      * intros H r l [X | X]; [injection X as _ <-; exact E | eauto].
      * intros H r l X. eauto.
    + split; [discriminate |]. intros H. exfalso. apply N. eauto.
Qed.

Lemma _validate_rows_cases (w : Z) (rows : list (Z * string)) :
  Maze._validate_rows w rows = Ok tt
  \/ exists row line, In (row, line) rows /\ len line <> w
       /\ Maze._validate_rows w rows = Raise (Maze.InconsistentWidth row (len line) w).
Proof.
  induction rows as [| [row line] rows IH]; cbn [Maze._validate_rows In].
  - now left.
  - destruct (Z.eqb_spec (len line) w) as [E | N]; cbn [negb].
    + destruct IH as [IH | (r & l & Hin & Hne & IH)]; [now left |].
      right. exists r, l. auto.
    + right. exists row, line. auto.
Qed.

Lemma _find_in_line_none (char : ascii) (row : Z) (cells : list (Z * ascii)) :
  Maze._find_in_line char row cells = None
  <-> forall col, ~ In (col, char) cells.
Proof.
  induction cells as [| [col cell] cells IH]; cbn [Maze._find_in_line In].
  - split; [intros _ ? [] | reflexivity].
  - destruct (Ascii.eqb_spec cell char) as [E | N].
    + split; [discriminate |]. intros H. exfalso. apply (H col). left. now subst.
    + rewrite IH. split.
      * intros H c [X | X]; [inversion X; contradiction | now apply (H c)].
      * intros H c X. apply (H c). now right.
Qed.

Lemma _find_in_rows_none (char : ascii) (rows : list (Z * string)) :
  Maze._find_in_rows char rows = None
  <-> forall row line, In (row, line) rows -> ~ In char (list_ascii_of_string line).
Proof.
  induction rows as [| [row line] rows IH]; cbn [Maze._find_in_rows In].
  - split; [intros _ ? ? [] | reflexivity].
  - destruct (Maze._find_in_line char row _) eqn:E.
    + split; [discriminate |]. intros H. exfalso.
      assert (N : Maze._find_in_line char row
                    (enumerate (list_ascii_of_string line)) <> None) by congruence.
      apply N. apply _find_in_line_none. intros col Hin.
      apply (H row line); [now left |].
      apply (enumerate_from_values _ 0). now exists col.
    + rewrite IH. rewrite _find_in_line_none in E. split.
      * intros H r l [X | X]; [inversion X; subst | now apply (H r l)].
        intros Hin. apply (enumerate_from_values _ 0) in Hin.
        destruct Hin as [col Hcol]. now apply (E col).
      * intros H r l X. apply (H r l). now right.
Qed.

(** C7: constructing a maze raises exactly when the row list is empty, or a
    row's length differs from the first row's, or no row contains 'P'; every
    other layout yields a maze.  (The exception the code raises is Python's
    ValueError.) *)
Theorem maze_init_raises_iff (layout : list string) :
  ((exists e, Maze.__init__ layout = Raise e) <-> layout_rejected layout)
  /\ (~ layout_rejected layout -> exists m, Maze.__init__ layout = Ok m).
Proof.
  assert (Hmain : (exists e, Maze.__init__ layout = Raise e) <-> layout_rejected layout).
  { unfold layout_rejected, Maze.__init__.
    destruct layout as [| first rest]; [split; eauto |].
    set (layout := first :: rest). cbn [hd].
    unfold Maze._validate_layout, Maze._find_character.
    destruct (_validate_rows_cases (len first) (enumerate layout))
      as [Hok | (row & line & Hin & Hne & Hraise)].
    - rewrite Hok. pose proof Hok as Hall. rewrite _validate_rows_ok in Hall.
      destruct (Maze._find_in_rows "P" (enumerate layout)) as [pos |] eqn:Hfind.
      + split; [intros [e He]; discriminate |].
        intros [H | [(line & Hin & Hne) | H]]; [discriminate | |].
        * exfalso. apply (enumerate_from_values _ 0) in Hin.
          destruct Hin as [k Hk]. apply Hne. exact (Hall k line Hk).
        * exfalso. assert (N : Maze._find_in_rows "P" (enumerate layout) <> None)
            by congruence.
          apply N. apply _find_in_rows_none. intros r l Hrl. apply H.
          apply (enumerate_from_values _ 0). now exists r.
      + split; [| eauto]. intros _. right. right.
        rewrite _find_in_rows_none in Hfind. intros line Hin.
        apply (enumerate_from_values _ 0) in Hin. destruct Hin as [k Hk].
        exact (Hfind k line Hk).
    - rewrite Hraise. split; [| eauto]. intros _. right. left.
      exists line. split; [| exact Hne].
      apply (enumerate_from_values _ 0). now exists row. }
  split; [exact Hmain |].
  intros Hno. destruct (Maze.__init__ layout) as [m | e] eqn:E; [eauto |].
  exfalso. apply Hno. apply Hmain. eauto.
Qed.

(** ** Pellet bookkeeping *)

Lemma maze_init_inv (layout : list string) (m : Maze.t) :
  Maze.__init__ layout = Ok m ->
  Maze.layout m = layout
  /\ Maze.pellet_template m = PelletSet.from_layout layout
  /\ Maze.pellets m = PelletSet.copy (PelletSet.from_layout layout).
Proof.
  unfold Maze.__init__. destruct layout as [| first rest]; [discriminate |].
  destruct (Maze._validate_layout _ _); [| discriminate].
  destruct (Maze._find_character _ _); [| discriminate].
  intros E. inversion E. auto.
Qed.

Lemma collect_pellet_cases (tile_pos : TilePos) (m : Maze.t) :
  let ps := Maze.pellets m in
  (tile_pos ∈ PelletSet.pellets ps
   /\ Maze.collect_pellet tile_pos m
      = (Maze.set_pellets (PelletSet.mk (PelletSet.pellets ps ∖ {[ tile_pos ]})
                                        (PelletSet.power_pellets ps)) m, 10))
  \/ ((tile_pos ∉ PelletSet.pellets ps) /\ tile_pos ∈ PelletSet.power_pellets ps
      /\ Maze.collect_pellet tile_pos m
         = (Maze.set_pellets (PelletSet.mk (PelletSet.pellets ps)
                                (PelletSet.power_pellets ps ∖ {[ tile_pos ]})) m, 50))
  \/ ((tile_pos ∉ PelletSet.pellets ps) /\ (tile_pos ∉ PelletSet.power_pellets ps)
      /\ Maze.collect_pellet tile_pos m = (m, 0)).
Proof.
  cbv zeta. unfold Maze.collect_pellet.
  destruct (decide (tile_pos ∈ PelletSet.pellets (Maze.pellets m)));
    [| destruct (decide (tile_pos ∈ PelletSet.power_pellets (Maze.pellets m)))]; auto.
Qed.

Lemma collect_pellet_template (tile_pos : TilePos) (m : Maze.t) :
  Maze.pellet_template (fst (Maze.collect_pellet tile_pos m)) = Maze.pellet_template m.
Proof.
  destruct (collect_pellet_cases tile_pos m) as [(_ & ->) | [(_ & _ & ->) | (_ & _ & ->)]];
    reflexivity.
Qed.

Lemma maze_reachable_inv (m : Maze.t) :
  maze_reachable m -> pellets_within_template m /\ template_disjoint m.
Proof.
  unfold pellets_within_template, template_disjoint.
  induction 1 as [layout m Hinit | tile_pos m _ IH | m _ IH].
  - apply maze_init_inv in Hinit. destruct Hinit as (_ & -> & ->).
    cbn. split; [split; reflexivity | apply from_layout_disjoint].
  - rewrite collect_pellet_template.
    destruct (collect_pellet_cases tile_pos m)
      as [(_ & ->) | [(_ & _ & ->) | (_ & _ & ->)]]; cbn; [| | exact IH];
      destruct IH as ((Hp & Ho) & Hd); (split; [split |]);
      try assumption; apply subseteq_difference_l; assumption.
  - cbn. destruct IH as (_ & ?). split; [split; reflexivity | assumption].
Qed.

Lemma string_get_in_range (line : string) (n : nat) :
  (n < String.length line)%nat -> exists c, String.get n line = Some c.
Proof.
  revert n. induction line as [| c0 line IH]; intros n Hn; cbn in *; [lia |].
  destruct n as [| n]; [eauto | apply IH; lia].
Qed.

Lemma collect_pellet_grid (tile_pos : TilePos) (m : Maze.t) :
  Maze.layout (fst (Maze.collect_pellet tile_pos m)) = Maze.layout m
  /\ Maze.width (fst (Maze.collect_pellet tile_pos m)) = Maze.width m
  /\ Maze.height (fst (Maze.collect_pellet tile_pos m)) = Maze.height m.
Proof.
  destruct (collect_pellet_cases tile_pos m) as [(_ & ->) | [(_ & _ & ->) | (_ & _ & ->)]];
    repeat split; reflexivity.
Qed.

(** On a maze that went through the constructor the lookup [layout[y][x]] of
    [is_wall] never fails: every in-bounds tile has a character. *)
Lemma cell_in_bounds (m : Maze.t) (x y : Z) :
  maze_reachable m ->
  0 <= x < Maze.width m -> 0 <= y < Maze.height m ->
  exists c, Maze.cell m x y = Some c.
Proof.
  intros Hm. revert x y.
  induction Hm as [layout m Hinit | tile_pos m _ IH | m _ IH]; intros x y Hx Hy.
  - unfold Maze.__init__ in Hinit. destruct layout as [| first rest]; [discriminate |].
    destruct (Maze._validate_layout (first :: rest) (len first)) as [[] |] eqn:V;
      [| discriminate].
    destruct (Maze._find_character _ _); [| discriminate].
    injection Hinit as <-. cbn [Maze.width Maze.height] in Hx, Hy.
    unfold Maze.cell. cbn [Maze.layout].
    destruct (lookup_lt_is_Some_2 (first :: rest) (Z.to_nat y)) as [line Hline];
      [cbn [length]; lia |].
    rewrite Hline. apply string_get_in_range.
    assert (Hin : In line (first :: rest)).
    { apply list_elem_of_In. eapply list_elem_of_lookup_2. exact Hline. }
    apply (enumerate_from_values _ 0) in Hin. destruct Hin as [k Hk].
    unfold Maze._validate_layout in V.
    pose proof (proj1 (_validate_rows_ok _ _) V k line Hk) as Hlen.
    unfold len in Hlen, Hx. lia.
  - destruct (collect_pellet_grid tile_pos m) as (El & Ew & Eh).
    rewrite Ew in Hx. rewrite Eh in Hy.
    destruct (IH x y Hx Hy) as [c Hc]. exists c.
    unfold Maze.cell in *. now rewrite El.
  - exact (IH x y Hx Hy).
Qed.

Lemma maze_of_ok (layout : list string) :
  match Maze.__init__ layout with Ok _ => true | Raise _ => false end = true ->
  Maze.__init__ layout = Ok (maze_of layout).
Proof.
  unfold maze_of. destruct (Maze.__init__ layout); [reflexivity | discriminate].
Qed.

Lemma game_maze_init : Maze.__init__ constants.MAZE_LAYOUT = Ok game_maze.
Proof. apply maze_of_ok. vm_compute. reflexivity. Qed.

Lemma game_maze_reachable : maze_reachable game_maze.
Proof. exact (reach_init _ _ game_maze_init). Qed.

(** C8: in every state a maze can reach (after construction and after any
    sequence of [collect_pellet] and [reset_pellets]) the current plain
    pellets are a subset of the template's plain pellets and the current power
    pellets a subset of the template's power pellets. *)
Theorem pellets_subset_of_template (m : Maze.t) (Hm : maze_reachable m) :
  PelletSet.pellets (Maze.pellets m) ⊆ PelletSet.pellets (Maze.pellet_template m)
  /\ PelletSet.power_pellets (Maze.pellets m)
     ⊆ PelletSet.power_pellets (Maze.pellet_template m).
Proof. exact (proj1 (maze_reachable_inv m Hm)). Qed.

Lemma pellets_subset_of_template_after_eating :
  let m := Maze.reset_pellets (fst (Maze.collect_pellet (1, 1) game_maze)) in
  maze_reachable m
  /\ PelletSet.pellets (Maze.pellets m) ⊆ PelletSet.pellets (Maze.pellet_template m)
  /\ PelletSet.power_pellets (Maze.pellets m)
     ⊆ PelletSet.power_pellets (Maze.pellet_template m).
Proof.
  assert (H : maze_reachable
                (Maze.reset_pellets (fst (Maze.collect_pellet (1, 1) game_maze))))
    by (apply reach_reset, reach_collect, game_maze_reachable).
  split; [exact H |].
  exact (pellets_subset_of_template _ H).
Defined.

Lemma remaining_pellets_nonneg (m : Maze.t) : 0 <= Maze.remaining_pellets m.
Proof. unfold Maze.remaining_pellets. lia. Qed.

(** C3: on every reachable maze and every tile t, [collect_pellet t] removes
    t from the plain pellets and returns 10 when t is a plain pellet, removes
    t from the power pellets and returns 50 when t is a power pellet, and
    otherwise returns 0 and leaves the maze as it is; a second call on the
    same tile returns 0 and changes nothing; [remaining_pellets] is never
    negative and drops by one exactly when a pellet was collected. *)
Theorem collect_pellet_spec (m : Maze.t) (Hm : maze_reachable m) (t : TilePos) :
  let ps := Maze.pellets m in
  let m1 := fst (Maze.collect_pellet t m) in
  let gained := snd (Maze.collect_pellet t m) in
  (t ∈ PelletSet.pellets ps ->
     gained = 10
     /\ PelletSet.pellets (Maze.pellets m1) = PelletSet.pellets ps ∖ {[ t ]}
     /\ PelletSet.power_pellets (Maze.pellets m1) = PelletSet.power_pellets ps)
  /\ (t ∈ PelletSet.power_pellets ps ->
     gained = 50
     /\ PelletSet.power_pellets (Maze.pellets m1) = PelletSet.power_pellets ps ∖ {[ t ]}
     /\ PelletSet.pellets (Maze.pellets m1) = PelletSet.pellets ps)
  /\ ((t ∉ PelletSet.pellets ps) -> (t ∉ PelletSet.power_pellets ps) ->
     gained = 0 /\ m1 = m)
  /\ Maze.collect_pellet t m1 = (m1, 0)
  /\ 0 <= Maze.remaining_pellets m
  /\ 0 <= Maze.remaining_pellets m1
  /\ Maze.remaining_pellets m1
     = Maze.remaining_pellets m - (if gained =? 0 then 0 else 1).
Proof.
  cbv zeta.
  destruct (maze_reachable_inv m Hm) as ((Hsub & Hpow) & Hdisj).
  assert (Hexcl : t ∈ PelletSet.pellets (Maze.pellets m) ->
                  t ∈ PelletSet.power_pellets (Maze.pellets m) -> False).
  { intros H1 H2. exact (Hdisj t (Hsub t H1) (Hpow t H2)). }
  destruct (collect_pellet_cases t m)
    as [(Hin & E) | [(Hnp & Hin & E) | (Hnp & Hno & E)]]; rewrite E; cbn [fst snd];
    refine (conj _ (conj _ (conj _ (conj _ (conj _ (conj _ _))))));
    try apply remaining_pellets_nonneg.
  - intros _. cbn. auto.
  - intros H. exfalso. exact (Hexcl Hin H).
  - intros H. contradiction.
  - unfold Maze.collect_pellet. cbn.
    rewrite decide_False
      by (apply not_elem_of_difference; right; now apply elem_of_singleton).
    rewrite decide_False by (intros H; exact (Hexcl Hin H)). reflexivity.
  - unfold Maze.remaining_pellets. cbn.
    rewrite size_difference by (apply singleton_subseteq_l; exact Hin).
    rewrite size_singleton.
    assert (size (PelletSet.pellets (Maze.pellets m)) <> 0%nat).
    { apply size_non_empty_iff. set_solver. }
    lia.
  - intros H. contradiction.
  - intros _. cbn. auto.
  - intros _ H. contradiction.
  - unfold Maze.collect_pellet. cbn.
    rewrite decide_False by exact Hnp.
    rewrite decide_False
      by (apply not_elem_of_difference; right; now apply elem_of_singleton).
    reflexivity.
  - unfold Maze.remaining_pellets. cbn.
    rewrite size_difference by (apply singleton_subseteq_l; exact Hin).
    rewrite size_singleton.
    assert (size (PelletSet.power_pellets (Maze.pellets m)) <> 0%nat).
    { apply size_non_empty_iff. set_solver. }
    lia.
  - intros H. contradiction.
  - intros H. contradiction.
  - auto.
  - exact E.
  - cbn. lia.
Qed.

Lemma collect_pellet_spec_first_pellet :
  maze_reachable game_maze
  /\ Maze.collect_pellet (1, 1) (fst (Maze.collect_pellet (1, 1) game_maze))
     = (fst (Maze.collect_pellet (1, 1) game_maze), 0).
Proof.
  split; [exact game_maze_reachable |].
  exact (proj1 (proj2 (proj2 (proj2
           (collect_pellet_spec game_maze game_maze_reachable (1, 1)))))).
Defined.

(** ** Ghost wandering *)

Lemma choice_In {A : Type} (first : A) (rest : list A) (r : random.t) :
  In (fst (random.choice first rest r)) (first :: rest).
Proof.
  unfold random.choice. cbn [fst]. apply nth_In.
  apply Nat.mod_upper_bound. discriminate.
Qed.

Lemma non_reversing_In (opposite : Vector.t) (available : list Vector.t) (v : Vector.t) :
  In v (Ghost.non_reversing opposite available)
  <-> In v available /\ Vector.same v opposite = false.
Proof.
  unfold Ghost.non_reversing. rewrite filter_In, negb_true_iff. reflexivity.
Qed.

Lemma available_directions_unit (maze : Maze.t) (tile_pos : TilePos) (v : Vector.t) :
  In v (Maze.available_directions maze tile_pos) -> In v Maze.UNIT_DIRECTIONS.
Proof. unfold Maze.available_directions. rewrite filter_In. tauto. Qed.

Lemma same_iff (a b : Vector.t) :
  Vector.same a b = true
  <-> (Vector.x a == Vector.x b)%Q /\ (Vector.y a == Vector.y b)%Q.
Proof. unfold Vector.same. now rewrite andb_true_iff, !Qeq_bool_iff. Qed.

(** A unit direction cannot equal both a heading and its opposite. *)
Lemma unit_not_both (v h : Vector.t) :
  In v Maze.UNIT_DIRECTIONS ->
  Vector.same v h = true ->
  Vector.same v (Vector.mk (- Vector.x h) (- Vector.y h)) = true -> False.
Proof.
  rewrite !same_iff. cbn [Vector.x Vector.y].
  intros Hv [Hx Hy] [Hx' Hy'].
  destruct Hv as [<- | [<- | [<- | [<- | []]]]]; cbn [Vector.x Vector.y] in *; qlra.
Qed.

(** C6: on a tick where the ghost is grid-aligned, [Ghost.update] replaces the
    heading by the direction d chosen by [_choose_direction] before moving.
    Calling a direction allowed when it is available from the current tile and
    is not the exact opposite of the heading: if some direction is allowed, d
    is allowed; otherwise, if some direction is available, d is available;
    otherwise d is the opposite of the heading.  When the available
    directions are only the heading and its opposite, d is the heading
    whatever the random draw. *)
Theorem ghost_direction_choice (maze : Maze.t) (g : Ghost.t) (r : random.t) (dt : Q)
    (Haligned : Actor._aligned_with_grid g = true) :
  let tile_pos := Maze.pixel_to_tile (Actor.position g) in
  let available := Maze.available_directions maze tile_pos in
  let opposite := Vector.mk (- Vector.x (Actor.direction g))
                            (- Vector.y (Actor.direction g)) in
  let allowed := fun v => In v available /\ Vector.same v opposite = false in
  let d := fst (Ghost._choose_direction maze tile_pos g r) in
  Ghost.update dt maze g r
  = (Actor.update dt maze (Actor.set_direction d g),
     snd (Ghost._choose_direction maze tile_pos g r))
  /\ ((exists v, allowed v) -> allowed d)
  /\ (~ (exists v, allowed v) -> available <> [] -> In d available)
  /\ (~ (exists v, allowed v) -> available = [] -> d = opposite)
  /\ ((exists v, In v available /\ Vector.same v (Actor.direction g) = true) ->
      (forall v, In v available ->
         Vector.same v (Actor.direction g) = true \/ Vector.same v opposite = true) ->
      Vector.same d (Actor.direction g) = true).
Proof.
  intros tile_pos available opposite allowed d.
  assert (Hallowed : forall v, allowed v
                     <-> In v (Ghost.non_reversing opposite available)).
  { intros v. symmetry. apply non_reversing_In. }
  assert (Hd : match Ghost.non_reversing opposite available with
               | [] => match available with
                       | [] => d = opposite
                       | _ :: _ => In d available
                       end
               | _ :: _ => In d (Ghost.non_reversing opposite available)
               end).
  { unfold d, Ghost._choose_direction. fold available.
    change (Ghost.opposite_of g) with opposite.
    destruct (Ghost.non_reversing opposite available) as [| c cs].
    - destruct available as [| a rest]; [reflexivity | apply choice_In].
    - apply choice_In. }
  refine (conj _ (conj _ (conj _ (conj _ _)))).
  - unfold Ghost.update. fold tile_pos. rewrite Haligned.
    fold d. destruct (Ghost._choose_direction maze tile_pos g r). reflexivity.
  - intros [v Hv]. apply Hallowed in Hv. apply Hallowed.
    destruct (Ghost.non_reversing opposite available); [destruct Hv | exact Hd].
  - intros Hnone Hsome. revert Hd.
    destruct (Ghost.non_reversing opposite available) as [| c cs] eqn:E; intros Hd.
    + destruct available; [congruence | exact Hd].
    + exfalso. apply Hnone. exists c. apply Hallowed. now left.
  - intros Hnone Hempty. revert Hd.
    destruct (Ghost.non_reversing opposite available) as [| c cs] eqn:E; intros Hd.
    + destruct available; [exact Hd | discriminate].
    + exfalso. apply Hnone. exists c. apply Hallowed. now left.
  - intros (v & Hv & Hsame) Honly.
    assert (Hav : allowed v).
    { split; [exact Hv |]. apply not_true_iff_false. intros Hopp.
      eapply unit_not_both; [| exact Hsame | exact Hopp].
      eapply available_directions_unit. exact Hv. }
    assert (Had : allowed d).
    { apply Hallowed. apply Hallowed in Hav.
      destruct (Ghost.non_reversing opposite available); [destruct Hav | exact Hd]. }
    destruct Had as [Hin Hnot].
    destruct (Honly d Hin) as [H | H]; [exact H | congruence].
Qed.

Example corridor_ghost_available :
  Maze.available_directions game_maze (Maze.pixel_to_tile (Actor.position corridor_ghost))
  = [Vector.mk 1 0; Vector.mk (-1) 0].
Proof. vm_compute. reflexivity. Qed.

Lemma ghost_direction_choice_corridor :
  Actor._aligned_with_grid corridor_ghost = true
  /\ Ghost.update (1 # 60) game_maze corridor_ghost counting_rng
     = (Actor.update (1 # 60) game_maze
          (Actor.set_direction
             (fst (Ghost._choose_direction game_maze
                     (Maze.pixel_to_tile (Actor.position corridor_ghost))
                     corridor_ghost counting_rng))
             corridor_ghost),
        snd (Ghost._choose_direction game_maze
               (Maze.pixel_to_tile (Actor.position corridor_ghost))
               corridor_ghost counting_rng)).
Proof.
  split; [reflexivity |].
  exact (proj1 (ghost_direction_choice game_maze corridor_ghost counting_rng
                  (1 # 60) eq_refl)).
Defined.

(** ** Turning *)

Lemma half_tile_10 : (constants.HALF_TILE == 10)%Q.
Proof. reflexivity. Qed.

(** [(q - TILE_SIZE/2) % TILE_SIZE < 1] holds exactly when [q] is at a tile
    centre or less than one pixel past it. *)
Lemma past_center_iff (q : Q) :
  Qltb (py_mod (q - constants.HALF_TILE) (inject_Z constants.TILE_SIZE)) 1 = true
  <-> exists k : Z, (inject_Z (20 * k + 10) <= q /\ q < inject_Z (20 * k + 11))%Q.
Proof.
  rewrite Qltb_lt. unfold py_mod.
  change (Qfloor ((q - constants.HALF_TILE) / inject_Z constants.TILE_SIZE))
    with (py_floordiv (q - constants.HALF_TILE) constants.TILE_SIZE).
  pose proof half_tile_10 as Hh.
  change (inject_Z constants.TILE_SIZE) with 20%Q.
  split.
  - intros H.
    set (k := py_floordiv (q - constants.HALF_TILE) constants.TILE_SIZE) in *.
    assert (Hk : py_floordiv (q - constants.HALF_TILE) constants.TILE_SIZE = k)
      by reflexivity.
    apply py_floordiv_tile in Hk. exists k.
    rewrite !inject_Z_plus, !inject_Z_mult in *.
    change (inject_Z 20) with 20%Q in *. change (inject_Z 10) with 10%Q.
    change (inject_Z 11) with 11%Q.
    set (h := constants.HALF_TILE) in *. clearbody h.
    set (ik := inject_Z k) in *. clearbody ik.
    destruct Hk. split; qlra.
  - intros (k & Hlo & Hhi).
    assert (Hk : py_floordiv (q - constants.HALF_TILE) constants.TILE_SIZE = k).
    { apply py_floordiv_tile.
      rewrite !inject_Z_plus, !inject_Z_mult in *.
      change (inject_Z 20) with 20%Q in *. change (inject_Z 10) with 10%Q in *.
      change (inject_Z 11) with 11%Q in *.
      set (h := constants.HALF_TILE) in *. clearbody h. split; qlra. }
    rewrite Hk.
    rewrite !inject_Z_plus, !inject_Z_mult in *.
    change (inject_Z 20) with 20%Q in *. change (inject_Z 10) with 10%Q in *.
    change (inject_Z 11) with 11%Q in *.
    set (h := constants.HALF_TILE) in *. clearbody h. qlra.
Qed.

Lemma _aligned_with_grid_iff (a : Actor.t) :
  Actor._aligned_with_grid a = true
  <-> just_past_center (Vector.x (Actor.position a))
      /\ just_past_center (Vector.y (Actor.position a)).
Proof.
  unfold Actor._aligned_with_grid, just_past_center.
  now rewrite andb_true_iff, !past_center_iff.
Qed.

(** C5 (as the code has it): for an actor whose buffer holds a direction nd,
    if nd equals the current direction the buffer is cleared and nothing else
    changes; otherwise the turn commits (direction := nd, buffer cleared)
    exactly when [_aligned_with_grid] holds and the tile one step from the
    current tile in direction nd is not a wall, and in every other case the
    actor is unchanged (buffer pending, direction kept).  [_aligned_with_grid]
    holds exactly when, on both axes, the position is at a tile centre or less
    than one pixel past it (towards larger coordinates). *)
Theorem try_change_direction_spec (maze : Maze.t) (a : Actor.t) (nd : Vector.t)
    (Hbuffer : Actor.next_direction a = Some nd) :
  let tile_pos := Maze.pixel_to_tile (Actor.position a) in
  let target_tile := (fst tile_pos + py_int (Vector.x nd),
                      snd tile_pos + py_int (Vector.y nd)) in
  let aligned := just_past_center (Vector.x (Actor.position a))
                 /\ just_past_center (Vector.y (Actor.position a)) in
  let a' := Actor._try_change_direction maze a nd in
  (Vector.same nd (Actor.direction a) = true ->
     a' = Actor.set_next_direction None a)
  /\ (Vector.same nd (Actor.direction a) = false ->
      aligned -> Maze.is_wall maze target_tile = false ->
      a' = Actor.set_next_direction None (Actor.set_direction nd a))
  /\ (Vector.same nd (Actor.direction a) = false ->
      ~ (aligned /\ Maze.is_wall maze target_tile = false) ->
      a' = a /\ Actor.next_direction a' = Some nd
      /\ Actor.direction a' = Actor.direction a)
  /\ (Actor._aligned_with_grid a = true <-> aligned).
Proof.
  intros tile_pos target_tile aligned a'.
  assert (Hal : Actor._aligned_with_grid a = true <-> aligned)
    by apply _aligned_with_grid_iff.
  unfold a', Actor._try_change_direction. fold tile_pos. fold target_tile.
  change (Qeq_bool (Vector.x nd) (Vector.x (Actor.direction a))
          && Qeq_bool (Vector.y nd) (Vector.y (Actor.direction a)))
    with (Vector.same nd (Actor.direction a)).
  refine (conj _ (conj _ (conj _ Hal))).
  - intros ->. reflexivity.
  - intros -> Ha Hw. apply Hal in Ha. rewrite Ha, Hw. reflexivity.
  - intros -> Hnot.
    destruct (Actor._aligned_with_grid a) eqn:Ea; cbn [negb]; [| auto].
    destruct (Maze.is_wall maze target_tile) eqn:Ew; [auto |].
    exfalso. apply Hnot. split; [now apply Hal | reflexivity].
Qed.

Lemma try_change_direction_spec_at_center :
  Actor.next_direction actor_at_center = Some (Vector.mk 0 1)
  /\ Actor._try_change_direction game_maze actor_at_center (Vector.mk 0 1)
     = Actor.set_next_direction None
         (Actor.set_direction (Vector.mk 0 1) actor_at_center).
Proof.
  split; [reflexivity |].
  apply (try_change_direction_spec game_maze actor_at_center (Vector.mk 0 1) eq_refl).
  - reflexivity.
  - split; [exists 1 | exists 20]; split; now vm_compute.
  - vm_compute. reflexivity.
Defined.

(** Half a pixel before a tile centre the actor is within one pixel of it and
    the neighbour tile is free, yet the buffered turn does not commit. *)
Lemma turn_not_committed_before_center :
  Actor.next_direction actor_before_center = Some (Vector.mk 0 1)
  /\ Vector.same (Vector.mk 0 1) (Actor.direction actor_before_center) = false
  /\ within_one_pixel_of_center (Actor.position actor_before_center) = true
  /\ Maze.is_wall game_maze
       (fst (Maze.pixel_to_tile (Actor.position actor_before_center)) + 0,
        snd (Maze.pixel_to_tile (Actor.position actor_before_center)) + 1) = false
  /\ Actor._try_change_direction game_maze actor_before_center (Vector.mk 0 1)
     = actor_before_center.
Proof. vm_compute. repeat split; reflexivity. Qed.

(** ** Actors stay out of the walls *)

Section Corners.

Variable r : Q.
Hypothesis r_nonneg : (0 <= r)%Q.
Hypothesis r_small : (r < 10)%Q.

(** The tile column (or row) of a coordinate is that of one of the two
    corners at distance [r] on either side of it. *)
Lemma corner_tile (q : Q) :
  py_floordiv (q + - r) constants.TILE_SIZE = py_floordiv q constants.TILE_SIZE
  \/ py_floordiv (q + r) constants.TILE_SIZE = py_floordiv q constants.TILE_SIZE.
Proof.
  set (k := py_floordiv q constants.TILE_SIZE).
  assert (Hk : py_floordiv q constants.TILE_SIZE = k) by reflexivity.
  apply py_floordiv_tile in Hk. destruct Hk as [Hlo Hhi].
  destruct (Qlt_le_dec (q + - r) (inject_Z (20 * k))) as [Hbelow | Habove].
  - right. apply py_floordiv_tile.
    rewrite inject_Z_plus in *. change (inject_Z 20) with 20%Q in *.
    set (b := inject_Z (20 * k)) in *. clearbody b. split; qlra.
  - left. apply py_floordiv_tile.
    rewrite inject_Z_plus in *. change (inject_Z 20) with 20%Q in *.
    set (b := inject_Z (20 * k)) in *. clearbody b. split; qlra.
Qed.

(** Around a tile centre, a corner at distance [r] is still in the tile. *)
Lemma center_corner_tile (c : Z) (s : Q) :
  (s == r \/ s == - r)%Q ->
  py_floordiv (inject_Z (20 * c + 10) + s) constants.TILE_SIZE = c.
Proof.
  intros Hs. apply py_floordiv_tile.
  rewrite !inject_Z_plus. change (inject_Z 20) with 20%Q. change (inject_Z 10) with 10%Q.
  set (b := inject_Z (20 * c)). clearbody b.
  destruct Hs as [Hs | Hs]; split; qlra.
Qed.

End Corners.

Lemma collides_with_wall_false (m : Maze.t) (p : Vector.t) (r : Q) :
  Maze.collides_with_wall m p r = false
  <-> Maze.is_wall m (tile_x (Vector.x p + - r), tile_x (Vector.y p + - r)) = false
      /\ Maze.is_wall m (tile_x (Vector.x p + r), tile_x (Vector.y p + - r)) = false
      /\ Maze.is_wall m (tile_x (Vector.x p + - r), tile_x (Vector.y p + r)) = false
      /\ Maze.is_wall m (tile_x (Vector.x p + r), tile_x (Vector.y p + r)) = false.
Proof.
  unfold Maze.collides_with_wall. cbn [existsb].
  rewrite !orb_false_iff. unfold Maze.pixel_to_tile, Vector.__add__, tile_x.
  cbn [Vector.x Vector.y]. tauto.
Qed.

Lemma is_wall_false_bounds (m : Maze.t) (c w : Z) :
  Maze.is_wall m (c, w) = false ->
  0 <= c < Maze.width m /\ 0 <= w < Maze.height m.
Proof.
  unfold Maze.is_wall.
  destruct ((c <? 0) || (w <? 0) || (c >=? Maze.width m) || (w >=? Maze.height m))
    eqn:E; [discriminate |].
  intros _. rewrite !orb_false_iff in E. lia.
Qed.

Lemma free_position_tile (m : Maze.t) (p : Vector.t) (r : Q) :
  (0 <= r)%Q -> (r < 10)%Q ->
  Maze.collides_with_wall m p r = false ->
  Maze.is_wall m (Maze.pixel_to_tile p) = false.
Proof.
  intros Hr0 Hr1 Hfree. apply collides_with_wall_false in Hfree.
  destruct Hfree as (H1 & H2 & H3 & H4).
  unfold Maze.pixel_to_tile. fold (tile_x (Vector.x p)). fold (tile_x (Vector.y p)).
  destruct (corner_tile r Hr0 Hr1 (Vector.x p)) as [Ex | Ex];
    destruct (corner_tile r Hr0 Hr1 (Vector.y p)) as [Ey | Ey];
    fold (tile_x (Vector.x p + - r)) in *; fold (tile_x (Vector.x p + r)) in *;
    fold (tile_x (Vector.y p + - r)) in *; fold (tile_x (Vector.y p + r)) in *;
    fold (tile_x (Vector.x p)) in *; fold (tile_x (Vector.y p)) in *;
    rewrite <- Ex, <- Ey; assumption.
Qed.

Lemma free_position_x (m : Maze.t) (p : Vector.t) (r : Q) :
  (0 <= r)%Q ->
  Maze.collides_with_wall m p r = false ->
  (0 <= Vector.x p /\ Vector.x p < inject_Z (20 * Maze.width m))%Q.
Proof.
  intros Hr Hfree. apply collides_with_wall_false in Hfree.
  destruct Hfree as (H1 & _ & _ & H4).
  apply is_wall_false_bounds in H1, H4.
  destruct H1 as [[Hc1 _] _]. destruct H4 as [[_ Hc4] _].
  assert (E1 : py_floordiv (Vector.x p + - r) constants.TILE_SIZE
               = tile_x (Vector.x p + - r)) by reflexivity.
  assert (E4 : py_floordiv (Vector.x p + r) constants.TILE_SIZE
               = tile_x (Vector.x p + r)) by reflexivity.
  apply py_floordiv_tile in E1, E4.
  destruct E1 as [E1 _]. destruct E4 as [_ E4].
  assert (B1 : (0 <= inject_Z (20 * tile_x (Vector.x p + - r)))%Q)
    by (rewrite <- (Zle_Qle 0); lia).
  assert (B4 : (inject_Z (20 * tile_x (Vector.x p + r) + 20)
                <= inject_Z (20 * Maze.width m))%Q)
    by (rewrite <- Zle_Qle; lia).
  split; qlra.
Qed.

Lemma center_free (m : Maze.t) (c w : Z) (r : Q) :
  (0 <= r)%Q -> (r < 10)%Q ->
  Maze.is_wall m (c, w) = false ->
  Maze.collides_with_wall m (Game.center_of (c, w)) r = false.
Proof.
  intros Hr0 Hr1 Hfree. apply collides_with_wall_false.
  unfold Game.center_of. rewrite tile_to_pixel_center_eq.
  unfold Vector.of_ints, tile_x. cbn [fst snd Vector.x Vector.y].
  rewrite !(center_corner_tile r Hr0 Hr1) by (left + right; reflexivity).
  auto.
Qed.

Lemma center_x_range (m : Maze.t) (c w : Z) :
  Maze.is_wall m (c, w) = false -> Maze.width m <= constants.GRID_WIDTH ->
  (0 <= Vector.x (Game.center_of (c, w))
   /\ Vector.x (Game.center_of (c, w)) < inject_Z constants.SCREEN_WIDTH)%Q.
Proof.
  intros Hfree Hw. apply is_wall_false_bounds in Hfree.
  unfold Game.center_of. rewrite tile_to_pixel_center_eq.
  unfold Vector.of_ints. cbn [fst snd Vector.x Vector.y].
  unfold constants.SCREEN_WIDTH, constants.GRID_WIDTH, constants.TILE_SIZE in *.
  rewrite <- (Zle_Qle 0), <- Zlt_Qlt. lia.
Qed.

Lemma _try_change_direction_keeps (m : Maze.t) (a : Actor.t) (nd : Vector.t) :
  Actor.position (Actor._try_change_direction m a nd) = Actor.position a
  /\ Actor.radius (Actor._try_change_direction m a nd) = Actor.radius a.
Proof.
  unfold Actor._try_change_direction.
  repeat match goal with |- context [if ?b then _ else _] => destruct b end;
    split; reflexivity.
Qed.

Section FittingMaze.

Variable m : Maze.t.
Hypothesis maze_fits : Maze.width m <= constants.GRID_WIDTH.

Lemma actor_update_clear (dt : Q) (a : Actor.t) :
  0 <= Actor.radius a < 10 ->
  clear_of_walls m a ->
  Actor.radius (Actor.update dt m a) = Actor.radius a
  /\ clear_of_walls m (Actor.update dt m a).
Proof.
  intros Hr Hclear. unfold clear_of_walls in *.
  assert (Hr0 : (0 <= inject_Z (Actor.radius a))%Q) by (rewrite <- (Zle_Qle 0); lia).
  assert (Hr1 : (inject_Z (Actor.radius a) < 10)%Q) by (rewrite <- (Zlt_Qlt _ 10); lia).
  unfold Actor.update.
  set (a1 := match Actor.next_direction a with
             | Some nd => Actor._try_change_direction m a nd
             | None => a
             end).
  assert (Ha1 : Actor.position a1 = Actor.position a /\ Actor.radius a1 = Actor.radius a).
  { unfold a1. destruct (Actor.next_direction a);
      [apply _try_change_direction_keeps | split; reflexivity]. }
  destruct Ha1 as [Hpos Hrad].
  set (new_position := Vector.__add__ (Actor.position a1) _).
  destruct (Maze.collides_with_wall m new_position (inject_Z (Actor.radius a1))) eqn:Hnew;
    cbn [negb].
  - (* the move is refused: snap to the centre of the current tile *)
    unfold Actor._stop_at_wall. cbn [Actor.position Actor.radius Actor.set_position
      Actor.set_direction]. rewrite Hpos, Hrad.
    pose proof (free_position_tile m _ _ Hr0 Hr1 Hclear) as Htile.
    destruct (Maze.pixel_to_tile (Actor.position a)) as [c w].
    change (Vector.of_ints (Maze.tile_to_pixel_center (c, w))) with (Game.center_of (c, w)).
    rewrite wrap_position_inside by (apply (center_x_range m c w Htile maze_fits)).
    split; [reflexivity | now apply center_free].
  - (* the move is accepted *)
    cbn [Actor.position Actor.radius Actor.set_position]. rewrite Hrad in *.
    destruct (free_position_x m _ _ Hr0 Hnew) as [Hx0 Hx1].
    rewrite wrap_position_inside.
    + split; [reflexivity | exact Hnew].
    + exact Hx0.
    + eapply Qlt_le_trans; [exact Hx1 |].
      rewrite <- Zle_Qle.
      unfold constants.SCREEN_WIDTH, constants.GRID_WIDTH, constants.TILE_SIZE in *. lia.
Qed.

Lemma tick_clear (a a' : Actor.t) :
  tick m a a' -> 0 <= Actor.radius a < 10 -> clear_of_walls m a ->
  Actor.radius a' = Actor.radius a /\ clear_of_walls m a'.
Proof.
  intros Htick Hr Hclear. destruct Htick as [dt a | dt pressed p | dt g r].
  - now apply actor_update_clear.
  - unfold Player.update. cbn [Player.actor].
    assert (E : Actor.position (Player.actor (Player.handle_input pressed p))
                = Actor.position (Player.actor p)
                /\ Actor.radius (Player.actor (Player.handle_input pressed p))
                   = Actor.radius (Player.actor p)).
    { unfold Player.handle_input.
      destruct (Player.first_pressed pressed Player.direction_map); split; reflexivity. }
    destruct E as [Ep Er].
    destruct (actor_update_clear dt (Player.actor (Player.handle_input pressed p)))
      as [H1 H2].
    + now rewrite Er.
    + unfold clear_of_walls. now rewrite Ep, Er.
    + split; [now rewrite H1 | exact H2].
  - unfold Ghost.update.
    destruct (Actor._aligned_with_grid g).
    + destruct (Ghost._choose_direction m (Maze.pixel_to_tile (Actor.position g)) g r)
        as [d r'].
      cbn [fst]. now apply (actor_update_clear dt (Actor.set_direction d g)).
    + cbn [fst]. now apply actor_update_clear.
Qed.

Lemma ticks_clear (a a' : Actor.t) :
  rtc (tick m) a a' -> 0 <= Actor.radius a < 10 -> clear_of_walls m a ->
  Actor.radius a' = Actor.radius a /\ clear_of_walls m a'.
Proof.
  induction 1 as [a | a b c Hab _ IH]; intros Hr Hclear; [now split |].
  destruct (tick_clear a b Hab Hr Hclear) as [Hrb Hcb].
  destruct IH as [Hrc Hcc]; [now rewrite Hrb | exact Hcb |].
  split; [now rewrite Hrc | exact Hcc].
Qed.

End FittingMaze.

(** C2 (as the code has it): in a maze that fits the screen (at most
    GRID_WIDTH columns, as the map of the game), an actor of radius 8 (every
    Player and Ghost) that does not collide with a wall at the start of a tick
    does not collide with a wall after [Actor.update], for every dt (in
    particular dt >= 0); hence after any sequence of player, ghost or actor
    ticks from such a position the actor still does not collide with a
    wall. *)
Theorem actor_never_ends_tick_in_wall (m : Maze.t) (a : Actor.t)
    (Hfits : Maze.width m <= constants.GRID_WIDTH)
    (Hradius : Actor.radius a = 8)
    (Hstart : Maze.collides_with_wall m (Actor.position a)
                (inject_Z (Actor.radius a)) = false) :
  (forall dt : Q,
     Maze.collides_with_wall m (Actor.position (Actor.update dt m a))
       (inject_Z (Actor.radius (Actor.update dt m a))) = false)
  /\ (forall a' : Actor.t, rtc (tick m) a a' ->
        Maze.collides_with_wall m (Actor.position a')
          (inject_Z (Actor.radius a')) = false).
Proof.
  assert (Hr : 0 <= Actor.radius a < 10) by lia.
  split.
  - intros dt. now apply actor_update_clear.
  - intros a' Hticks. now apply (ticks_clear m Hfits a a' Hticks).
Qed.

Lemma actor_never_ends_tick_in_wall_player_start :
  Maze.width game_maze <= constants.GRID_WIDTH
  /\ Actor.radius (Player.actor player_at_start) = 8
  /\ Maze.collides_with_wall game_maze (Actor.position (Player.actor player_at_start))
       (inject_Z (Actor.radius (Player.actor player_at_start))) = false
  /\ Maze.collides_with_wall game_maze
       (Actor.position (Actor.update (1 # 60) game_maze (Player.actor player_at_start)))
       (inject_Z (Actor.radius
          (Actor.update (1 # 60) game_maze (Player.actor player_at_start)))) = false.
Proof.
  assert (Hfits : Maze.width game_maze <= constants.GRID_WIDTH) by now vm_compute.
  assert (Hstart : Maze.collides_with_wall game_maze
                     (Actor.position (Player.actor player_at_start))
                     (inject_Z (Actor.radius (Player.actor player_at_start))) = false)
    by (vm_compute; reflexivity).
  split; [exact Hfits | split; [reflexivity | split; [exact Hstart |]]].
  exact (proj1 (actor_never_ends_tick_in_wall game_maze (Player.actor player_at_start)
                  Hfits eq_refl Hstart) (1 # 60)).
Defined.

(** In a maze of 30 columns the invariant fails: the player created at its start
    tile (28, 1) has radius 8 and collides with no wall; after one update of
    1/60 s it has moved 2 pixels left, to x = 568, which is at or beyond
    SCREEN_WIDTH = 560, so [wrap_position] puts it at x = 10, inside the wall
    of column 0. *)
Lemma wide_maze_player_wrapped_into_wall :
  let m := maze_of wide_layout in
  let p := Player.__init__ (Game.center_of (Maze.player_start m)) in
  Maze.__init__ wide_layout = Ok m
  /\ Actor.radius (Player.actor p) = 8
  /\ Maze.collides_with_wall m (Actor.position (Player.actor p))
       (inject_Z (Actor.radius (Player.actor p))) = false
  /\ (Vector.x (Actor.position (Actor.update (1 # 60) m (Player.actor p))) == 10)%Q
  /\ (Vector.y (Actor.position (Actor.update (1 # 60) m (Player.actor p))) == 30)%Q
  /\ Maze.collides_with_wall m
       (Actor.position (Actor.update (1 # 60) m (Player.actor p)))
       (inject_Z (Actor.radius (Actor.update (1 # 60) m (Player.actor p)))) = true.
Proof.
  cbv zeta. split; [apply maze_of_ok; vm_compute; reflexivity |].
  repeat split; vm_compute; reflexivity.
Qed.

(** ** The game controller *)

Lemma spawn_ghosts_length (starts : list TilePos) (i : nat) (base_speed : Z) (r : random.t) :
  length (fst (Game.spawn_ghosts starts i base_speed r)) = length starts.
Proof.
  revert i r. induction starts as [| start rest IH]; intros i r; [reflexivity |].
  cbn [Game.spawn_ghosts].
  destruct (Ghost.__init__ _ _ _ r) as [ghost r1].
  specialize (IH (S i) r1).
  destruct (Game.spawn_ghosts rest (S i) base_speed r1) as [more r2].
  cbn [fst length] in *. now rewrite IH.
Qed.

Lemma update_ghosts_length (dt : Q) (m : Maze.t) (gs : list Ghost.t) (r : random.t) :
  length (fst (Game.update_ghosts dt m gs r)) = length gs.
Proof.
  revert r. induction gs as [| ghost rest IH]; intros r; [reflexivity |].
  cbn [Game.update_ghosts].
  destruct (Ghost.update dt m ghost r) as [ghost' r1].
  specialize (IH r1).
  destruct (Game.update_ghosts dt m rest r1) as [rest' r2].
  cbn [fst length] in *. now rewrite IH.
Qed.

Lemma reset_ghosts_length (ghosts : list Ghost.t) (starts : list TilePos) :
  length (Game.reset_ghosts ghosts starts) = length ghosts.
Proof.
  revert starts. induction ghosts as [| g gs IH]; intros [| s ss]; cbn; auto.
Qed.

Lemma reset_ghosts_positions (ghosts : list Ghost.t) (starts : list TilePos) :
  length ghosts = length starts ->
  Forall2 (fun ghost start => Actor.position ghost = Game.center_of start)
          (Game.reset_ghosts ghosts starts) starts.
Proof.
  revert starts. induction ghosts as [| g gs IH]; intros [| s ss] Hlen;
    try discriminate; cbn [Game.reset_ghosts].
  - constructor.
  - constructor; [reflexivity | apply IH; now injection Hlen].
Qed.

Lemma collect_pellet_layout (tile_pos : TilePos) (m : Maze.t) :
  Maze.ghost_starts (fst (Maze.collect_pellet tile_pos m)) = Maze.ghost_starts m
  /\ Maze.player_start (fst (Maze.collect_pellet tile_pos m)) = Maze.player_start m.
Proof.
  destruct (collect_pellet_cases tile_pos m) as [(_ & ->) | [(_ & _ & ->) | (_ & _ & ->)]];
    split; reflexivity.
Qed.

Lemma _create_entities_inv (g : Game.t) : game_inv (Game._create_entities g).
Proof.
  unfold game_inv, Game._create_entities, Maze.ghost_spawn_points.
  pose proof (spawn_ghosts_length (Maze.ghost_starts (Game.maze g)) 0
                (90 + (Game.level g - 1) * 10) (Game.rng g)) as Hlen.
  destruct (Game.spawn_ghosts _ _ _ _) as [gs r]. cbn in *. eauto.
Qed.

Lemma _create_entities_frame (g : Game.t) :
  Game.maze (Game._create_entities g) = Game.maze g
  /\ Game.state (Game._create_entities g) = Game.state g.
Proof.
  unfold Game._create_entities.
  destruct (Game.spawn_ghosts _ _ _ _) as [gs r]. split; reflexivity.
Qed.

Lemma reset_positions_inv (g : Game.t) : game_inv g -> game_inv (Game.reset_positions g).
Proof.
  unfold game_inv, Game.reset_positions. intros [[p Hp] Hlen]. rewrite Hp.
  cbn. rewrite reset_ghosts_length. eauto.
Qed.

Lemma check_ghosts_inv (p : Player.t) (remaining : list Ghost.t) (g : Game.t) :
  game_inv g -> game_inv (Game.check_ghosts p remaining g).
Proof.
  intros Hinv. induction remaining as [| ghost rest IH]; cbn [Game.check_ghosts];
    [exact Hinv |].
  destruct (Game._collides p ghost); [| exact IH].
  destruct (Game.lives (Game.set_lives (Game.lives g - 1) g) <=? 0).
  - exact Hinv.
  - apply reset_positions_inv. exact Hinv.
Qed.

Lemma advance_inv (dt : Q) (p0 : Player.t) (g : Game.t) :
  game_inv g -> game_inv (Game.advance dt p0 g).
Proof.
  unfold game_inv, Game.advance. intros [_ Hlen].
  pose proof (update_ghosts_length dt (Game.maze g) (Game.ghosts g) (Game.rng g)) as Hgs.
  destruct (Game.update_ghosts _ _ _ _) as [gs r].
  pose proof (collect_pellet_layout
                (Maze.pixel_to_tile (Actor.position (Player.actor (Game.move_player dt p0 g))))
                (Game.maze g)) as [Hstarts _].
  destruct (Maze.collect_pellet _ _) as [m gained].
  cbn in *. split; [eauto | congruence].
Qed.

Lemma update_inv (dt : Q) (g : Game.t) : game_inv g -> game_inv (Game.update dt g).
Proof.
  intros Hinv. unfold Game.update.
  destruct (Game.player g) as [p0 |]; [| exact Hinv].
  destruct (Maze.remaining_pellets _ =? 0).
  - pose proof (_create_entities_inv
      (Game.set_maze
         (Maze.reset_pellets (Game.maze (Game.set_level (Game.level (Game.advance dt p0 g) + 1)
                                           (Game.advance dt p0 g))))
         (Game.set_level (Game.level (Game.advance dt p0 g) + 1) (Game.advance dt p0 g))))
      as H.
    exact H.
  - apply check_ghosts_inv. now apply advance_inv.
Qed.

Lemma start_new_game_inv (g : Game.t) : game_inv (Game.start_new_game g).
Proof.
  unfold Game.start_new_game.
  match goal with |- context [Game._create_entities ?x] =>
    pose proof (_create_entities_inv x) as H end.
  exact H.
Qed.

Lemma game_reachable_inv (g : Game.t) : game_reachable g -> game_inv g.
Proof.
  induction 1 as [r g Hinit | dt g _ IH | key g _ IH | key g _ IH].
  - unfold Game.__init__ in Hinit.
    destruct (Maze.__init__ constants.MAZE_LAYOUT); [| discriminate].
    injection Hinit as <-. apply _create_entities_inv.
  - unfold Game._frame. destruct (negb (Game.running g)); [exact IH |].
    destruct (Game.state g); try exact IH. now apply (update_inv dt g).
  - unfold Game._on_key_press.
    destruct (String.eqb key "Escape"); [exact IH |].
    destruct (Game.state g).
    + destruct (String.eqb key "Return" || String.eqb key "space");
        [apply start_new_game_inv | exact IH].
    + exact IH.
    + apply start_new_game_inv.
  - exact IH.
Qed.

Lemma advance_frame (dt : Q) (p0 : Player.t) (g : Game.t) :
  Game.state (Game.advance dt p0 g) = Game.state g
  /\ Game.lives (Game.advance dt p0 g) = Game.lives g
  /\ Game.level (Game.advance dt p0 g) = Game.level g
  /\ Game.player (Game.advance dt p0 g) = Some (Game.move_player dt p0 g).
Proof.
  unfold Game.advance.
  destruct (Game.update_ghosts _ _ _ _) as [gs r].
  destruct (Maze.collect_pellet _ _) as [m gained].
  repeat split; reflexivity.
Qed.

Lemma reset_positions_fields (g : Game.t) (p : Player.t) :
  Game.player g = Some p ->
  Game.state (Game.reset_positions g) = Game.state g
  /\ Game.score (Game.reset_positions g) = Game.score g
  /\ Game.level (Game.reset_positions g) = Game.level g
  /\ Game.maze (Game.reset_positions g) = Game.maze g
  /\ Game.lives (Game.reset_positions g) = Game.lives g
  /\ Game.ghosts (Game.reset_positions g)
     = Game.reset_ghosts (Game.ghosts g) (Maze.ghost_spawn_points (Game.maze g))
  /\ exists p', Game.player (Game.reset_positions g) = Some p'
       /\ Actor.position (Player.actor p')
          = Game.center_of (Maze.player_start (Game.maze g)).
Proof.
  intros Hp. unfold Game.reset_positions. rewrite Hp.
  refine (conj eq_refl (conj eq_refl (conj eq_refl (conj eq_refl
           (conj eq_refl (conj eq_refl _)))))).
  eexists. split; reflexivity.
Qed.

Lemma check_ghosts_hit (p : Player.t) (remaining : list Ghost.t) (g : Game.t) :
  (exists ghost, In ghost remaining /\ Game._collides p ghost = true) ->
  0 < Game.lives g - 1 ->
  Game.check_ghosts p remaining g
  = Game.reset_positions (Game.set_lives (Game.lives g - 1) g).
Proof.
  intros Hhit Hlives.
  induction remaining as [| ghost rest IH]; [destruct Hhit as (? & [] & _) |].
  cbn [Game.check_ghosts].
  destruct (Game._collides p ghost) eqn:E.
  - cbn [Game.lives Game.set_lives].
    destruct (Z.leb_spec (Game.lives g - 1) 0); [lia | reflexivity].
  - apply IH. destruct Hhit as (c & [-> | Hin] & Hc); [congruence | eauto].
Qed.

(** The loop stops at the first colliding ghost: what follows it in the list
    is not looked at. *)
Lemma check_ghosts_first (p : Player.t) (pre post : list Ghost.t) (c : Ghost.t)
    (g : Game.t) :
  Game._collides p c = true ->
  Game.check_ghosts p (pre ++ c :: post) g = Game.check_ghosts p (pre ++ [c]) g.
Proof.
  intros Hc. induction pre as [| x pre IH]; cbn [app Game.check_ghosts].
  - now rewrite Hc.
  - destruct (Game._collides p x); [reflexivity | exact IH].
Qed.

(** C9 (as the code has it): on a Playing tick of a reachable game that
    reaches the collision check (pellets remain after the player's move) and
    in which some ghost collides with the moved player while lives - 1 is
    still above 0: the state stays Playing; score, level and both current
    pellet sets are as the first half of the tick left them; one life is
    lost; the player and every ghost stand at the pixel centres of their
    start tiles; and the outcome is that of the loop cut after the first
    colliding ghost. *)
Theorem collision_resets_positions (g : Game.t) (dt : Q) (p0 : Player.t)
    (Hreach : game_reachable g)
    (Hstate : Game.state g = Game.PLAYING)
    (Hplayer : Game.player g = Some p0)
    (Hpellets : Maze.remaining_pellets (Game.maze (Game.advance dt p0 g)) <> 0)
    (Hhit : exists ghost, In ghost (Game.ghosts (Game.advance dt p0 g))
                          /\ Game._collides (Game.move_player dt p0 g) ghost = true)
    (Hlives : 0 < Game.lives g - 1) :
  let p := Game.move_player dt p0 g in
  let g1 := Game.advance dt p0 g in
  let g' := Game.update dt g in
  Game.state g' = Game.PLAYING
  /\ Game.score g' = Game.score g1
  /\ Game.level g' = Game.level g
  /\ Maze.pellets (Game.maze g') = Maze.pellets (Game.maze g1)
  /\ Game.lives g' = Game.lives g - 1
  /\ (exists p', Game.player g' = Some p'
                 /\ Actor.position (Player.actor p')
                    = Game.center_of (Maze.player_start (Game.maze g')))
  /\ Forall2 (fun ghost start => Actor.position ghost = Game.center_of start)
             (Game.ghosts g') (Maze.ghost_spawn_points (Game.maze g'))
  /\ (forall pre c post,
        Game.ghosts g1 = pre ++ c :: post -> Game._collides p c = true ->
        g' = Game.check_ghosts p (pre ++ [c]) g1).
Proof.
  intros p g1 g'.
  destruct (advance_frame dt p0 g) as (Hs1 & Hl1 & Hv1 & Hp1).
  fold g1 in Hs1, Hl1, Hv1, Hp1. fold p in Hp1.
  assert (Hinv1 : game_inv g1).
  { apply advance_inv. now apply game_reachable_inv. }
  assert (Hg' : g' = Game.check_ghosts p (Game.ghosts g1) g1).
  { unfold g', Game.update. rewrite Hplayer. fold p. fold g1.
    destruct (Z.eqb_spec (Maze.remaining_pellets (Game.maze g1)) 0);
      [contradiction | reflexivity]. }
  assert (Hreset : g' = Game.reset_positions (Game.set_lives (Game.lives g1 - 1) g1)).
  { rewrite Hg'. apply check_ghosts_hit; [exact Hhit | lia]. }
  assert (Hfields : Game.state g' = Game.state g1 /\ Game.score g' = Game.score g1
                    /\ Game.level g' = Game.level g1 /\ Game.maze g' = Game.maze g1
                    /\ Game.lives g' = Game.lives g1 - 1
                    /\ Game.ghosts g'
                       = Game.reset_ghosts (Game.ghosts g1)
                           (Maze.ghost_spawn_points (Game.maze g1))
                    /\ exists p', Game.player g' = Some p'
                         /\ Actor.position (Player.actor p')
                            = Game.center_of (Maze.player_start (Game.maze g1))).
  { rewrite Hreset.
    apply (reset_positions_fields (Game.set_lives (Game.lives g1 - 1) g1) p).
    exact Hp1. }
  destruct Hfields as (Fs & Fc & Fv & Fm & Fl & Fg & Fp).
  refine (conj _ (conj Fc (conj _ (conj _ (conj _ (conj _ (conj _ _))))))).
  - congruence.
  - congruence.
  - now rewrite Fm.
  - lia.
  - rewrite Fm. exact Fp.
  - rewrite Fg, Fm. apply reset_ghosts_positions. apply Hinv1.
  - intros pre c post Hsplit Hc. rewrite Hg', Hsplit. now apply check_ghosts_first.
Qed.

Lemma game_init_ok (r : random.t) : Game.__init__ r = Ok (game_of r).
Proof. unfold game_of, Game.__init__. rewrite game_maze_init. reflexivity. Qed.

Lemma game_before_hit_reachable : game_reachable game_before_hit.
Proof.
  apply game_frame, game_key_press, (game_start steady_rng).
  apply game_init_ok.
Qed.

Example game_before_hit_lives : Game.lives game_before_hit = 3.
Proof. vm_compute. reflexivity. Qed.

Lemma collision_resets_positions_second_frame :
  game_reachable game_before_hit
  /\ Game.state game_before_hit = Game.PLAYING
  /\ Game.player game_before_hit = Some player_before_hit
  /\ 0 < Game.lives game_before_hit - 1
  /\ Game.state (Game.update (16 # 9) game_before_hit) = Game.PLAYING
  /\ Game.lives (Game.update (16 # 9) game_before_hit)
     = Game.lives game_before_hit - 1.
Proof.
  assert (Hstate : Game.state game_before_hit = Game.PLAYING)
    by (vm_compute; reflexivity).
  assert (Hplayer : Game.player game_before_hit = Some player_before_hit)
    by (vm_compute; reflexivity).
  assert (Hpellets : Maze.remaining_pellets
                       (Game.maze (Game.advance (16 # 9) player_before_hit
                                     game_before_hit)) <> 0)
    by (vm_compute; discriminate).
  assert (Hhit : exists ghost,
             In ghost (Game.ghosts (Game.advance (16 # 9) player_before_hit
                                      game_before_hit))
             /\ Game._collides (Game.move_player (16 # 9) player_before_hit
                                  game_before_hit) ghost = true).
  { exists (nth 1 (Game.ghosts (Game.advance (16 # 9) player_before_hit
                                  game_before_hit)) corridor_ghost).
    split; [vm_compute; right; left; reflexivity | vm_compute; reflexivity]. }
  assert (Hlives : 0 < Game.lives game_before_hit - 1) by (vm_compute; reflexivity).
  pose proof (collision_resets_positions game_before_hit (16 # 9) player_before_hit
                game_before_hit_reachable Hstate Hplayer Hpellets Hhit Hlives)
    as (Rstate & _ & _ & _ & Rlives & _).
  exact (conj game_before_hit_reachable
          (conj Hstate (conj Hplayer (conj Hlives (conj Rstate Rlives))))).
Defined.

(** Without the condition that pellets remain, the collision is not
    handled: in [last_pellet_hit_game] the tick is Playing, the first ghost
    ends the tick 1.25 pixels from the player, two lives would be left after
    the decrement, and yet the player keeps its three lives, the level goes
    from 1 to 2 and the cleared pellet sets are filled again, because the
    player ate the last pellet in that tick. *)
Theorem last_pellet_tick_skips_collision :
  Game.state last_pellet_hit_game = Game.PLAYING
  /\ Game.player last_pellet_hit_game = Some (player_of last_pellet_hit_game)
  /\ (exists ghost,
        In ghost (Game.ghosts (Game.advance (1 # 8) (player_of last_pellet_hit_game)
                                 last_pellet_hit_game))
        /\ Game._collides (Game.move_player (1 # 8) (player_of last_pellet_hit_game)
                             last_pellet_hit_game) ghost = true)
  /\ 0 < Game.lives last_pellet_hit_game - 1
  /\ Game.lives (Game.update (1 # 8) last_pellet_hit_game)
     = Game.lives last_pellet_hit_game
  /\ Game.level last_pellet_hit_game = 1
  /\ Game.level (Game.update (1 # 8) last_pellet_hit_game) = 2
  /\ Maze.remaining_pellets
       (Game.maze (Game.advance (1 # 8) (player_of last_pellet_hit_game)
                     last_pellet_hit_game)) = 0
  /\ Maze.remaining_pellets (Game.maze (Game.update (1 # 8) last_pellet_hit_game))
     = Maze.remaining_pellets game_maze
  /\ 0 < Maze.remaining_pellets game_maze.
Proof.
  refine (conj _ (conj _ (conj _ (conj _ (conj _ (conj _ (conj _ (conj _
           (conj _ _)))))))));
    try (vm_compute; reflexivity).
  exists (nth 0 (Game.ghosts (Game.advance (1 # 8) (player_of last_pellet_hit_game)
                                last_pellet_hit_game)) corridor_ghost).
  split; [vm_compute; left; reflexivity | vm_compute; reflexivity].
Qed.

(** ** The scenarios of the specification, evaluated *)

Example tiny_maze_one_pellet :
  Maze.remaining_pellets (maze_of tiny_layout) = 1.
Proof. vm_compute. reflexivity. Qed.

Example tiny_maze_collect :
  snd (Maze.collect_pellet (2, 1) (maze_of tiny_layout)) = 10
  /\ Maze.remaining_pellets (fst (Maze.collect_pellet (2, 1) (maze_of tiny_layout))) = 0.
Proof. split; vm_compute; reflexivity. Qed.

Example game_maze_power_pellet :
  snd (Maze.collect_pellet (1, 3) game_maze) = 50.
Proof. vm_compute. reflexivity. Qed.

Example outside_is_wall :
  Maze.is_wall game_maze (-1, 14) = true /\ Maze.is_wall game_maze (28, 14) = true
  /\ Maze.is_wall game_maze (0, 14) = false.
Proof. repeat split; vm_compute; reflexivity. Qed.

Example start_signal :
  let g := Game._on_key_press "Return" (game_of steady_rng) in
  Game.state (game_of steady_rng) = Game.MENU
  /\ Game.state g = Game.PLAYING /\ Game.score g = 0
  /\ Game.level g = 1 /\ Game.lives g = 3.
Proof. cbv zeta. repeat split; vm_compute; reflexivity. Qed.

Example corridor_ghost_keeps_heading :
  fst (Ghost._choose_direction game_maze
         (Maze.pixel_to_tile (Actor.position corridor_ghost))
         corridor_ghost counting_rng) = Vector.mk 1 0.
Proof. vm_compute. reflexivity. Qed.

Example collide_at_distance_0 :
  Game._collides player_at_start
    (Actor.__init__ (Vector.mk 270 450) constants.RED 90) = true.
Proof. vm_compute. reflexivity. Qed.

Example no_collision_at_distance_14_01 :
  Game._collides player_at_start
    (Actor.__init__ (Vector.mk (28401 # 100) 450) constants.RED 90) = false.
Proof. vm_compute. reflexivity. Qed.

(** * Further properties of the code *)

(** ** Layout lookups *)

Lemma nth_error_lookup {A : Type} (l : list A) (n : nat) : nth_error l n = l !! n.
Proof. revert n. induction l as [| a l IH]; intros [| n]; cbn; auto. Qed.

Lemma nth_error_list_ascii (line : string) (n : nat) :
  nth_error (list_ascii_of_string line) n = String.get n line.
Proof. revert n. induction line as [| c line IH]; intros [| n]; cbn; auto. Qed.

Lemma string_get_some (line : string) (n : nat) (c : ascii) :
  String.get n line = Some c -> (n < String.length line)%nat.
Proof.
  revert n. induction line as [| c0 line IH]; intros [| n] H; cbn in *;
    try discriminate; [lia | apply IH in H; lia].
Qed.

Lemma enumerate_In {A : Type} (l : list A) (k : Z) (a : A) :
  In (k, a) (enumerate l) <-> 0 <= k /\ l !! Z.to_nat k = Some a.
Proof.
  unfold enumerate. rewrite enumerate_from_In. split.
  - intros (n & -> & Hn). rewrite nth_error_lookup in Hn.
    split; [lia |]. now rewrite Z.add_0_l, Nat2Z.id.
  - intros [Hk Hl]. exists (Z.to_nat k). rewrite nth_error_lookup. split; [lia | exact Hl].
Qed.

Lemma marks_cell_is (m : Maze.t) (t : TilePos) (char : ascii) :
  marks (enumerate (Maze.layout m)) t char <-> cell_is m t char.
Proof.
  unfold marks, cell_is, Maze.cell. split.
  - intros (line & Hrow & Hcol). apply enumerate_In in Hrow, Hcol.
    destruct Hrow as [Hr Hline]. destruct Hcol as [Hc Hchar].
    rewrite Hline. rewrite <- nth_error_lookup, nth_error_list_ascii in Hchar. auto.
  - intros (Hc & Hr & Hcell).
    destruct (Maze.layout m !! Z.to_nat (snd t)) as [line |] eqn:Hline; [| discriminate].
    exists line. split; apply enumerate_In; split; try assumption.
    now rewrite <- nth_error_lookup, nth_error_list_ascii.
Qed.

Lemma maze_init_facts (layout : list string) (m : Maze.t) :
  Maze.__init__ layout = Ok m ->
  Maze.layout m = layout
  /\ Maze.width m = len (hd ""%string layout)
  /\ Maze.height m = Z.of_nat (length layout)
  /\ (forall line, In line layout -> len line = Maze.width m)
  /\ Maze._find_character layout "P" = Some (Maze.player_start m)
  /\ Maze.ghost_starts m
     = match Maze._find_characters layout "G" with
       | [] => [Maze.player_start m]
       | found => found
       end.
Proof.
  unfold Maze.__init__. destruct layout as [| first rest]; [discriminate |].
  destruct (Maze._validate_layout (first :: rest) (len first)) as [[] |] eqn:V;
    [| discriminate].
  destruct (Maze._find_character (first :: rest) "P") as [ps |]; [| discriminate].
  intros E. injection E as <-. cbn [Maze.layout Maze.width Maze.height
    Maze.player_start Maze.ghost_starts hd].
  repeat split; try reflexivity.
  intros line Hin. apply (enumerate_from_values _ 0) in Hin. destruct Hin as [k Hk].
  exact (proj1 (_validate_rows_ok _ _) V k line Hk).
Qed.

Lemma reset_pellets_grid (m : Maze.t) :
  Maze.layout (Maze.reset_pellets m) = Maze.layout m
  /\ Maze.width (Maze.reset_pellets m) = Maze.width m
  /\ Maze.height (Maze.reset_pellets m) = Maze.height m.
Proof. repeat split; reflexivity. Qed.

Lemma maze_reachable_shape (m : Maze.t) : maze_reachable m -> maze_shape m.
Proof.
  unfold maze_shape.
  induction 1 as [layout m Hinit | tile_pos m _ IH | m _ IH].
  - destruct (maze_init_facts layout m Hinit) as (-> & _ & Hh & Hw & _). auto.
  - destruct (collect_pellet_grid tile_pos m) as (-> & -> & ->). exact IH.
  - exact IH.
Qed.

Lemma cell_is_valid (m : Maze.t) (t : TilePos) (char : ascii) :
  maze_shape m -> cell_is m t char -> Maze.is_valid_tile m t = true.
Proof.
  intros [Hh Hw] (Hc & Hr & Hcell). destruct t as [x y]. cbn [fst snd] in *.
  unfold Maze.cell in Hcell.
  destruct (Maze.layout m !! Z.to_nat y) as [line |] eqn:Hline; [| discriminate].
  pose proof (lookup_lt_Some _ _ _ Hline) as Hy.
  apply string_get_some in Hcell.
  assert (Hin : In line (Maze.layout m)).
  { apply list_elem_of_In. eapply list_elem_of_lookup_2. exact Hline. }
  apply Hw in Hin. unfold len in Hin.
  unfold Maze.is_valid_tile. rewrite !andb_true_iff, !Z.leb_le, !Z.ltb_lt. lia.
Qed.

Lemma is_wall_valid (m : Maze.t) (t : TilePos) :
  Maze.is_valid_tile m t = true ->
  Maze.is_wall m t
  = match Maze.cell m (fst t) (snd t) with
    | Some c => Ascii.eqb c "#"
    | None => false
    end.
Proof.
  destruct t as [x y]. unfold Maze.is_valid_tile, Maze.is_wall. cbn [fst snd].
  rewrite !andb_true_iff, !Z.leb_le, !Z.ltb_lt. intros Hv.
  replace ((x <? 0) || (y <? 0) || (x >=? Maze.width m) || (y >=? Maze.height m))
    with false; [reflexivity |].
  symmetry. rewrite !orb_false_iff, !Z.ltb_ge, !Z.geb_leb, !Z.leb_gt. lia.
Qed.

Lemma is_wall_invalid (m : Maze.t) (t : TilePos) :
  Maze.is_valid_tile m t = false -> Maze.is_wall m t = true.
Proof.
  destruct t as [x y]. unfold Maze.is_valid_tile, Maze.is_wall.
  intros Hv.
  destruct ((x <? 0) || (y <? 0) || (x >=? Maze.width m) || (y >=? Maze.height m))
    eqn:E; [reflexivity |].
  rewrite !orb_false_iff, !Z.ltb_ge, !Z.geb_leb, !Z.leb_gt in E.
  exfalso. apply not_true_iff_false in Hv. apply Hv.
  rewrite !andb_true_iff, !Z.leb_le, !Z.ltb_lt. lia.
Qed.

(** X1: on every maze a tile outside the grid ([is_valid_tile] false) is a
    wall; on a maze that went through the constructor a tile inside the grid
    is a wall exactly when the layout holds '#' there. *)
Theorem is_wall_characterised (m : Maze.t) (Hm : maze_reachable m) (t : TilePos) :
  (Maze.is_valid_tile m t = false -> Maze.is_wall m t = true)
  /\ (Maze.is_valid_tile m t = true ->
      (Maze.is_wall m t = true <-> cell_is m t "#")).
Proof.
  split; [apply is_wall_invalid |].
  intros Hv. rewrite (is_wall_valid m t Hv).
  assert (Hb : 0 <= fst t < Maze.width m /\ 0 <= snd t < Maze.height m).
  { destruct t as [x y]. unfold Maze.is_valid_tile in Hv. cbn [fst snd].
    rewrite !andb_true_iff, !Z.leb_le, !Z.ltb_lt in Hv. lia. }
  destruct (cell_in_bounds m (fst t) (snd t) Hm (proj1 Hb) (proj2 Hb)) as [c Hc].
  unfold cell_is. rewrite Hc. split.
  - intros E. apply Ascii.eqb_eq in E. subst c. repeat split; lia.
  - intros (_ & _ & E). injection E as ->. reflexivity.
Qed.

Lemma is_wall_characterised_game_maze :
  maze_reachable game_maze
  /\ (Maze.is_valid_tile game_maze (28, 14) = false ->
      Maze.is_wall game_maze (28, 14) = true).
Proof.
  split; [exact game_maze_reachable |].
  exact (proj1 (is_wall_characterised game_maze game_maze_reachable (28, 14))).
Defined.

(** ** What the constructor reads off the layout *)

Lemma maze_reachable_consistent (m : Maze.t) : maze_reachable m -> maze_consistent m.
Proof.
  unfold maze_consistent.
  induction 1 as [layout m Hinit | tile_pos m _ IH | m _ IH].
  - destruct (maze_init_facts layout m Hinit) as (El & _ & _ & _ & Hp & Hg).
    destruct (maze_init_inv layout m Hinit) as (_ & Ht & _).
    rewrite El. auto.
  - destruct (collect_pellet_grid tile_pos m) as (-> & _ & _).
    destruct (collect_pellet_layout tile_pos m) as (-> & ->).
    rewrite collect_pellet_template. exact IH.
  - exact IH.
Qed.

Lemma from_layout_pellets (layout : list string) (t : TilePos) :
  t ∈ PelletSet.pellets (PelletSet.from_layout layout)
  <-> marks (enumerate layout) t ".".
Proof.
  unfold PelletSet.from_layout. rewrite scan_line_pellets. cbn [PelletSet.pellets].
  split; [intros [H | H]; [set_solver | exact H] | auto].
Qed.

Lemma from_layout_power (layout : list string) (t : TilePos) :
  t ∈ PelletSet.power_pellets (PelletSet.from_layout layout)
  <-> marks (enumerate layout) t "o".
Proof.
  unfold PelletSet.from_layout. rewrite scan_line_power. cbn [PelletSet.power_pellets].
  split; [intros [H | H]; [set_solver | exact H] | auto].
Qed.

Lemma cell_is_free (m : Maze.t) (t : TilePos) (char : ascii) :
  maze_shape m -> cell_is m t char -> char <> "#"%char ->
  Maze.is_valid_tile m t = true /\ Maze.is_wall m t = false.
Proof.
  intros Hs Hc Hne. pose proof (cell_is_valid m t char Hs Hc) as Hv.
  split; [exact Hv |]. rewrite (is_wall_valid m t Hv).
  destruct Hc as (_ & _ & ->). now apply Ascii.eqb_neq.
Qed.

(** X2: on a maze that went through the constructor the template's plain
    pellets are exactly the tiles holding '.' in the layout and its power
    pellets exactly the tiles holding 'o'; every pellet still present lies
    inside the grid on a tile that is not a wall. *)
Theorem pellets_match_layout (m : Maze.t) (Hm : maze_reachable m) (t : TilePos) :
  (t ∈ PelletSet.pellets (Maze.pellet_template m) <-> cell_is m t ".")
  /\ (t ∈ PelletSet.power_pellets (Maze.pellet_template m) <-> cell_is m t "o")
  /\ (t ∈ PelletSet.pellets (Maze.pellets m)
      \/ t ∈ PelletSet.power_pellets (Maze.pellets m) ->
      Maze.is_valid_tile m t = true /\ Maze.is_wall m t = false).
Proof.
  destruct (maze_reachable_consistent m Hm) as (Ht & _ & _).
  pose proof (maze_reachable_shape m Hm) as Hs.
  destruct (maze_reachable_inv m Hm) as ((Hsub & Hpow) & _).
  assert (H1 : t ∈ PelletSet.pellets (Maze.pellet_template m) <-> cell_is m t ".").
  { rewrite Ht, from_layout_pellets. apply marks_cell_is. }
  assert (H2 : t ∈ PelletSet.power_pellets (Maze.pellet_template m) <-> cell_is m t "o").
  { rewrite Ht, from_layout_power. apply marks_cell_is. }
  refine (conj H1 (conj H2 _)).
  intros [H | H].
  - apply (cell_is_free m t "." Hs); [apply H1, Hsub, H | discriminate].
  - apply (cell_is_free m t "o" Hs); [apply H2, Hpow, H | discriminate].
Qed.

Lemma pellets_match_layout_game_maze :
  maze_reachable game_maze
  /\ (cell_is game_maze (1, 3) "o"
      -> (1, 3) ∈ PelletSet.power_pellets (Maze.pellet_template game_maze)).
Proof.
  split; [exact game_maze_reachable |].
  exact (proj2 (proj1 (proj2
           (pellets_match_layout game_maze game_maze_reachable (1, 3))))).
Defined.

(** ** Restoring the pellets *)

Lemma copy_id (ps : PelletSet.t) : PelletSet.copy ps = ps.
Proof. now destruct ps. Qed.

(** X3: on a maze that went through the constructor, [reset_pellets] makes
    the current pellets equal to the template whatever was collected before:
    resetting after a collection equals resetting directly, resetting twice
    equals resetting once, and [remaining_pellets] never exceeds its value
    after a reset, which is the size of the template. *)
Theorem reset_pellets_restores (m : Maze.t) (Hm : maze_reachable m) (t : TilePos) :
  Maze.pellets (Maze.reset_pellets m) = Maze.pellet_template m
  /\ Maze.reset_pellets (fst (Maze.collect_pellet t m)) = Maze.reset_pellets m
  /\ Maze.reset_pellets (Maze.reset_pellets m) = Maze.reset_pellets m
  /\ Maze.remaining_pellets (Maze.reset_pellets m)
     = Z.of_nat (size (PelletSet.pellets (Maze.pellet_template m)))
       + Z.of_nat (size (PelletSet.power_pellets (Maze.pellet_template m)))
  /\ Maze.remaining_pellets m <= Maze.remaining_pellets (Maze.reset_pellets m).
Proof.
  destruct (maze_reachable_inv m Hm) as ((Hsub & Hpow) & _).
  refine (conj _ (conj _ (conj _ (conj _ _)))).
  - apply copy_id.
  - destruct (collect_pellet_cases t m)
      as [(_ & ->) | [(_ & _ & ->) | (_ & _ & ->)]]; reflexivity.
  - reflexivity.
  - reflexivity.
  - unfold Maze.remaining_pellets. cbn.
    apply subseteq_size in Hsub, Hpow. lia.
Qed.

Lemma reset_pellets_restores_game_maze :
  maze_reachable (fst (Maze.collect_pellet (1, 1) game_maze))
  /\ Maze.reset_pellets (fst (Maze.collect_pellet (1, 1)
                               (fst (Maze.collect_pellet (1, 1) game_maze))))
     = Maze.reset_pellets (fst (Maze.collect_pellet (1, 1) game_maze)).
Proof.
  assert (H : maze_reachable (fst (Maze.collect_pellet (1, 1) game_maze)))
    by (apply reach_collect, game_maze_reachable).
  split; [exact H |].
  exact (proj1 (proj2 (reset_pellets_restores _ H (1, 1)))).
Defined.

(** ** Start tiles *)

Lemma enumerate_from_ge {A : Type} (l : list A) (i k : Z) (a : A) :
  In (k, a) (enumerate_from i l) -> i <= k.
Proof. rewrite enumerate_from_In. intros (n & -> & _). lia. Qed.

Lemma _find_in_line_first (char : ascii) (row : Z) (chars : list ascii) (i : Z)
    (pos : TilePos) :
  Maze._find_in_line char row (enumerate_from i chars) = Some pos ->
  snd pos = row
  /\ In (fst pos, char) (enumerate_from i chars)
  /\ forall c, In (c, char) (enumerate_from i chars) -> fst pos <= c.
Proof.
  revert i. induction chars as [| a chars IH]; intros i; cbn [enumerate_from
    Maze._find_in_line]; [discriminate |].
  destruct (Ascii.eqb_spec a char) as [-> | Hne].
  - intros E. injection E as <-. cbn [fst snd].
    split; [reflexivity | split; [now left |]].
    intros c [E | Hin]; [injection E as <-; lia |].
    apply enumerate_from_ge in Hin. lia.
  - intros E. destruct (IH (i + 1) E) as (Hr & Hin & Hfirst).
    split; [exact Hr | split; [now right |]].
    intros c [E' | Hin']; [injection E' as _ E'; contradiction | now apply Hfirst].
Qed.

Lemma _find_in_rows_first (char : ascii) (rows : list string) (i : Z) (pos : TilePos) :
  Maze._find_in_rows char (enumerate_from i rows) = Some pos ->
  marks (enumerate_from i rows) pos char
  /\ forall t, marks (enumerate_from i rows) t char -> row_major_le pos t.
Proof.
  revert i. induction rows as [| line rows IH]; intros i; cbn [enumerate_from
    Maze._find_in_rows]; [discriminate |].
  destruct (Maze._find_in_line char i (enumerate (list_ascii_of_string line)))
    as [found |] eqn:Eline.
  - intros E. injection E as <-.
    destruct (_find_in_line_first char i _ 0 found Eline) as (Hr & Hin & Hfirst).
    split.
    + exists line. rewrite Hr. split; [now left | exact Hin].
    + intros t (l & [E | Hl] & Hc).
      * injection E as Et <-. right. split; [congruence | now apply Hfirst].
      * apply enumerate_from_ge in Hl. left. lia.
  - intros E. destruct (IH (i + 1) E) as (Hm & Hfirst).
    split.
    + destruct Hm as (l & Hl & Hc). exists l. split; [now right | exact Hc].
    + intros t (l & [E' | Hl] & Hc).
      * injection E' as Et <-. exfalso.
        exact (proj1 (_find_in_line_none char i _) Eline (fst t) Hc).
      * apply Hfirst. exists l. split; assumption.
Qed.

Lemma _find_characters_In (layout : list string) (char : ascii) (t : TilePos) :
  In t (Maze._find_characters layout char) <-> marks (enumerate layout) t char.
Proof.
  unfold Maze._find_characters, marks. rewrite in_flat_map. split.
  - intros ([row line] & Hrow & Hin). apply in_flat_map in Hin.
    destruct Hin as ([col cell] & Hcol & Hin). cbn [fst snd] in Hin.
    destruct (Ascii.eqb_spec cell char) as [-> | _]; [| destruct Hin].
    destruct Hin as [<- | []]. exists line. split; assumption.
  - intros (line & Hrow & Hcol). exists (snd t, line). split; [exact Hrow |].
    apply in_flat_map. exists (fst t, char). split; [exact Hcol |].
    cbn [fst snd]. rewrite Ascii.eqb_refl. left. now destruct t.
Qed.

(** X4: on a maze that went through the constructor the player start holds
    'P' in the layout, lies inside the grid, is not a wall, and is the first
    'P' in reading order (top row first, then left to right). *)
Theorem player_start_is_first_P (m : Maze.t) (Hm : maze_reachable m) :
  cell_is m (Maze.player_start m) "P"
  /\ Maze.is_valid_tile m (Maze.player_start m) = true
  /\ Maze.is_wall m (Maze.player_start m) = false
  /\ forall t, cell_is m t "P" -> row_major_le (Maze.player_start m) t.
Proof.
  destruct (maze_reachable_consistent m Hm) as (_ & Hp & _).
  pose proof (maze_reachable_shape m Hm) as Hs.
  destruct (_find_in_rows_first "P" (Maze.layout m) 0 _ Hp) as (Hmark & Hfirst).
  assert (Hcell : cell_is m (Maze.player_start m) "P") by now apply marks_cell_is.
  destruct (cell_is_free m _ "P" Hs Hcell) as [Hv Hw]; [discriminate |].
  refine (conj Hcell (conj Hv (conj Hw _))).
  intros t Ht. apply Hfirst. now apply marks_cell_is.
Qed.

Lemma player_start_is_first_P_game_maze :
  maze_reachable game_maze /\ Maze.is_wall game_maze (Maze.player_start game_maze) = false.
Proof.
  split; [exact game_maze_reachable |].
  exact (proj1 (proj2 (proj2 (player_start_is_first_P game_maze game_maze_reachable)))).
Defined.

Lemma ghost_starts_cases (m : Maze.t) :
  maze_consistent m ->
  (Maze._find_characters (Maze.layout m) "G" = []
   /\ Maze.ghost_starts m = [Maze.player_start m])
  \/ (Maze._find_characters (Maze.layout m) "G" <> []
      /\ Maze.ghost_starts m = Maze._find_characters (Maze.layout m) "G").
Proof.
  intros (_ & _ & Hg). rewrite Hg.
  destruct (Maze._find_characters (Maze.layout m) "G"); [left | right]; split;
    congruence.
Qed.

Lemma ghost_starts_free (m : Maze.t) (t : TilePos) :
  maze_reachable m -> In t (Maze.ghost_starts m) ->
  Maze.is_valid_tile m t = true /\ Maze.is_wall m t = false.
Proof.
  intros Hm Hin.
  pose proof (maze_reachable_consistent m Hm) as Hc.
  pose proof (maze_reachable_shape m Hm) as Hs.
  destruct (ghost_starts_cases m Hc) as [(_ & E) | (_ & E)]; rewrite E in Hin.
  - destruct Hin as [<- | []].
    destruct Hc as (_ & Hp & _).
    destruct (_find_in_rows_first "P" (Maze.layout m) 0 _ Hp) as (Hmark & _).
    apply (cell_is_free m _ "P" Hs); [now apply marks_cell_is | discriminate].
  - apply _find_characters_In, marks_cell_is in Hin.
    apply (cell_is_free m t "G" Hs Hin). discriminate.
Qed.



(** ** Positions, tiles and walls *)

(** X6: for a position whose coordinates are below 2^53 in absolute value,
    [pixel_to_tile] with the rounding of floats written out returns the tile
    of the idealised function, and the position lies in tile (c, r) exactly
    when it lies in the square [20c, 20c+20) x [20r, 20r+20) of that tile. *)
Theorem pixel_to_tile_square (p : Vector.t) (c r : Z)
    (Hx : (Qabs (Vector.x p) < inject_Z (2 ^ 53))%Q)
    (Hy : (Qabs (Vector.y p) < inject_Z (2 ^ 53))%Q) :
  Rounded.pixel_to_tile p = Maze.pixel_to_tile p
  /\ (Rounded.pixel_to_tile p = (c, r)
      <-> (inject_Z (20 * c) <= Vector.x p /\ Vector.x p < inject_Z (20 * c + 20))%Q
          /\ (inject_Z (20 * r) <= Vector.y p /\ Vector.y p < inject_Z (20 * r + 20))%Q).
Proof.
  split; [now apply pixel_to_tile_exact |].
  rewrite pixel_to_tile_exact by assumption.
  unfold Maze.pixel_to_tile. rewrite <- !py_floordiv_tile. split.
  - intros E. injection E as <- <-. auto.
  - intros [-> ->]. reflexivity.
Qed.

Lemma pixel_to_tile_square_player_start :
  (Qabs (Vector.x (Vector.mk 270 450)) < inject_Z (2 ^ 53))%Q
  /\ (Qabs (Vector.y (Vector.mk 270 450)) < inject_Z (2 ^ 53))%Q
  /\ Rounded.pixel_to_tile (Vector.mk 270 450) = Maze.pixel_to_tile (Vector.mk 270 450).
Proof.
  assert (Hx : (Qabs (Vector.x (Vector.mk 270 450)) < inject_Z (2 ^ 53))%Q)
    by (vm_compute; reflexivity).
  assert (Hy : (Qabs (Vector.y (Vector.mk 270 450)) < inject_Z (2 ^ 53))%Q)
    by (vm_compute; reflexivity).
  exact (conj Hx (conj Hy
           (proj1 (pixel_to_tile_square (Vector.mk 270 450) 13 22 Hx Hy)))).
Defined.

Lemma free_position_box (m : Maze.t) (p : Vector.t) (r : Q) :
  (0 <= r)%Q ->
  Maze.collides_with_wall m p r = false ->
  (r <= Vector.x p /\ Vector.x p + r < inject_Z (20 * Maze.width m))%Q
  /\ (r <= Vector.y p /\ Vector.y p + r < inject_Z (20 * Maze.height m))%Q.
Proof.
  intros Hr Hfree. apply collides_with_wall_false in Hfree.
  destruct Hfree as (H1 & _ & _ & H4).
  apply is_wall_false_bounds in H1, H4.
  destruct H1 as [[Hc1 _] [Hr1 _]]. destruct H4 as [[_ Hc4] [_ Hr4]].
  assert (Ex1 : py_floordiv (Vector.x p + - r) constants.TILE_SIZE
                = tile_x (Vector.x p + - r)) by reflexivity.
  assert (Ex4 : py_floordiv (Vector.x p + r) constants.TILE_SIZE
                = tile_x (Vector.x p + r)) by reflexivity.
  assert (Ey1 : py_floordiv (Vector.y p + - r) constants.TILE_SIZE
                = tile_x (Vector.y p + - r)) by reflexivity.
  assert (Ey4 : py_floordiv (Vector.y p + r) constants.TILE_SIZE
                = tile_x (Vector.y p + r)) by reflexivity.
  apply py_floordiv_tile in Ex1, Ex4, Ey1, Ey4.
  destruct Ex1 as [Ex1 _]. destruct Ex4 as [_ Ex4].
  destruct Ey1 as [Ey1 _]. destruct Ey4 as [_ Ey4].
  assert (Bx1 : (0 <= inject_Z (20 * tile_x (Vector.x p + - r)))%Q)
    by (rewrite <- (Zle_Qle 0); lia).
  assert (Bx4 : (inject_Z (20 * tile_x (Vector.x p + r) + 20)
                 <= inject_Z (20 * Maze.width m))%Q)
    by (rewrite <- Zle_Qle; lia).
  assert (By1 : (0 <= inject_Z (20 * tile_x (Vector.y p + - r)))%Q)
    by (rewrite <- (Zle_Qle 0); lia).
  assert (By4 : (inject_Z (20 * tile_x (Vector.y p + r) + 20)
                 <= inject_Z (20 * Maze.height m))%Q)
    by (rewrite <- Zle_Qle; lia).
  repeat split; qlra.
Qed.

(** X7: a position that does not collide with a wall for a radius r >= 0 has
    its whole bounding square inside the grid (r <= x, x + r < 20 * width,
    r <= y, y + r < 20 * height); when moreover r < 10 the tile that contains
    the position is not a wall. *)
Theorem free_position_inside_grid (m : Maze.t) (p : Vector.t) (r : Q)
    (Hr : (0 <= r)%Q)
    (Hfree : Maze.collides_with_wall m p r = false) :
  (r <= Vector.x p /\ Vector.x p + r < inject_Z (20 * Maze.width m))%Q
  /\ (r <= Vector.y p /\ Vector.y p + r < inject_Z (20 * Maze.height m))%Q
  /\ ((r < 10)%Q -> Maze.is_wall m (Maze.pixel_to_tile p) = false).
Proof.
  destruct (free_position_box m p r Hr Hfree) as [Hx Hy].
  refine (conj Hx (conj Hy _)).
  intros Hsmall. now apply (free_position_tile m p r).
Qed.

Lemma free_position_inside_grid_player_start :
  (0 <= 8)%Q
  /\ Maze.collides_with_wall game_maze (Vector.mk 270 450) 8 = false
  /\ (8 <= 270 /\ 270 + 8 < inject_Z (20 * Maze.width game_maze))%Q.
Proof.
  assert (Hr : (0 <= 8)%Q) by discriminate.
  assert (Hfree : Maze.collides_with_wall game_maze (Vector.mk 270 450) 8 = false)
    by (vm_compute; reflexivity).
  split; [exact Hr | split; [exact Hfree |]].
  exact (proj1 (free_position_inside_grid game_maze (Vector.mk 270 450) 8 Hr Hfree)).
Defined.

Lemma filter_sublist {A : Type} (f : A -> bool) (l : list A) :
  sublist (List.filter f l) l.
Proof.
  induction l as [| a l IH]; cbn; [constructor |].
  destruct (f a); [now apply sublist_skip | now apply sublist_cons].
Qed.

Lemma available_directions_In (m : Maze.t) (tile_pos : TilePos) (d : Vector.t) :
  In d (Maze.available_directions m tile_pos)
  <-> In d Maze.UNIT_DIRECTIONS
      /\ Maze.is_wall m (fst tile_pos + py_int (Vector.x d),
                         snd tile_pos + py_int (Vector.y d)) = false.
Proof.
  unfold Maze.available_directions. rewrite filter_In, negb_true_iff. reflexivity.
Qed.

Lemma free_tile_valid (m : Maze.t) (t : TilePos) :
  Maze.is_wall m t = false -> Maze.is_valid_tile m t = true.
Proof.
  intros Hw. destruct (Maze.is_valid_tile m t) eqn:E; [reflexivity |].
  apply is_wall_invalid in E. congruence.
Qed.

(** X8: the available directions of a tile are the unit directions whose
    neighbour tile is not a wall, listed in the order right, left, down, up
    (a sublist of that list, so at most four and without repetition); the
    neighbour tile in an available direction is always inside the grid. *)
Theorem available_directions_spec (m : Maze.t) (tile_pos : TilePos) :
  (forall d, In d (Maze.available_directions m tile_pos)
     <-> In d [Vector.mk 1 0; Vector.mk (-1) 0; Vector.mk 0 1; Vector.mk 0 (-1)]
         /\ Maze.is_wall m (fst tile_pos + py_int (Vector.x d),
                            snd tile_pos + py_int (Vector.y d)) = false)
  /\ sublist (Maze.available_directions m tile_pos)
             [Vector.mk 1 0; Vector.mk (-1) 0; Vector.mk 0 1; Vector.mk 0 (-1)]
  /\ (length (Maze.available_directions m tile_pos) <= 4)%nat
  /\ (forall d, In d (Maze.available_directions m tile_pos) ->
        Maze.is_valid_tile m (fst tile_pos + py_int (Vector.x d),
                              snd tile_pos + py_int (Vector.y d)) = true).
Proof.
  refine (conj (available_directions_In m tile_pos)
            (conj (filter_sublist _ _) (conj _ _))).
  - apply (sublist_length _ _ (filter_sublist _ Maze.UNIT_DIRECTIONS)).
  - intros d Hd. apply free_tile_valid. now apply available_directions_In.
Qed.

(** ** Ghosts *)

Lemma _choose_direction_In (maze : Maze.t) (tile_pos : TilePos) (g : Ghost.t)
    (r : random.t) :
  Maze.available_directions maze tile_pos <> [] ->
  In (fst (Ghost._choose_direction maze tile_pos g r))
     (Maze.available_directions maze tile_pos).
Proof.
  intros Hne. unfold Ghost._choose_direction.
  destruct (Ghost.non_reversing (Ghost.opposite_of g)
              (Maze.available_directions maze tile_pos)) as [| c cs] eqn:E.
  - destruct (Maze.available_directions maze tile_pos) as [| a rest];
      [congruence | apply choice_In].
  - pose proof (choice_In c cs r) as Hin. rewrite <- E in Hin.
    apply non_reversing_In in Hin. apply Hin.
Qed.

Lemma unit_direction_nonzero (d : Vector.t) :
  In d Maze.UNIT_DIRECTIONS -> Vector.is_zero d = false.
Proof. intros [<- | [<- | [<- | [<- | []]]]]; reflexivity. Qed.

(** X9: whenever the tile of a ghost has an available direction, the
    direction it chooses is one of the four unit directions (never zero) and
    the tile one step in that direction is not a wall, whatever the random
    draw; it consumes exactly one draw. *)
Theorem ghost_chooses_free_direction (maze : Maze.t) (tile_pos : TilePos)
    (g : Ghost.t) (r : random.t)
    (Havailable : Maze.available_directions maze tile_pos <> []) :
  let d := fst (Ghost._choose_direction maze tile_pos g r) in
  In d [Vector.mk 1 0; Vector.mk (-1) 0; Vector.mk 0 1; Vector.mk 0 (-1)]
  /\ Vector.is_zero d = false
  /\ Maze.is_wall maze (fst tile_pos + py_int (Vector.x d),
                        snd tile_pos + py_int (Vector.y d)) = false
  /\ random.cursor (snd (Ghost._choose_direction maze tile_pos g r))
     = S (random.cursor r).
Proof.
  intros d.
  pose proof (_choose_direction_In maze tile_pos g r Havailable) as Hin.
  fold d in Hin. apply available_directions_In in Hin. destruct Hin as [Hu Hw].
  refine (conj Hu (conj (unit_direction_nonzero d Hu) (conj Hw _))).
  unfold Ghost._choose_direction.
  destruct (Ghost.non_reversing _ _) as [| c cs].
  - destruct (Maze.available_directions maze tile_pos); [congruence | reflexivity].
  - reflexivity.
Qed.

Lemma ghost_chooses_free_direction_corridor :
  Maze.available_directions game_maze (2, 1) <> []
  /\ Vector.is_zero (fst (Ghost._choose_direction game_maze (2, 1) corridor_ghost
                            counting_rng)) = false.
Proof.
  assert (H : Maze.available_directions game_maze (2, 1) <> [])
    by (vm_compute; discriminate).
  split; [exact H |].
  exact (proj1 (proj2 (ghost_chooses_free_direction game_maze (2, 1) corridor_ghost
                         counting_rng H))).
Defined.

(** ** Stopping at a wall *)

(** An integer multiple of TILE_SIZE leaves no remainder. *)
Lemma rem_multiple (c : Z) : Float.rem (inject_Z (20 * c)) 20 = 0%Q.
Proof.
  unfold Float.rem, Float.fmod.
  assert (Hq : (inject_Z (20 * c) / 20 == inject_Z c)%Q).
  { rewrite inject_Z_mult. change (inject_Z 20) with 20%Q. field. }
  rewrite (py_int_Qeq _ _ Hq), py_int_inject.
  assert (E : Qred (inject_Z (20 * c) - 20 * inject_Z c) = 0%Q).
  { change 0%Q with (Qred 0). apply Qred_complete.
    rewrite inject_Z_mult. change (inject_Z 20) with 20%Q. ring. }
  rewrite E. reflexivity.
Qed.

Lemma center_aligned_rounded (a : Actor.t) (c w : Z) :
  Z.abs (20 * c) + 10 < 2 ^ 53 -> Z.abs (20 * w) + 10 < 2 ^ 53 ->
  Actor.position a = Game.center_of (c, w) -> Rounded._aligned_with_grid a = true.
Proof.
  intros Hc Hw E. unfold Rounded._aligned_with_grid. rewrite E.
  unfold Game.center_of. rewrite tile_to_pixel_center_eq, half_tile_float.
  unfold Vector.of_ints. cbn [fst snd Vector.x Vector.y].
  change (inject_Z constants.TILE_SIZE) with 20%Q.
  assert (Hs : forall k, Z.abs (20 * k) + 10 < 2 ^ 53 ->
                 Float.sub (inject_Z (20 * k + 10)) (inject_Z 10) = inject_Z (20 * k)).
  { intros k Hk. assert (Hb : Z.abs (20 * k) < 2 ^ 53) by lia.
    unfold Float.sub. rewrite <- (round_int _ Hb). apply round_Qeq.
    rewrite inject_Z_plus. ring. }
  rewrite (Hs c Hc), (Hs w Hw), !rem_multiple. reflexivity.
Qed.

Lemma tile_center_bound (q : Q) (k : Z) :
  (Qabs q <= inject_Z (2 ^ 52))%Q ->
  py_floordiv q constants.TILE_SIZE = k ->
  (Qabs (inject_Z (20 * k + 10)) + 30 < inject_Z (2 ^ 53))%Q.
Proof.
  intros Hq Hk. apply py_floordiv_tile in Hk. destruct Hk as [Hlo Hhi].
  apply Qabs_Qle_condition in Hq. destruct Hq as [L U].
  assert (H : -4503599627370516 < 20 * k /\ 20 * k < 4503599627370497).
  { rewrite !Zlt_Qlt.
    change (inject_Z (-4503599627370516)) with (-4503599627370516)%Q.
    change (inject_Z 4503599627370497) with 4503599627370497%Q.
    change (inject_Z (2 ^ 52)) with 4503599627370496%Q in L, U.
    rewrite inject_Z_plus in Hhi. change (inject_Z 20) with 20%Q in Hhi.
    set (t := inject_Z (20 * k)) in *. clearbody t. split; qlra. }
  assert (Hb : (Qabs (inject_Z (20 * k + 10)) < inject_Z (2 ^ 53 - 30))%Q).
  { apply Qabs_inject_Z_lt. change (2 ^ 53 - 30) with 9007199254740962. lia. }
  rewrite inject_Z_minus in Hb. change (inject_Z 30) with 30%Q in Hb.
  set (t := Qabs _) in *. clearbody t. qlra.
Qed.

(** Away from the edge of the exact integers, [_stop_at_wall] with rounding
    is the idealised one. *)
Lemma stop_at_wall_exact (m : Maze.t) (a : Actor.t) :
  (Qabs (Vector.x (Actor.position a)) + 30 < inject_Z (2 ^ 53))%Q ->
  (Qabs (Vector.y (Actor.position a)) + 30 < inject_Z (2 ^ 53))%Q ->
  Rounded._stop_at_wall m a = Ok (Actor._stop_at_wall m a)
  /\ Z.abs (20 * fst (Maze.pixel_to_tile (Actor.position a))) + 10 < 2 ^ 53
  /\ Z.abs (20 * snd (Maze.pixel_to_tile (Actor.position a))) + 10 < 2 ^ 53.
Proof.
  intros Hx Hy.
  pose proof (Qabs_nonneg (Vector.x (Actor.position a))) as Nx.
  pose proof (Qabs_nonneg (Vector.y (Actor.position a))) as Ny.
  assert (Bx : (Qabs (Vector.x (Actor.position a)) < inject_Z (2 ^ 53))%Q) by qlra.
  assert (By : (Qabs (Vector.y (Actor.position a)) < inject_Z (2 ^ 53))%Q) by qlra.
  assert (Hbound : forall q k, (Qabs q + 30 < inject_Z (2 ^ 53))%Q ->
                     py_floordiv q constants.TILE_SIZE = k ->
                     Z.abs (20 * k) + 10 < 2 ^ 53).
  { intros q k Hq Hk. apply py_floordiv_tile in Hk. destruct Hk as [Hlo Hhi].
    pose proof (Qle_Qabs q) as U. pose proof (Qle_Qabs (- q)) as L.
    rewrite Qabs_opp in L.
    assert (HB : (inject_Z (2 ^ 53) == 9007199254740992)%Q) by reflexivity.
    set (B := inject_Z (2 ^ 53)) in *. clearbody B.
    assert (-9007199254740992 + 10 < 20 * k /\ 20 * k + 10 < 9007199254740992);
      [| change (2 ^ 53) with 9007199254740992; lia].
    rewrite !Zlt_Qlt, !inject_Z_plus.
    change (inject_Z (-9007199254740992)) with (-9007199254740992)%Q.
    change (inject_Z 9007199254740992) with 9007199254740992%Q.
    change (inject_Z 10) with 10%Q.
    rewrite inject_Z_plus in Hhi. change (inject_Z 20) with 20%Q in Hhi.
    set (t := inject_Z (20 * k)) in *. clearbody t.
    set (aq := Qabs q) in *. clearbody aq. split; qlra. }
  destruct (Maze.pixel_to_tile (Actor.position a)) as [c w] eqn:Et.
  assert (Hc : Z.abs (20 * c) + 10 < 2 ^ 53).
  { apply (Hbound _ _ Hx). unfold Maze.pixel_to_tile in Et. congruence. }
  assert (Hw : Z.abs (20 * w) + 10 < 2 ^ 53).
  { apply (Hbound _ _ Hy). unfold Maze.pixel_to_tile in Et. congruence. }
  cbn [fst snd]. refine (conj _ (conj Hc Hw)).
  unfold Rounded._stop_at_wall, Actor._stop_at_wall.
  rewrite pixel_to_tile_exact by assumption. rewrite Et.
  rewrite tile_to_pixel_center_exact by assumption.
  rewrite vector_of_ints_exact
    by (rewrite tile_to_pixel_center_eq; cbn [fst snd]; lia).
  reflexivity.
Qed.

(** X10: for an actor whose coordinates are at most 2^52 in absolute value,
    [_stop_at_wall] with the rounding of floats written out does not raise
    and gives what the idealised function gives: the actor is put at the
    pixel centre of the tile it is in, so it stays in the same tile and is
    grid-aligned afterwards, with direction zero, its buffered direction
    untouched; stopping twice is the same as stopping once. *)
Theorem stop_at_wall_spec (m : Maze.t) (a : Actor.t)
    (Hx : (Qabs (Vector.x (Actor.position a)) <= inject_Z (2 ^ 52))%Q)
    (Hy : (Qabs (Vector.y (Actor.position a)) <= inject_Z (2 ^ 52))%Q) :
  let a' := Actor._stop_at_wall m a in
  Rounded._stop_at_wall m a = Ok a'
  /\ Actor.position a' = Game.center_of (Rounded.pixel_to_tile (Actor.position a))
  /\ Rounded.pixel_to_tile (Actor.position a') = Rounded.pixel_to_tile (Actor.position a)
  /\ Rounded._aligned_with_grid a' = true
  /\ Actor.direction a' = Vector.mk 0 0
  /\ Actor.next_direction a' = Actor.next_direction a
  /\ Rounded._stop_at_wall m a' = Ok a'.
Proof.
  cbv zeta.
  assert (HB : (inject_Z (2 ^ 53) == 9007199254740992)%Q) by reflexivity.
  assert (HC : (inject_Z (2 ^ 52) == 4503599627370496)%Q) by reflexivity.
  assert (Bx : (Qabs (Vector.x (Actor.position a)) + 30 < inject_Z (2 ^ 53))%Q) by qlra.
  assert (By : (Qabs (Vector.y (Actor.position a)) + 30 < inject_Z (2 ^ 53))%Q) by qlra.
  pose proof (Qabs_nonneg (Vector.x (Actor.position a))) as Nx.
  pose proof (Qabs_nonneg (Vector.y (Actor.position a))) as Ny.
  destruct (stop_at_wall_exact m a Bx By) as (Hstop & Hc & Hw).
  rewrite pixel_to_tile_exact by qlra.
  assert (Hpos : Actor.position (Actor._stop_at_wall m a)
                 = Game.center_of (Maze.pixel_to_tile (Actor.position a)))
    by reflexivity.
  destruct (Maze.pixel_to_tile (Actor.position a)) as [c w] eqn:Et.
  cbn [fst snd] in Hc, Hw.
  assert (Hcenter : Game.center_of (c, w)
                    = Vector.mk (inject_Z (20 * c + 10)) (inject_Z (20 * w + 10))).
  { unfold Game.center_of. now rewrite tile_to_pixel_center_eq. }
  assert (Cx : (Qabs (Vector.x (Game.center_of (c, w))) + 30 < inject_Z (2 ^ 53))%Q).
  { rewrite Hcenter. cbn [Vector.x].
    apply (tile_center_bound (Vector.x (Actor.position a)));
      [exact Hx | unfold Maze.pixel_to_tile in Et; congruence]. }
  assert (Cy : (Qabs (Vector.y (Game.center_of (c, w))) + 30 < inject_Z (2 ^ 53))%Q).
  { rewrite Hcenter. cbn [Vector.y].
    apply (tile_center_bound (Vector.y (Actor.position a)));
      [exact Hy | unfold Maze.pixel_to_tile in Et; congruence]. }
  assert (Htile : Maze.pixel_to_tile (Actor.position (Actor._stop_at_wall m a)) = (c, w)).
  { rewrite Hpos. apply pixel_to_tile_center. }
  assert (Hidem : Actor._stop_at_wall m (Actor._stop_at_wall m a) = Actor._stop_at_wall m a).
  { unfold Actor._stop_at_wall at 1. rewrite Htile.
    unfold Actor._stop_at_wall. rewrite Et. reflexivity. }
  refine (conj Hstop (conj Hpos (conj _ (conj _ (conj eq_refl (conj eq_refl _)))))).
  - rewrite pixel_to_tile_exact; [exact Htile | |]; rewrite Hpos; qlra.
  - now apply (center_aligned_rounded _ c w).
  - rewrite <- Hidem at 2.
    apply (stop_at_wall_exact m (Actor._stop_at_wall m a)); rewrite Hpos; assumption.
Qed.

Lemma stop_at_wall_spec_player_start :
  (Qabs (Vector.x (Actor.position (Player.actor player_at_start))) <= inject_Z (2 ^ 52))%Q
  /\ (Qabs (Vector.y (Actor.position (Player.actor player_at_start)))
      <= inject_Z (2 ^ 52))%Q
  /\ Rounded._stop_at_wall game_maze (Player.actor player_at_start)
     = Ok (Actor._stop_at_wall game_maze (Player.actor player_at_start)).
Proof.
  assert (Hx : (Qabs (Vector.x (Actor.position (Player.actor player_at_start)))
                <= inject_Z (2 ^ 52))%Q) by (vm_compute; discriminate).
  assert (Hy : (Qabs (Vector.y (Actor.position (Player.actor player_at_start)))
                <= inject_Z (2 ^ 52))%Q) by (vm_compute; discriminate).
  exact (conj Hx (conj Hy
           (proj1 (stop_at_wall_spec game_maze (Player.actor player_at_start) Hx Hy)))).
Defined.

(** ** One update of an actor *)

Lemma _try_change_direction_frame (m : Maze.t) (a : Actor.t) (nd : Vector.t) :
  Actor.speed (Actor._try_change_direction m a nd) = Actor.speed a
  /\ Actor.color (Actor._try_change_direction m a nd) = Actor.color a.
Proof.
  unfold Actor._try_change_direction.
  repeat match goal with |- context [if ?b then _ else _] => destruct b end;
    split; reflexivity.
Qed.

(** X11: in a maze of at most GRID_WIDTH columns, for an actor of radius in
    [0, 10) that is clear of the walls, [update] never wraps around: after the
    turn attempt, if the candidate position + direction * speed * dt is clear
    of the walls the actor is moved exactly there, and otherwise it is put at
    the centre of its current tile with direction zero; nothing else changes
    beyond what the turn attempt changed. *)
Theorem update_moves_or_snaps (m : Maze.t) (a : Actor.t) (dt : Q)
    (Hfits : Maze.width m <= constants.GRID_WIDTH)
    (Hradius : 0 <= Actor.radius a < 10)
    (Hclear : Maze.collides_with_wall m (Actor.position a)
                (inject_Z (Actor.radius a)) = false) :
  let turned := match Actor.next_direction a with
                | Some nd => Actor._try_change_direction m a nd
                | None => a
                end in
  let candidate := Vector.__add__ (Actor.position a)
                     (Vector.__mul__ (Actor.direction turned) (Actor.speed a * dt)) in
  (Maze.collides_with_wall m candidate (inject_Z (Actor.radius a)) = false ->
     Actor.update dt m a = Actor.set_position candidate turned)
  /\ (Maze.collides_with_wall m candidate (inject_Z (Actor.radius a)) = true ->
     Actor.update dt m a
     = Actor.set_direction (Vector.mk 0 0)
         (Actor.set_position
            (Game.center_of (Maze.pixel_to_tile (Actor.position a))) turned)).
Proof.
  intros turned candidate.
  assert (Hr0 : (0 <= inject_Z (Actor.radius a))%Q) by (rewrite <- (Zle_Qle 0); lia).
  assert (Hr1 : (inject_Z (Actor.radius a) < 10)%Q) by (rewrite <- (Zlt_Qlt _ 10); lia).
  assert (Hkeep : Actor.position turned = Actor.position a
                  /\ Actor.radius turned = Actor.radius a
                  /\ Actor.speed turned = Actor.speed a).
  { unfold turned. destruct (Actor.next_direction a) as [nd |]; [| auto].
    destruct (_try_change_direction_keeps m a nd) as [-> ->].
    destruct (_try_change_direction_frame m a nd) as [-> _]. auto. }
  destruct Hkeep as (Hpos & Hrad & Hspeed).
  unfold Actor.update. fold turned. rewrite Hpos, Hrad, Hspeed. fold candidate.
  split; intros Hc; rewrite Hc; cbn [negb].
  - cbn [Actor.position Actor.set_position Actor.color Actor.speed Actor.radius
         Actor.direction Actor.next_direction].
    destruct (free_position_x m _ _ Hr0 Hc) as [Hx0 Hx1].
    rewrite wrap_position_inside; [reflexivity | exact Hx0 |].
    eapply Qlt_le_trans; [exact Hx1 |]. rewrite <- Zle_Qle.
    unfold constants.SCREEN_WIDTH, constants.GRID_WIDTH, constants.TILE_SIZE in *. lia.
  - unfold Actor._stop_at_wall.
    cbn [Actor.position Actor.set_position Actor.set_direction Actor.color
         Actor.speed Actor.radius Actor.direction Actor.next_direction].
    rewrite Hpos.
    pose proof (free_position_tile m _ _ Hr0 Hr1 Hclear) as Htile.
    destruct (Maze.pixel_to_tile (Actor.position a)) as [c w].
    change (Vector.of_ints (Maze.tile_to_pixel_center (c, w))) with (Game.center_of (c, w)).
    rewrite wrap_position_inside by (apply (center_x_range m c w Htile Hfits)).
    reflexivity.
Qed.

Lemma update_moves_or_snaps_player_start :
  Maze.width game_maze <= constants.GRID_WIDTH
  /\ 0 <= Actor.radius (Player.actor player_at_start) < 10
  /\ Maze.collides_with_wall game_maze (Actor.position (Player.actor player_at_start))
       (inject_Z (Actor.radius (Player.actor player_at_start))) = false
  /\ Actor.update (3 # 2) game_maze (Player.actor player_at_start)
     = Actor.set_direction (Vector.mk 0 0)
         (Actor.set_position (Game.center_of (13, 22)) (Player.actor player_at_start)).
Proof.
  assert (Hfits : Maze.width game_maze <= constants.GRID_WIDTH)
    by (vm_compute; discriminate).
  assert (Hradius : 0 <= Actor.radius (Player.actor player_at_start) < 10)
    by (split; [vm_compute; discriminate | reflexivity]).
  assert (Hclear : Maze.collides_with_wall game_maze
                     (Actor.position (Player.actor player_at_start))
                     (inject_Z (Actor.radius (Player.actor player_at_start))) = false)
    by (vm_compute; reflexivity).
  refine (conj Hfits (conj Hradius (conj Hclear _))).
  refine (proj2 (update_moves_or_snaps game_maze (Player.actor player_at_start)
                   (3 # 2) Hfits Hradius Hclear) _).
  vm_compute. reflexivity.
Defined.

(** ** The player *)

(** X12: [handle_input] buffers the direction of the first key held among
    Left, Right, Up, Down, in that order of priority, and changes nothing else;
    when none of the four is held the player is unchanged (an earlier buffered
    direction stays); the result only depends on which keys are held, not on
    their order in the sequence. *)
Theorem handle_input_priority (pressed : list string) (p : Player.t) :
  let held key := key ∈ pressed in
  let buffered := Actor.next_direction (Player.actor (Player.handle_input pressed p)) in
  (held "Left"%string -> buffered = Some (Vector.mk (-1) 0))
  /\ (~ held "Left"%string -> held "Right"%string -> buffered = Some (Vector.mk 1 0))
  /\ (~ held "Left"%string -> ~ held "Right"%string -> held "Up"%string ->
      buffered = Some (Vector.mk 0 (-1)))
  /\ (~ held "Left"%string -> ~ held "Right"%string -> ~ held "Up"%string ->
      held "Down"%string -> buffered = Some (Vector.mk 0 1))
  /\ (~ held "Left"%string -> ~ held "Right"%string -> ~ held "Up"%string ->
      ~ held "Down"%string -> Player.handle_input pressed p = p)
  /\ Player.handle_input pressed p
     = Player.mk (Actor.set_next_direction buffered (Player.actor p))
                 (Player._orientation p) (Player._mouth_time p)
  /\ (forall pressed' : list string,
        (forall key, key ∈ pressed <-> key ∈ pressed') ->
        Player.handle_input pressed' p = Player.handle_input pressed p).
Proof.
  cbv zeta. unfold Player.handle_input, Player.direction_map. cbn [Player.first_pressed].
  refine (conj _ (conj _ (conj _ (conj _ (conj _ (conj _ _)))))).
  - intros H. rewrite (bool_decide_eq_true_2 _ H). reflexivity.
  - intros N1 H. rewrite (bool_decide_eq_false_2 _ N1), (bool_decide_eq_true_2 _ H).
    reflexivity.
  - intros N1 N2 H.
    rewrite (bool_decide_eq_false_2 _ N1), (bool_decide_eq_false_2 _ N2),
      (bool_decide_eq_true_2 _ H). reflexivity.
  - intros N1 N2 N3 H.
    rewrite (bool_decide_eq_false_2 _ N1), (bool_decide_eq_false_2 _ N2),
      (bool_decide_eq_false_2 _ N3), (bool_decide_eq_true_2 _ H). reflexivity.
  - intros N1 N2 N3 N4.
    rewrite (bool_decide_eq_false_2 _ N1), (bool_decide_eq_false_2 _ N2),
      (bool_decide_eq_false_2 _ N3), (bool_decide_eq_false_2 _ N4). reflexivity.
  - repeat case_bool_decide; cbn; try reflexivity.
    destruct p as [[] ? ?]. reflexivity.
  - intros pressed' Hsame.
    rewrite !(bool_decide_ext _ _ (Hsame _)). reflexivity.
Qed.

Lemma py_mod_cycle (q : Q) : (0 <= py_mod q (4 # 10) /\ py_mod q (4 # 10) < 4 # 10)%Q.
Proof.
  unfold py_mod.
  pose proof (Qfloor_le (q / (4 # 10))) as Hlo.
  pose proof (Qlt_floor (q / (4 # 10))) as Hhi.
  rewrite inject_Z_plus in Hhi. change (inject_Z 1) with 1%Q in Hhi.
  assert (Hq : (q == (4 # 10) * (q / (4 # 10)))%Q) by (field; discriminate).
  set (t := (q / (4 # 10))%Q) in *. clearbody t.
  set (k := inject_Z (Qfloor t)) in *. clearbody k.
  split; qlra.
Qed.

Lemma nearest_even_nonneg (q : Q) : (0 <= q)%Q -> 0 <= Float.nearest_even q.
Proof.
  intros Hq. unfold Float.nearest_even.
  assert (Hf : 0 <= Qfloor q).
  { rewrite <- (Qfloor_Z 0). now apply Qfloor_resp_le. }
  destruct (q - inject_Z (Qfloor q) ?= 1 # 2)%Q; [destruct (Z.even _) | |]; lia.
Qed.

(** Rounding keeps the sign. *)
Lemma round_nonneg (q : Q) : (0 <= q)%Q -> (0 <= Float.round q)%Q.
Proof.
  intros Hq. unfold Float.round.
  destruct (Qnum (Qred q) =? 0); [discriminate |].
  rewrite Qred_correct. apply Qmult_le_0_compat.
  - change 0%Q with (inject_Z 0). rewrite <- Zle_Qle.
    apply nearest_even_nonneg. apply Qmult_le_0_compat.
    + now rewrite Qred_correct.
    + apply Qlt_le_weak, pow2_pos.
  - apply Qlt_le_weak, pow2_pos.
Qed.

(** For a dividend that is not negative and a positive divisor, [%] is the
    exact remainder: no sign correction and so no rounding. *)
Lemma rem_nonneg (s w : Q) :
  (0 <= s)%Q -> (0 < w)%Q -> (0 <= Float.rem s w /\ Float.rem s w < w)%Q.
Proof.
  intros Hs Hw. unfold Float.rem, Float.fmod.
  assert (Hq : (s == w * (s / w))%Q) by (field; intros E; rewrite E in Hw; discriminate).
  assert (Hquot : (0 <= s / w)%Q).
  { apply Qle_shift_div_l; [exact Hw |]. now rewrite Qmult_0_l. }
  rewrite (py_int_floor _ Hquot).
  pose proof (Qfloor_le (s / w)) as Fl. pose proof (Qlt_floor (s / w)) as Fh.
  rewrite inject_Z_plus in Fh. change (inject_Z 1) with 1%Q in Fh.
  set (md := Qred (s - w * inject_Z (Qfloor (s / w)))).
  assert (Hmd : (md == s - w * inject_Z (Qfloor (s / w)))%Q) by apply Qred_correct.
  set (y := (s / w)%Q) in *. clearbody y.
  set (f := inject_Z (Qfloor y)) in *. clearbody f.
  assert (Hlo : (0 <= w * (y - f))%Q)
    by (apply Qmult_le_0_compat; [now apply Qlt_le_weak | qlra]).
  assert (Hhi : (0 < w * (f + 1 - y))%Q)
    by (apply Qmult_lt_0_compat; [exact Hw | qlra]).
  assert (Hrange : (0 <= md /\ md < w)%Q).
  { set (a := (w * (y - f))%Q) in *. set (b := (w * (f + 1 - y))%Q) in *.
    assert (Ea : (md == a)%Q) by (unfold a; rewrite Hmd, Hq; ring).
    assert (Eb : (w - md == b)%Q) by (unfold b; rewrite Hmd, Hq; ring).
    clearbody a b. split; qlra. }
  assert (L : Qltb md 0 = false) by (apply Qltb_ge; tauto).
  assert (W : Qltb w 0 = false) by (apply Qltb_ge; now apply Qlt_le_weak).
  rewrite L, W. cbn [Bool.eqb negb]. rewrite andb_false_r. exact Hrange.
Qed.

(** X13: after [Player.update] of a player whose animation phase is not
    negative, with dt >= 0, the phase lies in [0, 0.4); with the rounding of
    floats written out it is at least 0 and below the float 0.4, the cycle
    duration, whereas for a negative dt it can be that float itself (from
    phase 0 with dt = -1e-20).  The display orientation is the direction of
    travel when the player moves and the previous orientation when it has
    stopped, so an orientation that is not the zero vector never becomes
    zero. *)
Theorem player_update_cosmetics (dt : Q) (m : Maze.t) (p : Player.t)
    (Horientation : Vector.is_zero (Player._orientation p) = false)
    (Htime : (0 <= Player._mouth_time p)%Q) (Hdt : (0 <= dt)%Q) :
  let p' := Player.update dt m p in
  (0 <= Player._mouth_time p' /\ Player._mouth_time p' < 4 # 10)%Q
  /\ (0 <= Rounded.mouth_time (Player._mouth_time p) dt
      /\ Rounded.mouth_time (Player._mouth_time p) dt < Float.round (4 # 10))%Q
  /\ Rounded.mouth_time 0 (Float.round (-1 # 10 ^ 20)) = Float.round (4 # 10)
  /\ Vector.is_zero (Player._orientation p') = false
  /\ (Vector.is_zero (Actor.direction (Player.actor p')) = false ->
      Player._orientation p' = Actor.direction (Player.actor p'))
  /\ (Vector.is_zero (Actor.direction (Player.actor p')) = true ->
      Player._orientation p' = Player._orientation p).
Proof.
  cbv zeta. unfold Player.update.
  cbn [Player._mouth_time Player._orientation Player.actor].
  refine (conj (py_mod_cycle _) (conj _ (conj _ _))).
  - unfold Rounded.mouth_time. apply rem_nonneg.
    + unfold Float.add. apply round_nonneg. qlra.
    + vm_compute. reflexivity.
  - vm_compute. reflexivity.
  - destruct (Vector.is_zero (Actor.direction (Actor.update dt m (Player.actor p))))
      eqn:E; cbn [negb].
    + refine (conj Horientation (conj _ _)); [discriminate | reflexivity].
    + refine (conj E (conj _ _)); [reflexivity | discriminate].
Qed.

Lemma player_update_cosmetics_at_start :
  Vector.is_zero (Player._orientation player_at_start) = false
  /\ (0 <= Player._mouth_time player_at_start)%Q
  /\ (0 <= 3 # 2)%Q
  /\ Vector.is_zero (Player._orientation (Player.update (3 # 2) game_maze player_at_start))
     = false.
Proof.
  assert (Htime : (0 <= Player._mouth_time player_at_start)%Q) by discriminate.
  assert (Hdt : (0 <= 3 # 2)%Q) by discriminate.
  refine (conj eq_refl (conj Htime (conj Hdt _))).
  exact (proj1 (proj2 (proj2 (proj2
           (player_update_cosmetics (3 # 2) game_maze player_at_start
              eq_refl Htime Hdt))))).
Defined.

(** ** Creating the entities *)

Lemma spawn_ghosts_fresh (starts : list TilePos) (i : nat) (level : Z) (r : random.t) :
  Forall2 (fresh_ghost level)
          (fst (Game.spawn_ghosts starts i (90 + (level - 1) * 10) r)) starts.
Proof.
  revert i r. induction starts as [| start rest IH]; intros i r; cbn [Game.spawn_ghosts].
  - constructor.
  - unfold Ghost.__init__.
    pose proof (choice_In (Vector.mk 1 0)
                  [Vector.mk (-1) 0; Vector.mk 0 1; Vector.mk 0 (-1)] r) as Hd.
    destruct (random.choice _ _ r) as [d r1].
    specialize (IH (S i) r1).
    destruct (Game.spawn_ghosts rest (S i) _ r1) as [more r2].
    cbn [fst] in *. constructor; [| exact IH].
    unfold fresh_ghost. cbn. auto.
Qed.

Lemma spawn_ghosts_colors (starts : list TilePos) (i : nat) (speed : Z) (r : random.t)
    (k : nat) (ghost : Ghost.t) :
  fst (Game.spawn_ghosts starts i speed r) !! k = Some ghost ->
  Actor.color ghost = nth ((i + k) mod 4) constants.GHOST_COLORS constants.RED.
Proof.
  revert i r k. induction starts as [| start rest IH]; intros i r k;
    cbn [Game.spawn_ghosts]; [discriminate |].
  unfold Ghost.__init__.
  destruct (random.choice _ _ r) as [d r1].
  specialize (IH (S i) r1).
  destruct (Game.spawn_ghosts rest (S i) speed r1) as [more r2].
  cbn [fst] in *. destruct k as [| k]; cbn [lookup list_lookup].
  - intros E. injection E as <-. cbn. now rewrite Nat.add_0_r.
  - intros E. rewrite (IH k E). f_equal. f_equal. lia.
Qed.

Lemma spawn_ghosts_cursor (starts : list TilePos) (i : nat) (speed : Z) (r : random.t) :
  random.cursor (snd (Game.spawn_ghosts starts i speed r))
  = (random.cursor r + length starts)%nat
  /\ random.draws (snd (Game.spawn_ghosts starts i speed r)) = random.draws r.
Proof.
  revert i r. induction starts as [| start rest IH]; intros i r; cbn [Game.spawn_ghosts].
  - cbn. split; [lia | reflexivity].
  - unfold Ghost.__init__, random.choice.
    specialize (IH (S i) (random.mk (random.draws r) (S (random.cursor r)))).
    destruct (Game.spawn_ghosts rest (S i) speed _) as [more r2].
    cbn [snd fst random.cursor random.draws length] in *.
    destruct IH as [-> ->]. split; [lia | reflexivity].
Qed.

Lemma create_entities_fields (g : Game.t) :
  (exists p, Game.player (Game._create_entities g) = Some p
     /\ Player.actor p
        = Actor.mk (Game.center_of (Maze.player_start (Game.maze g)))
                   constants.YELLOW 120 8 (Vector.mk (-1) 0) None)
  /\ Forall2 (fresh_ghost (Game.level g)) (Game.ghosts (Game._create_entities g))
             (Maze.ghost_spawn_points (Game.maze g))
  /\ Game.maze (Game._create_entities g) = Game.maze g
  /\ Game.level (Game._create_entities g) = Game.level g
  /\ Game.score (Game._create_entities g) = Game.score g
  /\ Game.lives (Game._create_entities g) = Game.lives g
  /\ Game.state (Game._create_entities g) = Game.state g.
Proof.
  unfold Game._create_entities.
  pose proof (spawn_ghosts_fresh (Maze.ghost_spawn_points (Game.maze g)) 0
                (Game.level g) (Game.rng g)) as Hfresh.
  destruct (Game.spawn_ghosts _ _ _ _) as [gs r]. cbn [fst] in Hfresh.
  split; [eexists; split; reflexivity |].
  split; [exact Hfresh | repeat split; reflexivity].
Qed.

(** X14: [_create_entities] puts a new player at the pixel centre of the
    player start, heading and facing left, at speed 120 with radius 8 and no
    buffered direction; it makes one ghost per spawn point, in order, each at
    the centre of its spawn point with speed 90 + 10 * (level - 1), radius 8, a
    unit direction and no buffered direction, coloured red, cyan, pink,
    orange in turn; it consumes one random draw per ghost and leaves the maze
    and the counters alone. *)
Theorem create_entities_spec (g : Game.t) :
  let g' := Game._create_entities g in
  (exists p, Game.player g' = Some p
     /\ Player.actor p
        = Actor.mk (Game.center_of (Maze.player_start (Game.maze g)))
                   constants.YELLOW 120 8 (Vector.mk (-1) 0) None
     /\ Player._orientation p = Vector.mk (-1) 0)
  /\ Forall2 (fresh_ghost (Game.level g)) (Game.ghosts g')
             (Maze.ghost_spawn_points (Game.maze g))
  /\ (forall k ghost, Game.ghosts g' !! k = Some ghost ->
        Actor.color ghost = nth (k mod 4) constants.GHOST_COLORS constants.RED)
  /\ random.cursor (Game.rng g')
     = (random.cursor (Game.rng g)
        + length (Maze.ghost_spawn_points (Game.maze g)))%nat
  /\ Game.maze g' = Game.maze g /\ Game.level g' = Game.level g
  /\ Game.score g' = Game.score g /\ Game.lives g' = Game.lives g
  /\ Game.state g' = Game.state g /\ Game.pressed_keys g' = Game.pressed_keys g.
Proof.
  cbv zeta. unfold Game._create_entities.
  pose proof (spawn_ghosts_fresh (Maze.ghost_spawn_points (Game.maze g)) 0
                (Game.level g) (Game.rng g)) as Hfresh.
  pose proof (fun k ghost => spawn_ghosts_colors
                (Maze.ghost_spawn_points (Game.maze g)) 0
                (90 + (Game.level g - 1) * 10) (Game.rng g) k ghost) as Hcol.
  pose proof (spawn_ghosts_cursor (Maze.ghost_spawn_points (Game.maze g)) 0
                (90 + (Game.level g - 1) * 10) (Game.rng g)) as [Hcur _].
  destruct (Game.spawn_ghosts _ _ _ _) as [gs r]. cbn [fst snd] in *.
  cbn [Game.player Game.ghosts Game.rng Game.maze Game.level Game.score Game.lives
       Game.state Game.pressed_keys Game.set_rng Game.set_ghosts Game.set_player].
  refine (conj _ (conj Hfresh (conj Hcol (conj Hcur _)))).
  - eexists. split; [reflexivity |]. split; reflexivity.
  - repeat split; reflexivity.
Qed.

(** X15: from any state [start_new_game] leads to Playing with score 0,
    level 1, 3 lives, no key held, the walls to be redrawn and the pellets
    equal to the template; a Return or space key in the menu, and any key but
    Escape when the game is over, do exactly that, while any other key in the
    menu is only recorded as held. *)
Theorem start_new_game_spec (g : Game.t) (key : string) :
  let g' := Game.start_new_game g in
  Game.state g' = Game.PLAYING /\ Game.score g' = 0 /\ Game.level g' = 1
  /\ Game.lives g' = 3 /\ Game.pressed_keys g' = ∅ /\ Game.walls_drawn g' = false
  /\ Game.running g' = Game.running g
  /\ Game.maze g' = Maze.reset_pellets (Game.maze g)
  /\ Maze.pellets (Game.maze g') = Maze.pellet_template (Game.maze g)
  /\ (Game.state g = Game.MENU -> key = "Return"%string \/ key = "space"%string ->
      Game._on_key_press key g = g')
  /\ (Game.state g = Game.GAME_OVER -> key <> "Escape"%string ->
      Game._on_key_press key g = g')
  /\ (Game.state g = Game.MENU -> key <> "Escape"%string ->
      key <> "Return"%string -> key <> "space"%string ->
      Game._on_key_press key g
      = Game.set_pressed_keys ({[ key ]} ∪ Game.pressed_keys g) g).
Proof.
  cbv zeta.
  assert (Hfields : let g' := Game.start_new_game g in
            Game.state g' = Game.PLAYING /\ Game.score g' = 0 /\ Game.level g' = 1
            /\ Game.lives g' = 3 /\ Game.pressed_keys g' = ∅
            /\ Game.walls_drawn g' = false /\ Game.running g' = Game.running g
            /\ Game.maze g' = Maze.reset_pellets (Game.maze g)).
  { cbv zeta. unfold Game.start_new_game, Game._create_entities.
    destruct (Game.spawn_ghosts _ _ _ _) as [gs r]. repeat split; reflexivity. }
  cbv zeta in Hfields.
  destruct Hfields as (H1 & H2 & H3 & H4 & H5 & H6 & H7 & H8).
  refine (conj H1 (conj H2 (conj H3 (conj H4 (conj H5 (conj H6 (conj H7 (conj H8
           (conj _ (conj _ (conj _ _))))))))))).
  - rewrite H8. apply copy_id.
  - intros Hs Hk. unfold Game._on_key_press. rewrite Hs.
    destruct Hk as [-> | ->]; reflexivity.
  - intros Hs Hk. unfold Game._on_key_press. rewrite Hs.
    apply String.eqb_neq in Hk. now rewrite Hk.
  - intros Hs Hk1 Hk2 Hk3. unfold Game._on_key_press. rewrite Hs.
    apply String.eqb_neq in Hk1, Hk2, Hk3. now rewrite Hk1, Hk2, Hk3.
Qed.

(** ** The outcomes of a tick *)

Lemma update_unfold (dt : Q) (g : Game.t) (p0 : Player.t) :
  Game.player g = Some p0 ->
  Game.update dt g
  = if Maze.remaining_pellets (Game.maze (Game.advance dt p0 g)) =? 0
    then Game.set_walls_drawn false
           (Game._create_entities
              (Game.set_maze (Maze.reset_pellets (Game.maze (Game.advance dt p0 g)))
                 (Game.set_level (Game.level (Game.advance dt p0 g) + 1)
                    (Game.advance dt p0 g))))
    else Game.check_ghosts (Game.move_player dt p0 g)
           (Game.ghosts (Game.advance dt p0 g)) (Game.advance dt p0 g).
Proof. intros Hp. unfold Game.update. rewrite Hp. reflexivity. Qed.

Lemma advance_fields (dt : Q) (p0 : Player.t) (g : Game.t) :
  let tile_pos := Maze.pixel_to_tile
                    (Actor.position (Player.actor (Game.move_player dt p0 g))) in
  Game.maze (Game.advance dt p0 g) = fst (Maze.collect_pellet tile_pos (Game.maze g))
  /\ Game.score (Game.advance dt p0 g)
     = Game.score g + snd (Maze.collect_pellet tile_pos (Game.maze g))
  /\ Game.ghosts (Game.advance dt p0 g)
     = fst (Game.update_ghosts dt (Game.maze g) (Game.ghosts g) (Game.rng g))
  /\ Game.running (Game.advance dt p0 g) = Game.running g
  /\ Game.pressed_keys (Game.advance dt p0 g) = Game.pressed_keys g
  /\ Game.walls_drawn (Game.advance dt p0 g) = Game.walls_drawn g.
Proof.
  cbv zeta. unfold Game.advance.
  destruct (Game.update_ghosts _ _ _ _) as [gs r].
  destruct (Maze.collect_pellet _ _) as [m gained].
  repeat split; reflexivity.
Qed.

Lemma check_ghosts_miss (p : Player.t) (remaining : list Ghost.t) (g : Game.t) :
  Forall (fun ghost => Game._collides p ghost = false) remaining ->
  Game.check_ghosts p remaining g = g.
Proof.
  induction 1 as [| ghost rest Hg _ IH]; cbn [Game.check_ghosts]; [reflexivity |].
  now rewrite Hg.
Qed.

Lemma check_ghosts_last_life (p : Player.t) (remaining : list Ghost.t) (g : Game.t) :
  (exists ghost, In ghost remaining /\ Game._collides p ghost = true) ->
  Game.lives g - 1 <= 0 ->
  Game.check_ghosts p remaining g
  = Game.set_state Game.GAME_OVER (Game.set_lives (Game.lives g - 1) g).
Proof.
  intros Hhit Hlives.
  induction remaining as [| ghost rest IH]; [destruct Hhit as (? & [] & _) |].
  cbn [Game.check_ghosts].
  destruct (Game._collides p ghost) eqn:E.
  - cbn [Game.lives Game.set_lives].
    destruct (Z.leb_spec (Game.lives g - 1) 0); [reflexivity | lia].
  - apply IH. destruct Hhit as (c & [-> | Hin] & Hc); [congruence | eauto].
Qed.

Lemma check_ghosts_cases (p : Player.t) (remaining : list Ghost.t) (g : Game.t) :
  Game.check_ghosts p remaining g = g
  \/ (0 < Game.lives g - 1
      /\ Game.check_ghosts p remaining g
         = Game.reset_positions (Game.set_lives (Game.lives g - 1) g))
  \/ (Game.lives g - 1 <= 0
      /\ Game.check_ghosts p remaining g
         = Game.set_state Game.GAME_OVER (Game.set_lives (Game.lives g - 1) g)).
Proof.
  induction remaining as [| ghost rest IH]; cbn [Game.check_ghosts]; [now left |].
  destruct (Game._collides p ghost); [| exact IH].
  cbn [Game.lives Game.set_lives].
  destruct (Z.leb_spec (Game.lives g - 1) 0); [right; right | right; left]; auto.
Qed.

(** X16: on a tick that reaches the collision check (pellets remain after
    the player's move) in which some ghost collides with the player and no
    life is left after the decrement, the state becomes GameOver, one life is
    lost, and nothing else changes with respect to the first half of the tick:
    in particular the player and the ghosts stay where they moved. *)
Theorem last_life_ends_game (g : Game.t) (dt : Q) (p0 : Player.t)
    (Hplayer : Game.player g = Some p0)
    (Hpellets : Maze.remaining_pellets (Game.maze (Game.advance dt p0 g)) <> 0)
    (Hhit : exists ghost, In ghost (Game.ghosts (Game.advance dt p0 g))
                          /\ Game._collides (Game.move_player dt p0 g) ghost = true)
    (Hlives : Game.lives g - 1 <= 0) :
  Game.update dt g
  = Game.set_state Game.GAME_OVER
      (Game.set_lives (Game.lives g - 1) (Game.advance dt p0 g))
  /\ Game.state (Game.update dt g) = Game.GAME_OVER
  /\ Game.lives (Game.update dt g) = Game.lives g - 1
  /\ Game.player (Game.update dt g) = Some (Game.move_player dt p0 g)
  /\ Game.ghosts (Game.update dt g) = Game.ghosts (Game.advance dt p0 g)
  /\ Game.score (Game.update dt g) = Game.score (Game.advance dt p0 g).
Proof.
  destruct (advance_frame dt p0 g) as (_ & Hl & _ & Hp).
  assert (E : Game.update dt g
              = Game.set_state Game.GAME_OVER
                  (Game.set_lives (Game.lives g - 1) (Game.advance dt p0 g))).
  { rewrite (update_unfold dt g p0 Hplayer).
    destruct (Z.eqb_spec (Maze.remaining_pellets (Game.maze (Game.advance dt p0 g))) 0);
      [contradiction |].
    rewrite <- Hl. apply check_ghosts_last_life; [exact Hhit | now rewrite Hl]. }
  rewrite E.
  exact (conj eq_refl (conj eq_refl (conj eq_refl (conj Hp (conj eq_refl eq_refl))))).
Qed.

Lemma last_life_ends_game_second_frame :
  let g := Game.set_lives 1 game_before_hit in
  Game.player g = Some player_before_hit
  /\ Game.lives g - 1 <= 0
  /\ Game.state (Game.update (16 # 9) g) = Game.GAME_OVER.
Proof.
  cbv zeta.
  assert (Hplayer : Game.player (Game.set_lives 1 game_before_hit)
                    = Some player_before_hit) by (vm_compute; reflexivity).
  assert (Hpellets : Maze.remaining_pellets
                       (Game.maze (Game.advance (16 # 9) player_before_hit
                                     (Game.set_lives 1 game_before_hit))) <> 0)
    by (vm_compute; discriminate).
  assert (Hhit : exists ghost,
             In ghost (Game.ghosts (Game.advance (16 # 9) player_before_hit
                                      (Game.set_lives 1 game_before_hit)))
             /\ Game._collides (Game.move_player (16 # 9) player_before_hit
                                  (Game.set_lives 1 game_before_hit)) ghost = true).
  { exists (nth 1 (Game.ghosts (Game.advance (16 # 9) player_before_hit
                                  (Game.set_lives 1 game_before_hit))) corridor_ghost).
    split; [vm_compute; right; left; reflexivity | vm_compute; reflexivity]. }
  assert (Hlives : Game.lives (Game.set_lives 1 game_before_hit) - 1 <= 0)
    by (vm_compute; discriminate).
  exact (conj Hplayer (conj Hlives
           (proj1 (proj2 (last_life_ends_game _ (16 # 9) player_before_hit
                            Hplayer Hpellets Hhit Hlives))))).
Defined.



Lemma update_cases (dt : Q) (g : Game.t) (p0 : Player.t) :
  Game.player g = Some p0 ->
  let g1 := Game.advance dt p0 g in
  (Maze.remaining_pellets (Game.maze g1) = 0
   /\ Game.update dt g
      = Game.set_walls_drawn false
          (Game._create_entities
             (Game.set_maze (Maze.reset_pellets (Game.maze g1))
                (Game.set_level (Game.level g1 + 1) g1))))
  \/ Game.update dt g = g1
  \/ (0 < Game.lives g - 1
      /\ Game.update dt g = Game.reset_positions (Game.set_lives (Game.lives g - 1) g1))
  \/ (Game.lives g - 1 <= 0
      /\ Game.update dt g
         = Game.set_state Game.GAME_OVER (Game.set_lives (Game.lives g - 1) g1)).
Proof.
  intros Hp g1. rewrite (update_unfold dt g p0 Hp). fold g1.
  destruct (advance_frame dt p0 g) as (_ & Hl & _). fold g1 in Hl.
  destruct (Z.eqb_spec (Maze.remaining_pellets (Game.maze g1)) 0); [left; auto |].
  right. rewrite <- Hl. apply check_ghosts_cases.
Qed.

Lemma collect_pellet_gain (t : TilePos) (m : Maze.t) :
  snd (Maze.collect_pellet t m) = 0 \/ snd (Maze.collect_pellet t m) = 10
  \/ snd (Maze.collect_pellet t m) = 50.
Proof.
  destruct (collect_pellet_cases t m) as [(_ & ->) | [(_ & _ & ->) | (_ & _ & ->)]];
    cbn; auto.
Qed.

(** X18: one call of [update] adds 0, 10 or 50 to the score, takes at most
    one life, raises the level by at most one and never both takes a life and
    raises the level; the state stays as it was or becomes GameOver; the keys
    held, the running flag, the grid of the maze and its pellet template are
    never changed. *)
Theorem update_effect (dt : Q) (g : Game.t) :
  let g' := Game.update dt g in
  (Game.score g' = Game.score g \/ Game.score g' = Game.score g + 10
   \/ Game.score g' = Game.score g + 50)
  /\ (Game.lives g' = Game.lives g
      \/ (Game.lives g' = Game.lives g - 1 /\ Game.level g' = Game.level g))
  /\ (Game.level g' = Game.level g \/ Game.level g' = Game.level g + 1)
  /\ (Game.state g' = Game.state g \/ Game.state g' = Game.GAME_OVER)
  /\ Game.running g' = Game.running g
  /\ Game.pressed_keys g' = Game.pressed_keys g
  /\ Maze.layout (Game.maze g') = Maze.layout (Game.maze g)
  /\ Maze.pellet_template (Game.maze g') = Maze.pellet_template (Game.maze g).
Proof.
  intros g'. unfold g'.
  destruct (Game.player g) as [p0 |] eqn:Hp;
    [| unfold Game.update; rewrite Hp; repeat split; auto].
  destruct (advance_frame dt p0 g) as (Hs & Hl & Hv & Hp1).
  destruct (advance_fields dt p0 g) as (Hm & Hsc & _ & Hr & Hk & _).
  set (t := Maze.pixel_to_tile _) in Hm, Hsc.
  pose proof (collect_pellet_gain t (Game.maze g)) as Hgain.
  destruct (collect_pellet_grid t (Game.maze g)) as (Hlay & _ & _).
  pose proof (collect_pellet_template t (Game.maze g)) as Htpl.
  assert (Hscore : Game.score (Game.advance dt p0 g) = Game.score g
                   \/ Game.score (Game.advance dt p0 g) = Game.score g + 10
                   \/ Game.score (Game.advance dt p0 g) = Game.score g + 50)
    by (rewrite Hsc; lia).
  rewrite <- Hm in Hlay, Htpl.
  destruct (update_cases dt g p0 Hp) as [[_ E] | [E | [[Hpos E] | [Hneg E]]]];
    rewrite E; clear E.
  - destruct (create_entities_fields
                (Game.set_maze (Maze.reset_pellets (Game.maze (Game.advance dt p0 g)))
                   (Game.set_level (Game.level (Game.advance dt p0 g) + 1)
                      (Game.advance dt p0 g))))
      as (_ & _ & Em & Ev & Ec & El & Es).
    unfold Game._create_entities in *.
    destruct (Game.spawn_ghosts _ _ _ _) as [gs r].
    cbn in Em, Ev, Ec, El, Es |- *.
    rewrite Hl, Hv, Hs, Hr, Hk. repeat split; auto.
  - rewrite Hl, Hv, Hs, Hr, Hk. repeat split; auto.
  - destruct (reset_positions_fields
                (Game.set_lives (Game.lives g - 1) (Game.advance dt p0 g))
                (Game.move_player dt p0 g) Hp1)
      as (Fs & Fc & Fv & Fm & Fl & _).
    rewrite Fs, Fc, Fv, Fm, Fl. cbn [Game.state Game.score Game.level Game.maze
      Game.lives Game.set_lives].
    rewrite Hv, Hs.
    assert (Frk : Game.running (Game.reset_positions
                     (Game.set_lives (Game.lives g - 1) (Game.advance dt p0 g)))
                  = Game.running g
                  /\ Game.pressed_keys (Game.reset_positions
                       (Game.set_lives (Game.lives g - 1) (Game.advance dt p0 g)))
                     = Game.pressed_keys g).
    { unfold Game.reset_positions. cbn [Game.player Game.set_lives]. rewrite Hp1.
      cbn. auto. }
    destruct Frk as [-> ->]. repeat split; auto.
  - cbn [Game.state Game.score Game.level Game.maze Game.lives Game.set_lives
         Game.set_state Game.running Game.pressed_keys].
    rewrite Hv, Hr, Hk. repeat split; auto.
Qed.

(** ** What every state of the controller satisfies *)

Lemma start_new_game_counters (g : Game.t) : game_counters (Game.start_new_game g).
Proof.
  unfold game_counters, Game.start_new_game, Game._create_entities.
  destruct (Game.spawn_ghosts _ _ _ _) as [gs r]. cbn.
  repeat split; try lia; try discriminate. exists 0. reflexivity.
Qed.

Lemma update_counters (dt : Q) (g : Game.t) :
  Game.state g = Game.PLAYING -> game_counters g -> game_counters (Game.update dt g).
Proof.
  intros Hplay (Hlives & Hover & Hlevel & Hscore & Hdiv).
  assert (Hpos : 1 <= Game.lives g).
  { destruct (Z.eq_dec (Game.lives g) 0) as [E | N]; [| lia].
    apply Hover in E. congruence. }
  destruct (Game.player g) as [p0 |] eqn:Hp;
    [| unfold Game.update; rewrite Hp; unfold game_counters; auto].
  destruct (advance_frame dt p0 g) as (Hs & Hl & Hv & Hp1).
  destruct (advance_fields dt p0 g) as (_ & Hsc & _).
  set (t := Maze.pixel_to_tile _) in Hsc.
  pose proof (collect_pellet_gain t (Game.maze g)) as Hgain.
  assert (Hscore1 : 0 <= Game.score (Game.advance dt p0 g)
                    /\ (10 | Game.score (Game.advance dt p0 g))).
  { rewrite Hsc. split; [lia |]. apply Z.divide_add_r; [exact Hdiv |].
    destruct Hgain as [-> | [-> | ->]];
      [exists 0 | exists 1 | exists 5]; reflexivity. }
  unfold game_counters.
  destruct (update_cases dt g p0 Hp) as [[_ E] | [E | [[Hgt E] | [Hle E]]]];
    rewrite E; clear E.
  - destruct (create_entities_fields
                (Game.set_maze (Maze.reset_pellets (Game.maze (Game.advance dt p0 g)))
                   (Game.set_level (Game.level (Game.advance dt p0 g) + 1)
                      (Game.advance dt p0 g))))
      as (_ & _ & _ & Ev & Ec & El & Es).
    cbn [Game.lives Game.state Game.level Game.score Game.set_walls_drawn].
    rewrite Ev, Ec, El, Es. cbn. rewrite Hl, Hs, Hv, Hplay.
    repeat split; try lia; try tauto; try discriminate.
  - rewrite Hl, Hs, Hv, Hplay.
    repeat split; try lia; try tauto; try discriminate.
  - destruct (reset_positions_fields
                (Game.set_lives (Game.lives g - 1) (Game.advance dt p0 g))
                (Game.move_player dt p0 g) Hp1)
      as (Fs & Fc & Fv & _ & Fl & _).
    rewrite Fs, Fc, Fv, Fl. cbn. rewrite Hs, Hv, Hplay.
    repeat split; try lia; try tauto; try discriminate.
  - cbn. rewrite Hv.
    repeat split; try lia; try tauto.
Qed.

Lemma game_reachable_counters (g : Game.t) : game_reachable g -> game_counters g.
Proof.
  induction 1 as [r g Hinit | dt g _ IH | key g _ IH | key g _ IH].
  - unfold Game.__init__ in Hinit.
    destruct (Maze.__init__ constants.MAZE_LAYOUT); [| discriminate].
    injection Hinit as <-. unfold game_counters, Game._create_entities.
    destruct (Game.spawn_ghosts _ _ _ _) as [gs r']. cbn.
    repeat split; try lia; try discriminate. exists 0. reflexivity.
  - unfold Game._frame. destruct (negb (Game.running g)); [exact IH |].
    destruct (Game.state g) eqn:Hs; try exact IH.
    now apply (update_counters dt g Hs).
  - unfold Game._on_key_press.
    destruct (String.eqb key "Escape"); [exact IH |].
    destruct (Game.state g).
    + destruct (String.eqb key "Return" || String.eqb key "space");
        [apply start_new_game_counters | exact IH].
    + exact IH.
    + apply start_new_game_counters.
  - exact IH.
Qed.

(** X19: in every state the controller can reach (start-up, then frames and
    key events in any order) the lives are between 0 and 3, the game is over
    exactly when no life is left, the level is at least 1 and the score is a
    non-negative multiple of 10; there is always a player and one ghost per
    spawn point. *)
Theorem reachable_counters (g : Game.t) (Hreach : game_reachable g) :
  0 <= Game.lives g <= 3
  /\ (Game.state g = Game.GAME_OVER <-> Game.lives g = 0)
  /\ 1 <= Game.level g
  /\ 0 <= Game.score g
  /\ (10 | Game.score g)
  /\ (exists p, Game.player g = Some p)
  /\ length (Game.ghosts g) = length (Maze.ghost_spawn_points (Game.maze g)).
Proof.
  destruct (game_reachable_counters g Hreach) as (H1 & H2 & H3 & H4 & H5).
  destruct (game_reachable_inv g Hreach) as (H6 & H7).
  exact (conj H1 (conj H2 (conj H3 (conj H4 (conj H5 (conj H6 H7)))))).
Qed.

Lemma reachable_counters_before_hit :
  game_reachable game_before_hit /\ 0 <= Game.lives game_before_hit <= 3.
Proof.
  split; [exact game_before_hit_reachable |].
  exact (proj1 (reachable_counters game_before_hit game_before_hit_reachable)).
Defined.

(** ** The actors of the controller stay out of the walls *)

Lemma is_wall_same_grid (m1 m2 : Maze.t) (t : TilePos) :
  Maze.layout m1 = Maze.layout m2 -> Maze.width m1 = Maze.width m2 ->
  Maze.height m1 = Maze.height m2 ->
  Maze.is_wall m1 t = Maze.is_wall m2 t.
Proof.
  intros El Ew Eh. destruct t as [x y]. unfold Maze.is_wall, Maze.cell.
  now rewrite El, Ew, Eh.
Qed.

Lemma actor_ok_same_grid (m1 m2 : Maze.t) (a : Actor.t) :
  Maze.layout m1 = Maze.layout m2 -> Maze.width m1 = Maze.width m2 ->
  Maze.height m1 = Maze.height m2 ->
  actor_ok m2 a -> actor_ok m1 a.
Proof.
  intros El Ew Eh [Hr Hc]. split; [exact Hr |].
  unfold clear_of_walls in *. apply collides_with_wall_false.
  apply collides_with_wall_false in Hc.
  now rewrite !(is_wall_same_grid m1 m2 _ El Ew Eh).
Qed.

Lemma player_start_free (m : Maze.t) :
  maze_reachable m -> Maze.is_wall m (Maze.player_start m) = false.
Proof.
  intros Hm. destruct (maze_reachable_consistent m Hm) as (_ & Hp & _).
  destruct (_find_in_rows_first "P" (Maze.layout m) 0 _ Hp) as (Hmark & _).
  apply (cell_is_free m _ "P" (maze_reachable_shape m Hm));
    [now apply marks_cell_is | discriminate].
Qed.

Lemma center_ok (m : Maze.t) (t : TilePos) (a : Actor.t) :
  Maze.is_wall m t = false -> Actor.radius a = 8 ->
  Actor.position a = Game.center_of t -> actor_ok m a.
Proof.
  intros Hw Hr Hp. split; [exact Hr |]. unfold clear_of_walls. rewrite Hr, Hp.
  destruct t as [c w]. apply center_free; [discriminate | reflexivity | exact Hw].
Qed.

Lemma fresh_ghosts_ok (m : Maze.t) (level : Z) (gs : list Ghost.t) (starts : list TilePos) :
  Forall2 (fresh_ghost level) gs starts ->
  (forall t, In t starts -> Maze.is_wall m t = false) ->
  Forall (actor_ok m) gs.
Proof.
  induction 1 as [| ghost start gs starts (Hp & _ & Hr & _) _ IH]; intros Hfree;
    constructor.
  - apply (center_ok m start); [apply Hfree; now left | exact Hr | exact Hp].
  - apply IH. intros t Ht. apply Hfree. now right.
Qed.

Lemma create_entities_safe (g : Game.t) :
  maze_reachable (Game.maze g) -> Maze.width (Game.maze g) <= constants.GRID_WIDTH ->
  game_safe (Game._create_entities g).
Proof.
  intros Hm Hw.
  destruct (create_entities_fields g) as ((p & Hp & Hpa) & Hfresh & Em & _).
  unfold game_safe. rewrite Em, Hp.
  refine (conj Hm (conj Hw (conj _ _))).
  - intros p' E. injection E as <-.
    apply (center_ok _ (Maze.player_start (Game.maze g)));
      [now apply player_start_free | now rewrite Hpa | now rewrite Hpa].
  - apply (fresh_ghosts_ok _ _ _ _ Hfresh).
    intros t Ht. now apply (ghost_starts_free (Game.maze g) t Hm).
Qed.

Lemma update_ghosts_ok (dt : Q) (m : Maze.t) (gs : list Ghost.t) (r : random.t) :
  Maze.width m <= constants.GRID_WIDTH ->
  Forall (actor_ok m) gs ->
  Forall (actor_ok m) (fst (Game.update_ghosts dt m gs r)).
Proof.
  intros Hw Hall. revert r.
  induction Hall as [| ghost rest [Hr Hc] _ IH]; intros r; cbn [Game.update_ghosts];
    [constructor |].
  pose proof (tick_clear m Hw ghost _ (tick_ghost m dt ghost r)) as Htick.
  destruct (Ghost.update dt m ghost r) as [ghost' r1]. cbn [fst] in Htick.
  specialize (IH r1). destruct (Game.update_ghosts dt m rest r1) as [rest' r2].
  cbn [fst] in *. constructor; [| exact IH].
  destruct Htick as [Hr' Hc']; [lia | exact Hc |]. split; [congruence | exact Hc'].
Qed.

Lemma advance_safe (dt : Q) (p0 : Player.t) (g : Game.t) :
  Game.player g = Some p0 -> game_safe g -> game_safe (Game.advance dt p0 g).
Proof.
  intros Hp (Hm & Hw & Hpl & Hgs).
  destruct (advance_frame dt p0 g) as (_ & _ & _ & Hp1).
  destruct (advance_fields dt p0 g) as (Em & _ & Eg & _).
  set (t := Maze.pixel_to_tile _) in Em.
  destruct (collect_pellet_grid t (Game.maze g)) as (El & Ew & Eh).
  unfold game_safe. rewrite Em, Eg, Hp1, Ew.
  refine (conj (reach_collect t _ Hm) (conj Hw (conj _ _))).
  - intros p E. injection E as <-.
    apply (actor_ok_same_grid _ (Game.maze g) _ El Ew Eh).
    destruct (Hpl p0 Hp) as [Hr Hc].
    destruct (tick_clear (Game.maze g) Hw _ _
                (tick_player (Game.maze g) dt (elements (Game.pressed_keys g)) p0))
      as [Hr' Hc']; [lia | exact Hc |].
    split; [unfold Game.move_player; congruence | exact Hc'].
  - eapply Forall_impl; [apply (update_ghosts_ok dt _ _ _ Hw Hgs) |].
    intros a. apply (actor_ok_same_grid _ (Game.maze g) _ El Ew Eh).
Qed.

Lemma reset_ghosts_ok (m : Maze.t) (gs : list Ghost.t) (starts : list TilePos) :
  Forall (actor_ok m) gs ->
  (forall t, In t starts -> Maze.is_wall m t = false) ->
  Forall (actor_ok m) (Game.reset_ghosts gs starts).
Proof.
  intros Hall. revert starts.
  induction Hall as [| ghost rest [Hr Hc] Hrest IH]; intros [| s ss] Hfree;
    cbn [Game.reset_ghosts]; try constructor; try assumption.
  - now split.
  - apply (center_ok m s); [apply Hfree; now left | exact Hr | reflexivity].
  - apply IH. intros t Ht. apply Hfree. now right.
Qed.

Lemma reset_positions_safe (g : Game.t) : game_safe g -> game_safe (Game.reset_positions g).
Proof.
  intros Hsafe. unfold Game.reset_positions.
  destruct (Game.player g) as [p |] eqn:Hp; [| exact Hsafe].
  destruct Hsafe as (Hm & Hw & Hpl & Hgs).
  unfold game_safe. cbn [Game.maze Game.player Game.ghosts Game.set_ghosts
    Game.set_player].
  refine (conj Hm (conj Hw (conj _ _))).
  - intros p' E. injection E as <-.
    apply (center_ok _ (Maze.player_start (Game.maze g)));
      [now apply player_start_free | apply (Hpl p Hp) | reflexivity].
  - apply reset_ghosts_ok; [exact Hgs |].
    intros t Ht. now apply (ghost_starts_free (Game.maze g) t Hm).
Qed.

Lemma update_safe (dt : Q) (g : Game.t) : game_safe g -> game_safe (Game.update dt g).
Proof.
  intros Hsafe.
  destruct (Game.player g) as [p0 |] eqn:Hp;
    [| unfold Game.update; now rewrite Hp].
  pose proof (advance_safe dt p0 g Hp Hsafe) as Hsafe1.
  destruct (update_cases dt g p0 Hp) as [[_ E] | [E | [[_ E] | [_ E]]]];
    rewrite E; clear E.
  - destruct Hsafe1 as (Hm1 & Hw1 & _).
    apply (create_entities_safe
             (Game.set_maze (Maze.reset_pellets (Game.maze (Game.advance dt p0 g)))
                (Game.set_level (Game.level (Game.advance dt p0 g) + 1)
                   (Game.advance dt p0 g)))).
    + apply reach_reset. exact Hm1.
    + exact Hw1.
  - exact Hsafe1.
  - apply reset_positions_safe. exact Hsafe1.
  - exact Hsafe1.
Qed.

Lemma start_new_game_safe (g : Game.t) :
  maze_reachable (Game.maze g) -> Maze.width (Game.maze g) <= constants.GRID_WIDTH ->
  game_safe (Game.start_new_game g).
Proof.
  intros Hm Hw. unfold Game.start_new_game.
  match goal with |- context [Game._create_entities ?x] =>
    pose proof (create_entities_safe x (reach_reset _ Hm) Hw) as H end.
  exact H.
Qed.

Lemma game_reachable_safe (g : Game.t) : game_reachable g -> game_safe g.
Proof.
  induction 1 as [r g Hinit | dt g _ IH | key g _ IH | key g _ IH].
  - unfold Game.__init__ in Hinit. rewrite game_maze_init in Hinit.
    injection Hinit as <-. apply create_entities_safe.
    + exact game_maze_reachable.
    + cbn [Game.maze]. vm_compute. discriminate.
  - unfold Game._frame. destruct (negb (Game.running g)); [exact IH |].
    destruct (Game.state g); try exact IH. now apply (update_safe dt g).
  - unfold Game._on_key_press.
    destruct (String.eqb key "Escape"); [exact IH |].
    destruct (Game.state g).
    + destruct (String.eqb key "Return" || String.eqb key "space");
        [apply start_new_game_safe; apply IH | exact IH].
    + exact IH.
    + apply start_new_game_safe; apply IH.
  - exact IH.
Qed.

(** X20: in every state the controller can reach, the player and every ghost
    have radius 8 and do not collide with a wall of the maze. *)
Theorem reachable_actors_clear (g : Game.t) (Hreach : game_reachable g) :
  (forall p, Game.player g = Some p ->
     Actor.radius (Player.actor p) = 8
     /\ Maze.collides_with_wall (Game.maze g) (Actor.position (Player.actor p)) 8 = false)
  /\ Forall (fun ghost : Ghost.t =>
               Actor.radius ghost = 8
               /\ Maze.collides_with_wall (Game.maze g) (Actor.position ghost) 8 = false)
            (Game.ghosts g).
Proof.
  destruct (game_reachable_safe g Hreach) as (_ & _ & Hp & Hg).
  split.
  - intros p E. destruct (Hp p E) as [Hr Hc]. unfold clear_of_walls in Hc.
    rewrite Hr in Hc. auto.
  - eapply Forall_impl; [exact Hg |]. intros a [Hr Hc].
    unfold clear_of_walls in Hc. rewrite Hr in Hc. auto.
Qed.

Lemma reachable_actors_clear_before_hit :
  game_reachable game_before_hit
  /\ Forall (fun ghost : Ghost.t =>
               Actor.radius ghost = 8
               /\ Maze.collides_with_wall (Game.maze game_before_hit)
                    (Actor.position ghost) 8 = false)
            (Game.ghosts game_before_hit).
Proof.
  split; [exact game_before_hit_reachable |].
  exact (proj2 (reachable_actors_clear game_before_hit game_before_hit_reachable)).
Defined.

(** ** Key events *)

(** X21: while Playing, pressing a key other than Escape only adds it to the
    keys held, and releasing it afterwards leaves the keys held before minus
    that key; releasing a key that is not held changes nothing; after Left is
    pressed the next [handle_input] buffers the direction left; Escape clears
    the running flag, after which a frame changes nothing. *)
Theorem key_events_spec (g : Game.t) (key : string) (p : Player.t) (dt : Q) :
  (Game.state g = Game.PLAYING -> key <> "Escape"%string ->
     Game._on_key_press key g
     = Game.set_pressed_keys ({[ key ]} ∪ Game.pressed_keys g) g
     /\ Game.pressed_keys (Game._on_key_release key (Game._on_key_press key g))
        = Game.pressed_keys g ∖ {[ key ]})
  /\ ((key ∉ Game.pressed_keys g) -> Game._on_key_release key g = g)
  /\ (Game.state g = Game.PLAYING ->
      Actor.next_direction
        (Player.actor
           (Player.handle_input
              (elements (Game.pressed_keys (Game._on_key_press "Left" g))) p))
      = Some (Vector.mk (-1) 0))
  /\ Game.running (Game._on_key_press "Escape" g) = false
  /\ Game._frame dt (Game._on_key_press "Escape" g) = Game._on_key_press "Escape" g.
Proof.
  refine (conj _ (conj _ (conj _ (conj eq_refl eq_refl)))).
  - intros Hs Hk. unfold Game._on_key_press. rewrite Hs.
    apply String.eqb_neq in Hk. rewrite Hk. split; [reflexivity |].
    cbn. apply set_eq. intros k.
    rewrite !elem_of_difference, elem_of_union, elem_of_singleton. tauto.
  - intros Hk. unfold Game._on_key_release.
    replace (Game.pressed_keys g ∖ {[ key ]}) with (Game.pressed_keys g);
      [now destruct g |].
    apply set_eq. intros k. rewrite elem_of_difference, elem_of_singleton.
    split; [| tauto]. intros Hin. split; [exact Hin | congruence].
  - intros Hs. unfold Game._on_key_press. rewrite Hs. cbn [String.eqb Ascii.eqb
      Bool.eqb Game.pressed_keys Game.set_pressed_keys].
    unfold Player.handle_input, Player.direction_map. cbn [Player.first_pressed].
    rewrite bool_decide_eq_true_2; [reflexivity |].
    apply elem_of_elements, elem_of_union. left. now apply elem_of_singleton.
Qed.

(** ** Distances *)

(** X22: [distance_to] is symmetric and never negative, and it is 0 exactly
    when the two vectors have equal coordinates. *)
Theorem distance_to_metric (a b : Vector.t) :
  Vector.distance_to a b = Vector.distance_to b a
  /\ (0 <= Vector.distance_to a b)%R
  /\ (Vector.distance_to a b = 0%R
      <-> (Vector.x a == Vector.x b)%Q /\ (Vector.y a == Vector.y b)%Q).
Proof.
  unfold Vector.distance_to. rewrite !distance_sq_real.
  refine (conj _ (conj (sqrt_pos _) _)).
  - f_equal. unfold Rsqr. rlra.
  - set (dx := (Q2R (Vector.x a) - Q2R (Vector.x b))%R).
    set (dy := (Q2R (Vector.y a) - Q2R (Vector.y b))%R).
    assert (Hnn : (0 <= Rsqr dx + Rsqr dy)%R)
      by (apply Rplus_le_le_0_compat; apply Rle_0_sqr).
    split.
    + intros H. apply sqrt_eq_0 in H; [| exact Hnn].
      destruct (Rplus_sqr_eq_0 dx dy H) as [Hx Hy].
      unfold dx in Hx. unfold dy in Hy.
      split; apply eqR_Qeq; rlra.
    + intros [Hx Hy]. apply Qeq_eqR in Hx, Hy.
      unfold dx, dy. rewrite Hx, Hy.
      replace (Rsqr _ + Rsqr _)%R with 0%R; [apply sqrt_0 | unfold Rsqr; rlra].
Qed.

(** ** One update of a ghost *)

Lemma actor_update_frame (dt : Q) (m : Maze.t) (a : Actor.t) :
  Actor.speed (Actor.update dt m a) = Actor.speed a
  /\ Actor.radius (Actor.update dt m a) = Actor.radius a
  /\ Actor.color (Actor.update dt m a) = Actor.color a
  /\ (Actor.next_direction a = None ->
      Actor.next_direction (Actor.update dt m a) = None
      /\ (Actor.direction (Actor.update dt m a) = Actor.direction a
          \/ Actor.direction (Actor.update dt m a) = Vector.mk 0 0)).
Proof.
  unfold Actor.update.
  set (a1 := match Actor.next_direction a with
             | Some nd => Actor._try_change_direction m a nd
             | None => a
             end).
  assert (H1 : Actor.speed a1 = Actor.speed a /\ Actor.radius a1 = Actor.radius a
               /\ Actor.color a1 = Actor.color a).
  { unfold a1. destruct (Actor.next_direction a) as [nd |]; [| auto].
    destruct (_try_change_direction_keeps m a nd) as [_ ->].
    destruct (_try_change_direction_frame m a nd) as [-> ->]. auto. }
  destruct H1 as (Hs & Hr & Hc).
  assert (H2 : Actor.next_direction a = None -> a1 = a)
    by (intros E; unfold a1; now rewrite E).
  destruct (negb (Maze.collides_with_wall m _ _)); cbn; rewrite Hs, Hr, Hc;
    (refine (conj eq_refl (conj eq_refl (conj eq_refl _))));
    intros E; rewrite (H2 E); auto.
Qed.

(** X23: [Ghost.update] never changes the speed, the radius or the colour of
    a ghost and, for a ghost without buffered direction (every ghost the
    controller makes), never buffers one; when the ghost is not grid-aligned
    it is a plain [Actor.update] that consumes no random draw and leaves the
    heading as it was unless the ghost is stopped by a wall. *)
Theorem ghost_update_frame (dt : Q) (m : Maze.t) (g : Ghost.t) (r : random.t)
    (Hbuffer : Actor.next_direction g = None) :
  let g' := fst (Ghost.update dt m g r) in
  Actor.speed g' = Actor.speed g /\ Actor.radius g' = Actor.radius g
  /\ Actor.color g' = Actor.color g /\ Actor.next_direction g' = None
  /\ (Actor._aligned_with_grid g = false ->
      Ghost.update dt m g r = (Actor.update dt m g, r)
      /\ (Actor.direction g' = Actor.direction g
          \/ Actor.direction g' = Vector.mk 0 0)).
Proof.
  cbv zeta. unfold Ghost.update.
  destruct (Actor._aligned_with_grid g).
  - destruct (Ghost._choose_direction m _ g r) as [d r']. cbn [fst].
    destruct (actor_update_frame dt m (Actor.set_direction d g))
      as (Hs & Hr & Hc & Hn).
    destruct (Hn Hbuffer) as [Hn' _].
    refine (conj Hs (conj Hr (conj Hc (conj Hn' _)))). discriminate.
  - cbn [fst]. destruct (actor_update_frame dt m g) as (Hs & Hr & Hc & Hn).
    destruct (Hn Hbuffer) as [Hn' Hd].
    refine (conj Hs (conj Hr (conj Hc (conj Hn' _)))). auto.
Qed.

Lemma ghost_update_frame_corridor :
  Actor.next_direction corridor_ghost = None
  /\ Actor.next_direction (fst (Ghost.update (1 # 60) game_maze corridor_ghost
                                  counting_rng)) = None.
Proof.
  split; [reflexivity |].
  exact (proj1 (proj2 (proj2 (proj2
           (ghost_update_frame (1 # 60) game_maze corridor_ghost counting_rng
              eq_refl))))).
Defined.

(** ** Drawing the maze *)

Lemma wall_items_In (m : Maze.t) (i : Canvas.item) :
  In i (Draw.wall_items m)
  <-> exists col row, cell_is m (col, row) "#" /\ i = Draw.wall_rectangle col row.
Proof.
  unfold Draw.wall_items. rewrite in_flat_map. split.
  - intros ([row line] & Hrow & Hin). apply in_flat_map in Hin.
    destruct Hin as ([col cell] & Hcol & Hin). cbn [fst snd] in Hin.
    destruct (Ascii.eqb_spec cell "#") as [-> | _]; [| destruct Hin].
    destruct Hin as [<- | []]. exists col, row. split; [| reflexivity].
    apply marks_cell_is. exists line. split; assumption.
  - intros (col & row & Hcell & ->). apply marks_cell_is in Hcell.
    destruct Hcell as (line & Hrow & Hcol). cbn [fst snd] in *.
    exists (row, line). split; [exact Hrow |].
    apply in_flat_map. exists (col, "#"%char). split; [exact Hcol |].
    cbn. now left.
Qed.

Lemma wall_rectangle_box (col row : Z) :
  Canvas.box (Draw.wall_rectangle col row) = tile_square (col, row).
Proof.
  unfold Draw.wall_rectangle, tile_square, constants.TILE_SIZE. cbn [Canvas.box fst snd].
  now rewrite (Z.mul_comm col 20), (Z.mul_comm row 20).
Qed.

Lemma wall_rectangle_inj (col row col' row' : Z) :
  Draw.wall_rectangle col row = Draw.wall_rectangle col' row' ->
  col = col' /\ row = row'.
Proof.
  unfold Draw.wall_rectangle, constants.TILE_SIZE, inject_Z. cbv zeta.
  intros E. injection E as E1 E2 _ _. lia.
Qed.

Lemma enumerate_from_NoDup {A : Type} (l : list A) (i : Z) :
  NoDup (enumerate_from i l).
Proof.
  revert i. induction l as [| a l IH]; intros i; cbn [enumerate_from].
  - constructor.
  - constructor; [| apply IH].
    rewrite list_elem_of_In. intros Hin. apply enumerate_from_ge in Hin. lia.
Qed.

Lemma flat_map_NoDup {A B : Type} (f : A -> list B) (l : list A) :
  NoDup l ->
  (forall x, In x l -> NoDup (f x)) ->
  (forall x1 x2 y, In x1 l -> In x2 l -> In y (f x1) -> In y (f x2) -> x1 = x2) ->
  NoDup (flat_map f l).
Proof.
  induction l as [| a l IH]; intros Hl Hf Hdisj; cbn [flat_map].
  - constructor.
  - apply NoDup_cons in Hl. destruct Hl as [Ha Hl].
    apply NoDup_app. refine (conj _ (conj _ _)).
    + apply Hf. now left.
    + intros y Hy Hy'. rewrite list_elem_of_In in Hy, Hy'.
      apply in_flat_map in Hy'. destruct Hy' as (x & Hx & Hyx).
      assert (a = x) by (apply (Hdisj a x y); [now left | now right | assumption ..]).
      subst x. apply Ha. now apply list_elem_of_In.
    + apply IH; [exact Hl | |].
      * intros x Hx. apply Hf. now right.
      * intros x1 x2 y H1 H2. apply Hdisj; now right.
Qed.

Lemma wall_items_NoDup (m : Maze.t) : NoDup (Draw.wall_items m).
Proof.
  unfold Draw.wall_items.
  assert (Hone : forall (row : Z) (cc : Z * ascii) (y : Canvas.item),
             In y (if Ascii.eqb (snd cc) "#" then [Draw.wall_rectangle (fst cc) row]
                   else [])
             -> snd cc = "#"%char /\ y = Draw.wall_rectangle (fst cc) row).
  { intros row [col ch] y. cbn [fst snd].
    destruct (Ascii.eqb_spec ch "#") as [-> | _]; [| intros []].
    intros [<- | []]. auto. }
  apply flat_map_NoDup.
  - apply enumerate_from_NoDup.
  - intros [row line] _. cbn [fst snd]. apply flat_map_NoDup.
    + apply enumerate_from_NoDup.
    + intros [col ch] _. cbn [fst snd].
      destruct (Ascii.eqb ch "#"); [apply NoDup_singleton | constructor].
    + intros [c1 h1] [c2 h2] y _ _ H1 H2.
      apply Hone in H1, H2. cbn [fst snd] in H1, H2.
      destruct H1 as [-> ->], H2 as [-> E]. apply wall_rectangle_inj in E.
      now destruct E as [-> _].
  - intros [r1 l1] [r2 l2] y In1 In2 H1 H2. cbn [fst snd] in H1, H2.
    apply in_flat_map in H1, H2.
    destruct H1 as (cc1 & _ & H1), H2 as (cc2 & _ & H2).
    apply Hone in H1, H2. destruct H1 as [_ ->], H2 as [_ E].
    apply wall_rectangle_inj in E. destruct E as [_ ->].
    f_equal. exact (enumerate_from_functional _ _ _ _ _ In1 In2).
Qed.

(** X24: [draw_walls] keeps the items already on the canvas, in place, and
    adds after them exactly one rectangle per layout cell holding '#': the
    items added are the rectangles of those cells, none of them is added
    twice, and different cells have different rectangles; the rectangle of a
    cell is the square of that tile, tagged "wall". *)
Theorem draw_walls_spec (m : Maze.t) (canvas : Canvas.t) :
  firstn (length canvas) (Draw.draw_walls m canvas) = canvas
  /\ (forall i, In i (skipn (length canvas) (Draw.draw_walls m canvas))
        <-> exists col row, cell_is m (col, row) "#"
                            /\ i = Draw.wall_rectangle col row)
  /\ NoDup (skipn (length canvas) (Draw.draw_walls m canvas))
  /\ (forall col row col' row',
        Draw.wall_rectangle col row = Draw.wall_rectangle col' row' ->
        col = col' /\ row = row')
  /\ (forall col row,
        Canvas.box (Draw.wall_rectangle col row) = tile_square (col, row)
        /\ Canvas.tag_of (Draw.wall_rectangle col row) = "wall"%string).
Proof.
  unfold Draw.draw_walls.
  assert (Hskip : skipn (length canvas) (canvas ++ Draw.wall_items m)
                  = Draw.wall_items m).
  { rewrite skipn_app, Nat.sub_diag, skipn_all, skipn_O. reflexivity. }
  refine (conj _ (conj _ (conj _ (conj wall_rectangle_inj _)))).
  - rewrite firstn_app, Nat.sub_diag, firstn_all. cbn. apply app_nil_r.
  - intros i. rewrite Hskip. apply wall_items_In.
  - rewrite Hskip. apply wall_items_NoDup.
  - intros col row. split; [apply wall_rectangle_box | reflexivity].
Qed.

Lemma _draw_pellet_oval (canvas : Canvas.t) (t : TilePos) (radius : Z) :
  Draw._draw_pellet canvas t radius = canvas ++ [pellet_oval t radius].
Proof.
  unfold Draw._draw_pellet. destruct t as [c r]. rewrite tile_to_pixel_center_eq.
  reflexivity.
Qed.

Lemma draw_pellet_loop (radius : Z) (tiles : list TilePos) (canvas : Canvas.t) :
  fold_left (fun c pellet => Draw._draw_pellet c pellet radius) tiles canvas
  = canvas ++ map (fun t => pellet_oval t radius) tiles.
Proof.
  revert canvas. induction tiles as [| t tiles IH]; intros canvas; cbn [fold_left map].
  - now rewrite app_nil_r.
  - rewrite IH, _draw_pellet_oval, <- app_assoc. reflexivity.
Qed.

Lemma pellet_oval_within (t : TilePos) (radius : Z) :
  0 <= radius <= 10 -> box_within (Canvas.box (pellet_oval t radius)) (tile_square t).
Proof.
  intros Hr. unfold pellet_oval, tile_square, box_within. cbn [Canvas.box].
  rewrite <- !Zle_Qle. lia.
Qed.

(** X25: [draw_pellets] keeps the items already on the canvas, in place, and
    adds after them one oval per pellet still present, so as many as
    [remaining_pellets]: for a plain pellet the oval of radius 3 around the
    pixel centre of its tile, for a power pellet the one of radius 6; each
    oval lies within the square of its tile. *)
Theorem draw_pellets_spec (m : Maze.t) (canvas : Canvas.t) :
  firstn (length canvas) (Draw.draw_pellets m canvas) = canvas
  /\ Z.of_nat (length (Draw.draw_pellets m canvas))
     = Z.of_nat (length canvas) + Maze.remaining_pellets m
  /\ (forall i, In i (skipn (length canvas) (Draw.draw_pellets m canvas))
        <-> (exists t, t ∈ PelletSet.pellets (Maze.pellets m) /\ i = pellet_oval t 3)
            \/ (exists t, t ∈ PelletSet.power_pellets (Maze.pellets m)
                          /\ i = pellet_oval t 6))
  /\ (forall t, box_within (Canvas.box (pellet_oval t 3)) (tile_square t)
                /\ box_within (Canvas.box (pellet_oval t 6)) (tile_square t)).
Proof.
  unfold Draw.draw_pellets. rewrite !draw_pellet_loop, <- app_assoc.
  refine (conj _ (conj _ (conj _ _))).
  - rewrite firstn_app, Nat.sub_diag, firstn_all. cbn. apply app_nil_r.
  - rewrite !length_app, !length_map. unfold Maze.remaining_pellets, size, set_size.
    cbn. lia.
  - intros i. rewrite skipn_app, Nat.sub_diag, skipn_all, skipn_O. cbn [app].
    rewrite in_app_iff, !in_map_iff.
    split; (intros [(t & Ht & Hin) | (t & Ht & Hin)]; [left | right]; exists t).
    + split; [now apply elem_of_elements, list_elem_of_In | now symmetry].
    + split; [now apply elem_of_elements, list_elem_of_In | now symmetry].
    + split; [now symmetry | now apply list_elem_of_In, elem_of_elements].
    + split; [now symmetry | now apply list_elem_of_In, elem_of_elements].
  - intros t. split; apply pellet_oval_within; lia.
Qed.

(** ** Drawing the actors *)

Lemma product_bounded (d e : Q) :
  (-1 <= d)%Q -> (d <= 1)%Q -> (0 <= e)%Q -> (- e <= d * e /\ d * e <= e)%Q.
Proof.
  intros Hlo Hhi He.
  assert (H1 : (0 <= (d + 1) * e)%Q) by (apply Qmult_le_0_compat; [qlra | exact He]).
  assert (H2 : (0 <= (1 - d) * e)%Q) by (apply Qmult_le_0_compat; [qlra | exact He]).
  assert (E1 : ((d + 1) * e == d * e + e)%Q) by ring.
  assert (E2 : ((1 - d) * e == e - d * e)%Q) by ring.
  rewrite E1 in H1. rewrite E2 in H2. split; qlra.
Qed.

(** X26: [Actor.draw] adds one oval, which is the collision square of the
    actor.  [Ghost.draw] adds ten items after those already on the canvas, all
    with the tag it is given; for a ghost of non-negative radius whose
    direction has both components in [-1, 1] (a unit direction or zero) every
    one of them lies within the collision square of the ghost. *)
Theorem actors_drawn_within_square (g : Ghost.t) (canvas : Canvas.t) (tag : string)
    (Hradius : 0 <= Actor.radius g)
    (Hdx : (-1 <= Vector.x (Actor.direction g) /\ Vector.x (Actor.direction g) <= 1)%Q)
    (Hdy : (-1 <= Vector.y (Actor.direction g) /\ Vector.y (Actor.direction g) <= 1)%Q) :
  (exists oval, Draw.Actor_draw g canvas tag = canvas ++ [oval]
                /\ Canvas.box oval = actor_square g /\ Canvas.tag_of oval = tag)
  /\ (exists items, Draw.Ghost_draw g canvas tag = canvas ++ items
        /\ length items = 10%nat
        /\ Forall (fun i => Canvas.tag_of i = tag
                             /\ box_within (Canvas.box i) (actor_square g)) items).
Proof.
  split.
  - eexists. unfold Draw.Actor_draw, Canvas.create.
    split; [reflexivity | split; reflexivity].
  - unfold Draw.Ghost_draw, Draw.draw_feet, Draw.draw_eyes, Canvas.create.
    cbn [fold_left]. rewrite <- !app_assoc. cbn [app].
    eexists. split; [reflexivity |]. split; [reflexivity |].
    assert (Hr : (0 <= inject_Z (Actor.radius g))%Q) by (rewrite <- (Zle_Qle 0); lia).
    destruct Hdx as [Hx0 Hx1]. destruct Hdy as [Hy0 Hy1].
    destruct (product_bounded _ _ Hx0 Hx1 Hr) as [Px0 Px1].
    destruct (product_bounded _ _ Hy0 Hy1 Hr) as [Py0 Py1].
    unfold actor_square, box_within.
    set (x := Vector.x (Actor.position g)) in *.
    set (y := Vector.y (Actor.position g)) in *.
    set (r := inject_Z (Actor.radius g)) in *.
    set (dx := Vector.x (Actor.direction g)) in *.
    set (dy := Vector.y (Actor.direction g)) in *.
    change (inject_Z 0) with 0%Q. change (inject_Z 1) with 1%Q.
    change (inject_Z 2) with 2%Q. change (inject_Z 3) with 3%Q.
    change (inject_Z (-1)) with (-1)%Q.
    cbn [Vector.x Vector.y].
    set (fw := ((x + r - (x - r)) / 4)%Q).
    assert (Hfw : (4 * fw == 2 * r)%Q) by (unfold fw; field).
    set (h := (r * (3 # 10) / 2)%Q).
    assert (Hh : (2 * h == r * (3 # 10))%Q) by (unfold h; field).
    clearbody fw h.
    repeat (constructor; [split; [reflexivity | cbn [Canvas.box]; repeat split; qlra] |]).
    constructor.
Qed.

Lemma actors_drawn_within_square_corridor :
  0 <= Actor.radius corridor_ghost
  /\ (exists oval, Draw.Actor_draw corridor_ghost [] "ghost" = [] ++ [oval]
                   /\ Canvas.box oval = actor_square corridor_ghost
                   /\ Canvas.tag_of oval = "ghost"%string).
Proof.
  assert (Hr : 0 <= Actor.radius corridor_ghost) by (vm_compute; discriminate).
  assert (Hdx : (-1 <= Vector.x (Actor.direction corridor_ghost)
                 /\ Vector.x (Actor.direction corridor_ghost) <= 1)%Q)
    by (split; vm_compute; discriminate).
  assert (Hdy : (-1 <= Vector.y (Actor.direction corridor_ghost)
                 /\ Vector.y (Actor.direction corridor_ghost) <= 1)%Q)
    by (split; vm_compute; discriminate).
  exact (conj Hr (proj1 (actors_drawn_within_square corridor_ghost [] "ghost"
                           Hr Hdx Hdy))).
Defined.

(** X27: after any [Player.update] the mouth angle used by [Player.draw] lies
    between 30 and 50 degrees, so the arc drawn spans between 260 and 300
    degrees; for a new player it is 50 degrees. *)
Theorem mouth_angle_bounds (dt : Q) (m : Maze.t) (p : Player.t) (position : Vector.t) :
  let p' := Player.update dt m p in
  (30 <= Draw.mouth_angle p' /\ Draw.mouth_angle p' <= 50)%Q
  /\ (260 <= Draw.extent p' /\ Draw.extent p' <= 300)%Q
  /\ (Draw.mouth_angle (Player.__init__ position) == 50)%Q.
Proof.
  cbv zeta. unfold Draw.extent, Draw.mouth_angle, Draw.mouth_phase.
  refine (conj _ (conj _ _)); [| | reflexivity].
  - unfold Player.update. cbn [Player._mouth_time].
    destruct (py_mod_cycle (Player._mouth_time p + dt)) as [Hlo Hhi].
    set (t := py_mod _ _) in *. clearbody t.
    pose proof (Qabs_nonneg (t / (2 # 10) - 1)) as Hnn.
    assert (Hle : (Qabs (t / (2 # 10) - 1) <= 1)%Q).
    { apply Qabs_Qle_condition.
      assert (Ht : (t == (2 # 10) * (t / (2 # 10)))%Q) by (field; discriminate).
      set (u := (t / (2 # 10))%Q) in *. clearbody u. split; qlra. }
    set (a := Qabs _) in *. clearbody a. split; qlra.
  - unfold Player.update. cbn [Player._mouth_time].
    destruct (py_mod_cycle (Player._mouth_time p + dt)) as [Hlo Hhi].
    set (t := py_mod _ _) in *. clearbody t.
    pose proof (Qabs_nonneg (t / (2 # 10) - 1)) as Hnn.
    assert (Hle : (Qabs (t / (2 # 10) - 1) <= 1)%Q).
    { apply Qabs_Qle_condition.
      assert (Ht : (t == (2 # 10) * (t / (2 # 10)))%Q) by (field; discriminate).
      set (u := (t / (2 # 10))%Q) in *. clearbody u. split; qlra. }
    set (a := Qabs _) in *. clearbody a. split; qlra.
Qed.

(** ** Resetting the positions *)

Lemma reset_ghosts_lookup (gs : list Ghost.t) (starts : list TilePos) (k : nat) :
  Game.reset_ghosts gs starts !! k
  = match gs !! k, starts !! k with
    | Some ghost, Some start => Some (Game.reset_ghost ghost start)
    | other, _ => other
    end.
Proof.
  revert starts k. induction gs as [| g gs IH]; intros [| s ss] [| k]; cbn;
    try reflexivity; try apply IH.
  now destruct (gs !! k).
Qed.

Lemma reset_ghosts_idem (gs : list Ghost.t) (starts : list TilePos) :
  Game.reset_ghosts (Game.reset_ghosts gs starts) starts = Game.reset_ghosts gs starts.
Proof.
  revert starts. induction gs as [| g gs IH]; intros [| s ss]; cbn; try reflexivity.
  now rewrite IH.
Qed.

(** X28: [reset_positions] puts the player at the centre of its start tile
    heading left and clears its buffer, keeping its orientation, animation
    phase and speed; the k-th ghost is put at the centre of the k-th spawn
    point heading right with its buffer cleared, and a ghost beyond the last
    spawn point is left as it is; score, level, lives, state, maze and keys
    are untouched, and resetting twice is the same as resetting once. *)
Theorem reset_positions_spec (g : Game.t) (p : Player.t)
    (Hplayer : Game.player g = Some p) :
  let g' := Game.reset_positions g in
  Game.player g'
  = Some (Player.mk
            (Actor.mk (Game.center_of (Maze.player_start (Game.maze g)))
                      (Actor.color (Player.actor p)) (Actor.speed (Player.actor p))
                      (Actor.radius (Player.actor p)) (Vector.mk (-1) 0) None)
            (Player._orientation p) (Player._mouth_time p))
  /\ length (Game.ghosts g') = length (Game.ghosts g)
  /\ (forall k ghost start,
        Game.ghosts g !! k = Some ghost ->
        Maze.ghost_spawn_points (Game.maze g) !! k = Some start ->
        Game.ghosts g' !! k
        = Some (Actor.mk (Game.center_of start) (Actor.color ghost) (Actor.speed ghost)
                         (Actor.radius ghost) (Vector.mk 1 0) None))
  /\ (forall k, Maze.ghost_spawn_points (Game.maze g) !! k = None ->
        Game.ghosts g' !! k = Game.ghosts g !! k)
  /\ Game.set_ghosts (Game.ghosts g) (Game.set_player (Game.player g) g') = g
  /\ Game.reset_positions g' = g'.
Proof.
  cbv zeta. unfold Game.reset_positions at 1 2 3 4 5. rewrite Hplayer.
  cbn [Game.player Game.ghosts Game.set_ghosts Game.set_player].
  refine (conj eq_refl (conj (reset_ghosts_length _ _) (conj _ (conj _ (conj _ _))))).
  - intros k ghost start Hg Hs.
    pose proof (reset_ghosts_lookup (Game.ghosts g)
                  (Maze.ghost_spawn_points (Game.maze g)) k) as L.
    unfold Ghost.t in *. rewrite Hg, Hs in L. exact L.
  - intros k Hs.
    pose proof (reset_ghosts_lookup (Game.ghosts g)
                  (Maze.ghost_spawn_points (Game.maze g)) k) as L.
    unfold Ghost.t in *. rewrite Hs in L. etransitivity; [exact L |].
    match goal with
    | |- match ?o with _ => _ end = ?r => change r with o; destruct o; reflexivity
    end.
  - rewrite <- Hplayer. now destruct g.
  - unfold Game.reset_positions. rewrite Hplayer.
    destruct g as [maze level score lives state running keys player ghosts walls rng].
    cbn [Game.player Game.ghosts Game.maze Game.set_ghosts Game.set_player
         Game.level Game.score Game.lives Game.state Game.running Game.pressed_keys
         Game.walls_drawn Game.rng
         Player.actor Player._orientation Player._mouth_time].
    rewrite reset_ghosts_idem. reflexivity.
Qed.

Lemma reset_positions_spec_before_hit :
  Game.player game_before_hit = Some player_before_hit
  /\ length (Game.ghosts (Game.reset_positions game_before_hit))
     = length (Game.ghosts game_before_hit).
Proof.
  assert (Hplayer : Game.player game_before_hit = Some player_before_hit)
    by (vm_compute; reflexivity).
  exact (conj Hplayer
           (proj1 (proj2 (reset_positions_spec game_before_hit player_before_hit
                            Hplayer)))).
Defined.

(** ** Collecting in any order *)

(** X29: collecting the pellets of two different tiles gives the same maze
    and the same total score in either order. *)
Theorem collect_pellet_commutes (m : Maze.t) (t1 t2 : TilePos) (Hdiff : t1 <> t2) :
  fst (Maze.collect_pellet t2 (fst (Maze.collect_pellet t1 m)))
  = fst (Maze.collect_pellet t1 (fst (Maze.collect_pellet t2 m)))
  /\ snd (Maze.collect_pellet t1 m)
     + snd (Maze.collect_pellet t2 (fst (Maze.collect_pellet t1 m)))
     = snd (Maze.collect_pellet t2 m)
       + snd (Maze.collect_pellet t1 (fst (Maze.collect_pellet t2 m))).
Proof.
  assert (Hswap : forall X : gset TilePos, X ∖ {[ t1 ]} ∖ {[ t2 ]} = X ∖ {[ t2 ]} ∖ {[ t1 ]}).
  { intros X. apply set_eq. intros t. rewrite !elem_of_difference. tauto. }
  assert (Hin : forall (X : gset TilePos) a b, a <> b -> (a ∈ X ∖ {[ b ]} <-> a ∈ X)).
  { intros X a b Hab. rewrite elem_of_difference, elem_of_singleton. tauto. }
  unfold Maze.collect_pellet.
  destruct (decide (t1 ∈ PelletSet.pellets (Maze.pellets m))) as [H1 | H1];
    destruct (decide (t2 ∈ PelletSet.pellets (Maze.pellets m))) as [H2 | H2];
    [| destruct (decide (t2 ∈ PelletSet.power_pellets (Maze.pellets m))) as [P2 | P2]
     | destruct (decide (t1 ∈ PelletSet.power_pellets (Maze.pellets m))) as [P1 | P1]
     | destruct (decide (t1 ∈ PelletSet.power_pellets (Maze.pellets m))) as [P1 | P1];
       destruct (decide (t2 ∈ PelletSet.power_pellets (Maze.pellets m))) as [P2 | P2]];
    cbn [fst snd Maze.pellets Maze.set_pellets PelletSet.pellets PelletSet.power_pellets];
    repeat match goal with
      | |- context [decide (?a ∈ ?X ∖ {[ ?b ]})] =>
          let H := fresh in
          assert (H : a ∈ X ∖ {[ b ]} <-> a ∈ X) by (apply Hin; congruence);
          destruct (decide (a ∈ X ∖ {[ b ]})); [| ]; try tauto; clear H
      | |- context [decide (?a ∈ ?X)] =>
          destruct (decide (a ∈ X)); try tauto
      end;
    cbn [fst snd Maze.pellets Maze.set_pellets PelletSet.pellets PelletSet.power_pellets
         Maze.layout Maze.width Maze.height Maze.pellet_template Maze.player_start
         Maze.ghost_starts];
    (split; [| reflexivity]); unfold Maze.set_pellets; cbn; rewrite ?Hswap; reflexivity.
Qed.

Lemma collect_pellet_commutes_game_maze :
  (1, 1) <> (2, 1)
  /\ fst (Maze.collect_pellet (2, 1) (fst (Maze.collect_pellet (1, 1) game_maze)))
     = fst (Maze.collect_pellet (1, 1) (fst (Maze.collect_pellet (2, 1) game_maze))).
Proof.
  assert (H : ((1, 1) : TilePos) <> (2, 1)) by discriminate.
  exact (conj H (proj1 (collect_pellet_commutes game_maze (1, 1) (2, 1) H))).
Defined.

(** ** Every allowed direction can be drawn *)

Lemma choice_reaches {A : Type} (first : A) (rest : list A) (a : A)
    (draws : nat -> nat) (cursor : nat) :
  In a (first :: rest) ->
  exists n : nat,
    fst (random.choice first rest
           (random.mk (fun i => if Nat.eqb i cursor then n else draws i) cursor)) = a.
Proof.
  intros Hin. destruct (In_nth _ _ first Hin) as (n & Hn & E).
  exists n. unfold random.choice. cbn [fst random.draws random.cursor].
  rewrite Nat.eqb_refl, Nat.mod_small by exact Hn. exact E.
Qed.

(** X30: no allowed direction is excluded by the random choice: for a ghost
    with some direction that is available and is not the opposite of its
    heading, each such direction is the one chosen for some value of the next
    random draw. *)
Theorem ghost_can_take_any_allowed_direction (maze : Maze.t) (tile_pos : TilePos)
    (g : Ghost.t) (d : Vector.t) (draws : nat -> nat) (cursor : nat)
    (Havailable : In d (Maze.available_directions maze tile_pos))
    (Hforward : Vector.same d (Ghost.opposite_of g) = false) :
  exists n : nat,
    fst (Ghost._choose_direction maze tile_pos g
           (random.mk (fun i => if Nat.eqb i cursor then n else draws i) cursor)) = d.
Proof.
  assert (Hin : In d (Ghost.non_reversing (Ghost.opposite_of g)
                        (Maze.available_directions maze tile_pos)))
    by (apply non_reversing_In; auto).
  unfold Ghost._choose_direction.
  destruct (Ghost.non_reversing _ _) as [| c cs]; [destruct Hin |].
  now apply choice_reaches.
Qed.

Lemma ghost_can_take_any_allowed_direction_corridor :
  In (Vector.mk 1 0) (Maze.available_directions game_maze (2, 1))
  /\ Vector.same (Vector.mk 1 0) (Ghost.opposite_of corridor_ghost) = false
  /\ exists n : nat,
       fst (Ghost._choose_direction game_maze (2, 1) corridor_ghost
              (random.mk (fun i => if Nat.eqb i 0 then n else i) 0)) = Vector.mk 1 0.
Proof.
  assert (Ha : In (Vector.mk 1 0) (Maze.available_directions game_maze (2, 1)))
    by (vm_compute; left; reflexivity).
  assert (Hf : Vector.same (Vector.mk 1 0) (Ghost.opposite_of corridor_ghost) = false)
    by reflexivity.
  exact (conj Ha (conj Hf
           (ghost_can_take_any_allowed_direction game_maze (2, 1) corridor_ghost
              (Vector.mk 1 0) (fun i => i) 0 Ha Hf))).
Defined.
